(** * The dispatch engine of the multi-channel broadcaster ([bot.py])

    A shallow embedding of the channel registry, the broadcast loop
    ([broadcast_copy]), the schedule request ([handle_schedule]), the
    outbox sweep ([outbox_loop]) and the request handlers, followed by the
    properties the specification states about them and by further
    properties read off the code.

    Conventions.
    - The three JSON files are modelled by their contents; reading and
      writing them never fails in this model.
    - Wall-clock time is an integer number of milliseconds ([clock]).
    - Everything the program obtains from outside (the outcome and duration
      of a transport call, a [random.uniform] sample, what other coroutines
      do to the registry and to the outbox while this one is suspended, the
      ISO-8601 parser) is read from an environment [env]; the counter
      [steps] of the state numbers the suspension points, so that an
      environment describes an arbitrary sequence of outcomes.
    - [trace] is a ghost log of the transport calls and [outbox_log] a
      ghost log of the contents of [outbox.json]; the program itself never
      reads them. *)

From stdpp Require Import gmap strings list pretty.
From Stdlib Require Import ZArith Lia Sorted Ascii.

Local Open Scope Z_scope.

(** ** Data *)

(** What a call to the transport does: it returns, or raises an exception,
    of which the code inspects [type(e).__name__] and [str(e)]. *)
Inductive send_result :=
  | Returns
  | Raises (err_name : string) (msg : string).

(** One element of a [results] list: [{'channel': ..., 'status': ...}],
    with the extra key ['err'] on the file path of the sweep. *)
Record result := Result {
  r_channel : string;
  r_status : string;
  r_err : option string
}.

(** The dict passed to [record_post]. *)
Record post := Post {
  p_type : string;
  p_from_chat_id : Z;
  p_message_id : Z;
  p_results : list result;
  p_origin_admin : option Z;
  p_time : Z
}.

(** An outbox entry.  A field is [None] when the key is absent. *)
Record outbox_entry := Entry {
  e_type : option string;
  e_from_chat_id : option Z;
  e_message_id : option Z;
  e_send_at : option string;
  e_status : option string;
  e_origin_admin : option Z;
  e_file_path : option string;
  e_text : option string;
  e_sent_at : option Z;
  e_err : option string;
  e_results : option (list result)
}.

(** The argument of [write_log]; only the keys used for its type and
    status are kept. *)
Record log_record := LogRecord {
  log_type : string;
  log_status : option string;
  log_channel : option string
}.

(** A transport call, as logged in the ghost trace. *)
Record attempt := Attempt {
  a_channel : string;
  a_time : Z;
  a_outcome : send_result
}.

(** The configuration constants read from [config.json]. *)
Record config := Config {
  SEND_RETRY_COUNT : Z;
  SEND_RETRY_DELAY : Z;
  INTER_SEND_DELAY : Z;
  JITTER : Z;
  PER_CHANNEL_COOLDOWN : Z;
  REMOVE_ON_FORBIDDEN : bool;
  FORBIDDEN_THRESHOLD : Z
}.

(** The environment. *)
Record env := Env {
  (** outcome of the transport call made at suspension point [n] *)
  transport : nat -> string -> send_result;
  (** milliseconds the transport call made at suspension point [n] takes *)
  latency : nat -> Z;
  (** the sample [random.uniform(0, JITTER)] drawn at point [n] *)
  uniform : nat -> Z;
  (** what the other coroutines do to [channels.json] while this one is
      suspended at point [n] *)
  other_tasks : nat -> list string -> list string;
  (** what the other coroutines do to [outbox.json] while this one is
      suspended at point [n]: [handle_schedule] (lines 697-707) loads the
      file, appends an entry and saves it without taking the lock *)
  other_outbox : nat -> list outbox_entry -> list outbox_entry;
  (** [datetime.fromisoformat(s).astimezone(utc)]: the instant, or [None]
      when it raises *)
  fromisoformat : string -> option Z;
  (** [dt.isoformat()] *)
  isoformat : Z -> string;
  (** [open(fp, 'rb')]: [None] when it succeeds, the message of the
      exception otherwise *)
  open_error : string -> option string
}.

(** The files and the module-level variables. *)
Record state := State {
  channels_file : list string;          (* CHANNELS_PATH *)
  posts_file : list post;               (* POSTS_PATH *)
  outbox_file : list outbox_entry;             (* OUTBOX_PATH *)
  last_sent_times : gmap string Z;
  forbidden_counts : gmap string Z;
  clock : Z;
  steps : nat;
  trace : list attempt;
  (** ghost: the contents [outbox.json] has had, one for every
      [save_json] of this coroutine and one for every suspension point
      (what the other coroutines left) *)
  outbox_log : list (list outbox_entry)
}.

Definition set_channels_file (v : list string) (st : state) : state :=
  State v (posts_file st) (outbox_file st) (last_sent_times st)
        (forbidden_counts st) (clock st) (steps st) (trace st) (outbox_log st).

Definition set_posts_file (v : list post) (st : state) : state :=
  State (channels_file st) v (outbox_file st) (last_sent_times st)
        (forbidden_counts st) (clock st) (steps st) (trace st) (outbox_log st).

(** [save_json(OUTBOX_PATH, v)] *)
Definition set_outbox_file (v : list outbox_entry) (st : state) : state :=
  State (channels_file st) (posts_file st) v (last_sent_times st)
        (forbidden_counts st) (clock st) (steps st) (trace st)
        (outbox_log st ++ [v]).

Definition set_last_sent_times (v : gmap string Z) (st : state) : state :=
  State (channels_file st) (posts_file st) (outbox_file st) v
        (forbidden_counts st) (clock st) (steps st) (trace st) (outbox_log st).

Definition set_forbidden_counts (v : gmap string Z) (st : state) : state :=
  State (channels_file st) (posts_file st) (outbox_file st)
        (last_sent_times st) v (clock st) (steps st) (trace st) (outbox_log st).

(** ** Suspension points *)

(** The coroutine is suspended for [d] milliseconds ([d] is never
    negative at the call sites below); meanwhile the other coroutines
    run. *)
Definition suspend (E : env) (d : Z) (st : state) : state :=
  let outbox := other_outbox E (steps st) (outbox_file st) in
  State (other_tasks E (steps st) (channels_file st)) (posts_file st)
        outbox (last_sent_times st) (forbidden_counts st)
        (clock st + d) (S (steps st)) (trace st) (outbox_log st ++ [outbox]).

(** [await asyncio.sleep(d)]: a delay that is not positive only yields. *)
Definition sleep (E : env) (d : Z) (st : state) : state :=
  suspend E (Z.max 0 d) st.

(** A transport call to channel [ch] ([bot.copy_message],
    [bot.send_message], [bot.send_document]). *)
Definition call_transport (E : env) (ch : string) (st : state)
  : send_result * state :=
  let r := transport E (steps st) ch in
  let st1 := State (channels_file st) (posts_file st) (outbox_file st)
                   (last_sent_times st) (forbidden_counts st) (clock st)
                   (steps st) (trace st ++ [Attempt ch (clock st) r])
                   (outbox_log st) in
  (r, suspend E (Z.max 0 (latency E (steps st))) st1).

(** ** Logging and the registry *)

(** [write_log]: "Logs have been disabled (no-op)". *)
Definition write_log (r : log_record) (st : state) : state := st.

(** [list.remove(x)]: drops the first occurrence. *)
Fixpoint remove_first (x : string) (l : list string) : list string :=
  match l with
  | [] => []
  | y :: l' => if decide (x = y) then l' else y :: remove_first x l'
  end.

Definition add_channel (chat_identifier : string) (st : state) : bool * state :=
  let channels := channels_file st in
  if decide (chat_identifier ∈ channels) then (false, st)
  else
    let st1 := set_channels_file (channels ++ [chat_identifier]) st in
    (true, write_log (LogRecord "channel_added" None (Some chat_identifier)) st1).

Definition remove_channel (chat_identifier : string) (st : state) : bool * state :=
  let channels := channels_file st in
  if decide (chat_identifier ∈ channels) then
    let st1 := set_channels_file (remove_first chat_identifier channels) st in
    (true, write_log (LogRecord "channel_removed" None (Some chat_identifier)) st1)
  else (false, st).

Definition list_channels (st : state) : list string := channels_file st.

Definition record_post (meta : post) (st : state) : state :=
  set_posts_file (posts_file st ++ [meta]) st.

(** ** The broadcast loop ([broadcast_copy]) *)

(** The local variables of the retry loop. *)
Record locals := Locals {
  attempt_no : Z;        (* attempt *)
  success : bool;
  results : list result
}.

Inductive control := Break | Continue.

(** Lines 246-254: the per-channel cooldown.  [if last_ts:] is false for
    a missing key and for the value zero. *)
Definition cooldown_wait (E : env) (C : config) (ch_id : string) (st : state)
  : state :=
  let now_ts := clock st in
  match last_sent_times st !! ch_id with
  | Some last_ts =>
      if decide (last_ts = 0) then st
      else
        let elapsed := now_ts - last_ts in
        if elapsed <? PER_CHANNEL_COOLDOWN C
        then sleep E (PER_CHANNEL_COOLDOWN C - elapsed) st
        else st
  | None => st
  end.

(** Lines 259-286: the body of [while attempt < SEND_RETRY_COUNT]. *)
Definition send_attempt (E : env) (C : config) (ch_id : string)
    (lv : locals) (st : state) : control * locals * state :=
  match call_transport E ch_id st with
  | (Returns, st1) =>
      let st2 := write_log (LogRecord "send" (Some "ok") (Some ch_id)) st1 in
      (Break,
       Locals (attempt_no lv) true (results lv ++ [Result ch_id "ok" None]),
       st2)
  | (Raises err_name msg, st1) =>
      let attempt := attempt_no lv + 1 in
      let st2 := write_log (LogRecord "send" (Some "error") (Some ch_id)) st1 in
      if decide (err_name = "Forbidden") then
        let count := default 0 (forbidden_counts st2 !! ch_id) + 1 in
        let st3 := set_forbidden_counts (<[ch_id := count]> (forbidden_counts st2)) st2 in
        if REMOVE_ON_FORBIDDEN C && (FORBIDDEN_THRESHOLD C <=? count) then
          let '(removed, st4) := remove_channel ch_id st3 in
          let st5 :=
            if removed
            then write_log (LogRecord "channel_removed" None (Some ch_id)) st4
            else st4 in
          (Break,
           Locals attempt false (results lv ++ [Result ch_id "forbidden" None]),
           st5)
        else
          (Continue, Locals attempt (success lv) (results lv),
           sleep E (SEND_RETRY_DELAY C) st3)
      else
        (Continue, Locals attempt (success lv) (results lv),
         sleep E (SEND_RETRY_DELAY C) st2)
  end.

(** Lines 258-286: the [while] loop.  Every iteration that does not leave
    the loop adds one to [attempt], so [fuel] iterations are enough when
    [SEND_RETRY_COUNT - attempt <= fuel] (lemma [send_loop_fuel] below). *)
Fixpoint send_loop (E : env) (C : config) (ch_id : string) (fuel : nat)
    (lv : locals) (st : state) : locals * state :=
  if attempt_no lv <? SEND_RETRY_COUNT C then
    match fuel with
    | O => (lv, st)
    | S fuel' =>
        match send_attempt E C ch_id lv st with
        | (Break, lv', st') => (lv', st')
        | (Continue, lv', st') => send_loop E C ch_id fuel' lv' st'
        end
    end
  else (lv, st).

(** Lines 245-296: the body of [for ch in channels], given the [results]
    list so far. *)
Definition send_to_channel (E : env) (C : config) (ch : string)
    (res : list result) (st : state) : list result * state :=
  let ch_id := ch in
  let st1 := cooldown_wait E C ch_id st in
  let '(lv, st2) :=
    send_loop E C ch_id (Z.to_nat (SEND_RETRY_COUNT C)) (Locals 0 false res) st1 in
  let res' :=
    if negb (success lv) && (SEND_RETRY_COUNT C <=? attempt_no lv)
    then results lv ++ [Result ch_id "failed" None]
    else results lv in
  let st3 := set_last_sent_times (<[ch_id := clock st2]> (last_sent_times st2)) st2 in
  let delay := INTER_SEND_DELAY C + uniform E (steps st3) in
  (res', sleep E delay st3).

(** Lines 244-296: the [for] loop over the list loaded at line 235. *)
Fixpoint for_channels (E : env) (C : config) (channels : list string)
    (res : list result) (st : state) : list result * state :=
  match channels with
  | [] => (res, st)
  | ch :: rest =>
      let '(res', st') := send_to_channel E C ch res st in
      for_channels E C rest res' st'
  end.

(** [broadcast_copy].  The first component is the value the coroutine
    returns: [None] is Python's [None]. *)
Definition broadcast_copy (E : env) (C : config)
    (from_chat_id message_id : Z) (origin_admin_id : option Z) (st : state)
  : option (list result) * state :=
  let channels := channels_file st in
  match channels with
  | [] =>
      (None, write_log (LogRecord "broadcast" (Some "no_channels") None) st)
  | _ :: _ =>
      let '(res, st1) := for_channels E C channels [] st in
      let st2 :=
        record_post (Post "broadcast" from_chat_id message_id res
                          origin_admin_id (clock st1)) st1 in
      (None, st2)
  end.

(** ** The schedule request ([handle_schedule], lines 696-708) *)

(** The part of [handle_schedule] that follows the decoding of the
    request: [chat_id] and [message_id] are those of the message replied
    to, [dt] is the instant computed from the arguments, [user_id] the
    administrator. *)
Definition handle_schedule (E : env) (chat_id message_id dt user_id : Z)
    (st : state) : state :=
  let outbox := outbox_file st in
  let entry :=
    Entry (Some "copy") (Some chat_id) (Some message_id)
          (Some (isoformat E dt)) (Some "pending") (Some user_id)
          None None None None None in
  let st1 := set_outbox_file (outbox ++ [entry]) st in
  write_log (LogRecord "scheduled" None None) st1.

(** ** The outbox sweep ([outbox_loop], lines 750-812) *)

Definition set_status (s : string) (e : outbox_entry) : outbox_entry :=
  Entry (e_type e) (e_from_chat_id e) (e_message_id e) (e_send_at e)
        (Some s) (e_origin_admin e) (e_file_path e) (e_text e)
        (e_sent_at e) (e_err e) (e_results e).

Definition set_sent_at (t : Z) (e : outbox_entry) : outbox_entry :=
  Entry (e_type e) (e_from_chat_id e) (e_message_id e) (e_send_at e)
        (e_status e) (e_origin_admin e) (e_file_path e) (e_text e)
        (Some t) (e_err e) (e_results e).

Definition set_err (m : string) (e : outbox_entry) : outbox_entry :=
  Entry (e_type e) (e_from_chat_id e) (e_message_id e) (e_send_at e)
        (e_status e) (e_origin_admin e) (e_file_path e) (e_text e)
        (e_sent_at e) (Some m) (e_results e).

Definition set_results (r : list result) (e : outbox_entry) : outbox_entry :=
  Entry (e_type e) (e_from_chat_id e) (e_message_id e) (e_send_at e)
        (e_status e) (e_origin_admin e) (e_file_path e) (e_text e)
        (e_sent_at e) (e_err e) (Some r).

(** [datetime.fromisoformat(entry.get('send_at')).astimezone(timezone.utc)];
    [None] when it raises (an absent key gives [fromisoformat(None)], a
    [TypeError]). *)
Definition parse_send_at (E : env) (e : outbox_entry) : option Z :=
  match e_send_at e with
  | Some s => fromisoformat E s
  | None => None
  end.

(** Lines 755-762: the first [for entry in outbox], with the flag
    [changed].  [None] when an exception leaves the loop. *)
Fixpoint mark_due (E : env) (now : Z) (outbox : list outbox_entry) (changed : bool)
  : option (list outbox_entry * bool) :=
  match outbox with
  | [] => Some ([], changed)
  | entry :: rest =>
      if decide (e_status entry = Some "pending") then
        match parse_send_at E entry with
        | None => None
        | Some send_at =>
            if send_at <=? now then
              match mark_due E now rest true with
              | Some (rest', c) => Some (set_status "sending" entry :: rest', c)
              | None => None
              end
            else
              match mark_due E now rest changed with
              | Some (rest', c) => Some (entry :: rest', c)
              | None => None
              end
        end
      else
        match mark_due E now rest changed with
        | Some (rest', c) => Some (entry :: rest', c)
        | None => None
        end
  end.

(** Lines 785-796: the direct sends of a [file] entry. *)
Fixpoint file_sends (E : env) (entry : outbox_entry) (channels : list string)
    (res : list result) (st : state) : list result * state :=
  match channels with
  | [] => (res, st)
  | ch :: rest =>
      let truthy_path :=
        match e_file_path entry with
        | Some fp => if decide (fp = EmptyString) then None else Some fp
        | None => None
        end in
      let '(outcome, st1) :=
        match truthy_path with
        | Some fp =>
            match open_error E fp with
            | Some msg => (Raises "OSError" msg, st)
            | None => call_transport E ch st
            end
        | None => call_transport E ch st
        end in
      match outcome with
      | Returns => file_sends E entry rest (res ++ [Result ch "ok" None]) st1
      | Raises _ msg =>
          let st2 := write_log (LogRecord "send" (Some "error") (Some ch)) st1 in
          file_sends E entry rest (res ++ [Result ch "error" (Some msg)]) st2
      end
  end.

(** Lines 768-806: the body of the second [for entry in outbox]. *)
Definition dispatch_entry (E : env) (C : config) (entry : outbox_entry) (st : state)
  : outbox_entry * state :=
  if decide (e_status entry = Some "sending") then
    if decide (e_type entry = Some "copy") then
      match e_from_chat_id entry, e_message_id entry with
      | Some from_chat_id, Some message_id =>
          let '(_, st1) :=
            broadcast_copy E C from_chat_id message_id (e_origin_admin entry) st in
          let entry1 := set_sent_at (clock st1) (set_status "sent" entry) in
          (entry1, write_log (LogRecord "outbox_sent" None None) st1)
      | None, _ =>
          (set_err "'from_chat_id'" (set_status "error" entry),
           write_log (LogRecord "outbox_error" None None) st)
      | Some _, None =>
          (set_err "'message_id'" (set_status "error" entry),
           write_log (LogRecord "outbox_error" None None) st)
      end
    else if decide (e_type entry = Some "file") then
      let channels := channels_file st in
      let '(res, st1) := file_sends E entry channels [] st in
      let entry1 :=
        set_sent_at (clock st1) (set_results res (set_status "sent" entry)) in
      (entry1, write_log (LogRecord "outbox_sent" None None) st1)
    else (set_status "unknown_type" entry, st)
  else (entry, st).

(** Lines 767-806: the second [for entry in outbox]. *)
Fixpoint dispatch_all (E : env) (C : config) (outbox : list outbox_entry) (st : state)
  : list outbox_entry * state :=
  match outbox with
  | [] => ([], st)
  | entry :: rest =>
      let '(entry', st1) := dispatch_entry E C entry st in
      let '(rest', st2) := dispatch_all E C rest st1 in
      (entry' :: rest', st2)
  end.

(** Lines 751-764: the part under the first lock.  [None] when an
    exception is raised (nothing has been saved then). *)
Definition sweep_promote (E : env) (st : state) : option (list outbox_entry * state) :=
  let outbox := outbox_file st in
  let now := clock st in
  match mark_due E now outbox false with
  | Some (outbox1, changed) =>
      Some (outbox1, if changed then set_outbox_file outbox1 st else st)
  | None => None
  end.

(** Lines 750-811: the [try] statement of an iteration, up to the
    [save_json] of line 809, which writes the list loaded at line 752, or
    to the handler of line 810. *)
Definition outbox_try (E : env) (C : config) (st : state) : state :=
  match sweep_promote E st with
  | Some (outbox1, st1) =>
      let '(outbox2, st2) := dispatch_all E C outbox1 st1 in
      set_outbox_file outbox2 st2
  | None =>
      write_log (LogRecord "outbox_loop_error" None None) st
  end.

(** One iteration of [while True] in [outbox_loop]. *)
Definition outbox_iteration (E : env) (C : config) (st : state) : state :=
  let st_end := outbox_try E C st in
  sleep E 1000 st_end.

(** [n] iterations of the loop. *)
Fixpoint outbox_loop (E : env) (C : config) (n : nat) (st : state) : state :=
  match n with
  | O => st
  | S n' => outbox_loop E C n' (outbox_iteration E C st)
  end.

(** ** Concrete configurations, environments and states *)

(** The defaults of lines 85-94, in milliseconds. *)
Definition default_config : config :=
  Config 3 2000 350 150 10000 true 3.

(** The same with [remove_on_forbidden] set to [false] in [config.json]. *)
Definition keep_config : config :=
  Config 3 2000 350 150 10000 false 3.

(** An environment in which transport calls take no time, no jitter is
    drawn, no other coroutine touches the registry or the outbox, every
    file opens, and the one timestamp that parses is
    ["2024-01-01T00:00:00+00:00"]. *)
Definition quiet_env (tr : nat -> string -> send_result) : env :=
  Env tr (fun _ => 0) (fun _ => 0) (fun _ l => l) (fun _ l => l)
      (fun s => if decide (s = "2024-01-01T00:00:00+00:00")
                then Some 1704067200000 else None)
      (fun _ => "2024-01-01T00:00:00+00:00")
      (fun _ => None).

Definition always_ok : nat -> string -> send_result := fun _ _ => Returns.

Definition always_forbidden : nat -> string -> send_result :=
  fun _ _ => Raises "Forbidden" "Forbidden: bot was kicked from the channel chat".

(** The first call is rejected, the later ones succeed. *)
Definition forbidden_then_ok : nat -> string -> send_result :=
  fun n _ =>
    match n with
    | O => Raises "Forbidden" "Forbidden: bot was kicked from the channel chat"
    | S _ => Returns
    end.

(** A process that has just started, at some instant of 2024. *)
Definition fresh_state (channels : list string) (outbox : list outbox_entry)
  : state :=
  State channels [] outbox ∅ ∅ 1710000000000 0 [] [].

(** A state in which channel ["A"] has been rejected twice already. *)
Definition twice_rejected : state :=
  set_forbidden_counts {[ "A" := 2 ]} (fresh_state ["A"; "B"] []).



(** A [copy] entry that has been due since the first of January 2024. *)
Definition due_entry : outbox_entry :=
  Entry (Some "copy") (Some 1) (Some 2) (Some "2024-01-01T00:00:00+00:00")
        (Some "pending") (Some 7) None None None None None.

(** The same entry as a process that died while sending it left it. *)
Definition stale_entry : outbox_entry := set_status "sending" due_entry.

(** A pending entry whose [send_at] does not parse. *)
Definition garbled_entry : outbox_entry :=
  Entry (Some "copy") (Some 1) (Some 3) (Some "next tuesday")
        (Some "pending") (Some 7) None None None None None.

(** Two errors that are not [Forbidden], then success: the first two
    calls of a broadcast are made at the suspension points 0 and 2 (each
    call and each sleep is one suspension point). *)
Definition two_errors_then_ok : nat -> string -> send_result :=
  fun n _ =>
    if (n <? 4)%nat then Raises "NetworkError" "Bad Gateway" else Returns.

(** A due entry of a kind the sweep does not know. *)
Definition unknown_kind_entry : outbox_entry :=
  Entry (Some "poll") None None (Some "2024-01-01T00:00:00+00:00")
        (Some "pending") (Some 7) None None None None None.

(** Like [quiet_env], but whenever the broadcast is suspended another
    coroutine empties the registry file. *)
Definition meddling_env (tr : nat -> string -> send_result) : env :=
  Env tr (fun _ => 0) (fun _ => 0) (fun _ _ => []) (fun _ l => l)
      (fun _ => None) (fun _ => EmptyString) (fun _ => None).

(** Like [quiet_env], but while the coroutine is suspended at point [k]
    a [/schedule] request is served, which appends [e] to the outbox. *)
Definition scheduling_env (tr : nat -> string -> send_result) (k : nat)
    (e : outbox_entry) : env :=
  Env tr (fun _ => 0) (fun _ => 0) (fun _ l => l)
      (fun n l => if decide (n = k) then l ++ [e] else l)
      (fun s => if decide (s = "2024-01-01T00:00:00+00:00")
                then Some 1704067200000 else None)
      (fun _ => "2024-01-01T00:00:00+00:00")
      (fun _ => None).

(** ** Vocabulary of the properties *)

(** The outcomes a broadcast records for a channel. *)
Definition outcome_names : list string := ["ok"; "forbidden"; "failed"].



(** The statuses the sweep gives an entry it has dispatched. *)
Definition is_terminal (s : option string) : Prop :=
  s = Some "sent" ∨ s = Some "error" ∨ s = Some "unknown_type".

(** [status_step s s']: an entry whose status was [s] may later have the
    status [s']: the same, or one further along
    [pending], [sending], [sent | error | unknown_type]. *)
Definition status_step (s s' : option string) : Prop :=
  s' = s
  ∨ (s = Some "pending" ∧ (s' = Some "sending" ∨ is_terminal s'))
  ∨ (s = Some "sending" ∧ is_terminal s').

(** [status_le ob ob']: every entry of [ob] is still in [ob'], at the
    same index, its status the same or one further along; unless it was
    [pending] and [ob'] is too short to hold it (the save of line 809
    overwrites what has been appended since line 752). *)
Definition status_le (ob ob' : list outbox_entry) : Prop :=
  ∀ i e, ob !! i = Some e →
    match ob' !! i with
    | Some e' => status_step (e_status e) (e_status e')
    | None => e_status e = Some "pending"
    end.

(** The requests served by the process, and the sweep. *)
Inductive request :=
  | Schedule (chat_id message_id dt user_id : Z)
  | Broadcast (from_chat_id message_id : Z) (origin_admin_id : option Z)
  | AddChannel (chat_identifier : string)
  | RemoveChannel (chat_identifier : string)
  | Sweep.

Definition run_request (E : env) (C : config) (r : request) (st : state) : state :=
  match r with
  | Schedule chat_id message_id dt user_id =>
      handle_schedule E chat_id message_id dt user_id st
  | Broadcast from_chat_id message_id origin =>
      snd (broadcast_copy E C from_chat_id message_id origin st)
  | AddChannel ch => snd (add_channel ch st)
  | RemoveChannel ch => snd (remove_channel ch st)
  | Sweep => outbox_iteration E C st
  end.

(** A run of requests and sweeps. *)
Definition run_requests (E : env) (C : config) (rs : list request) (st : state)
  : state :=
  foldl (λ s r, run_request E C r s) st rs.

(** The contents [outbox.json] takes while the requests [rs] are served
    from [st], in order: those saved by the schedule requests and by the
    sweep (lines 764 and 809), and those the other coroutines leave at the
    suspension points of the requests. *)
Definition outbox_history (E : env) (C : config) (rs : list request) (st : state)
  : list (list outbox_entry) :=
  drop (length (outbox_log st)) (outbox_log (run_requests E C rs st)).

(** The other coroutines only append [pending] entries to the outbox, as
    [handle_schedule] does. *)
Definition appends_pending (E : env) : Prop :=
  ∀ n l, ∃ es, other_outbox E n l = l ++ es
    ∧ Forall (λ e, e_status e = Some "pending") es.

(** No other coroutine touches the outbox file. *)
Definition outbox_undisturbed (E : env) : Prop :=
  ∀ n l, other_outbox E n l = l.

(** The transport calls made between two states of one run. *)
Definition calls_since (st st' : state) : list attempt :=
  drop (length (trace st)) (trace st').

(** [P] holds of the outbox file and of its log. *)
Definition on_outbox (P : list outbox_entry → list (list outbox_entry) → Prop)
    (st : state) : Prop :=
  P (outbox_file st) (outbox_log st).

(** [settled F h]: the contents [h] are ordered by [status_le], and an
    entry at index [F] or beyond is [pending] in each of them. *)
Definition settled (F : nat) (h : list (list outbox_entry)) : Prop :=
  StronglySorted status_le h
  ∧ ∀ v i e, v ∈ h → (F ≤ i)%nat → v !! i = Some e →
      e_status e = Some "pending".

(** The invariant of the outbox between two sweeps, for the contents
    since the state in which the log had [n0] entries and the file held
    [ob0]: they are settled from some index [F] on, none is shorter than
    [ob0], and the last of them is the file [ob]. *)
Definition outbox_inv (n0 : nat) (ob0 : list outbox_entry) (F : nat)
    (ob : list outbox_entry) (log : list (list outbox_entry)) : Prop :=
  (n0 ≤ length log)%nat
  ∧ settled F (ob0 :: drop n0 log)
  ∧ Forall (λ v, (length ob0 ≤ length v)%nat) (ob0 :: drop n0 log)
  ∧ last (ob0 :: drop n0 log) = Some ob
  ∧ (F ≤ length ob)%nat.

(** The invariant during a sweep that holds the list [loc] in memory:
    the entries beyond the length of [loc] are those other coroutines
    have appended since the sweep loaded the file, and every status the
    file has had for an entry of [loc] leads to the one it has in
    [loc]. *)
Definition sweep_inv (n0 : nat) (ob0 loc ob : list outbox_entry)
    (log : list (list outbox_entry)) : Prop :=
  outbox_inv n0 ob0 (length loc) ob log
  ∧ (length ob0 ≤ length loc)%nat
  ∧ ∀ v, v ∈ ob0 :: drop n0 log → status_le v loc.

(** What identifies the ledger entry of a broadcast. *)
Definition post_key (p : post) : Z * Z * option Z :=
  (p_from_chat_id p, p_message_id p, p_origin_admin p).

(** The ledger entry the sweep owes an entry of the outbox: none unless
    the entry is [sending], of type [copy], with both keys. *)
Definition copy_key (e : outbox_entry) : option (Z * Z * option Z) :=
  if decide (e_status e = Some "sending") then
    if decide (e_type e = Some "copy") then
      match e_from_chat_id e, e_message_id e with
      | Some c, Some m => Some (c, m, e_origin_admin e)
      | _, _ => None
      end
    else None
  else None.

(** [delivered E C e sa sb]: between the states [sa] and [sb] the entry
    [e] went out to the channels registered at [sa].  For a [copy] entry
    with both keys and a registry that is not empty, one ledger entry for
    its message was appended and, when a send is attempted at all, every
    channel was called; for a [file] entry whose file opens (or that has
    none), every channel was called once, in order. *)
Definition delivered (E : env) (C : config) (e : outbox_entry) (sa sb : state)
  : Prop :=
  if decide (e_type e = Some "copy") then
    ∀ c m, e_from_chat_id e = Some c → e_message_id e = Some m →
      channels_file sa ≠ [] →
      (∃ res t, posts_file sb
                = posts_file sa ++ [Post "broadcast" c m res (e_origin_admin e) t])
      ∧ (0 < SEND_RETRY_COUNT C →
         ∀ ch, ch ∈ channels_file sa →
           ∃ a, a ∈ calls_since sa sb ∧ a_channel a = ch)
  else if decide (e_type e = Some "file") then
    (∀ fp, e_file_path e = Some fp → fp ≠ EmptyString → open_error E fp = None) →
    map a_channel (calls_since sa sb) = channels_file sa
  else True.

(** What the first loop of the sweep does to an entry when it raises no
    exception. *)
Definition mark_entry (E : env) (now : Z) (e : outbox_entry) : outbox_entry :=
  if decide (e_status e = Some "pending") then
    match parse_send_at E e with
    | Some send_at => if send_at <=? now then set_status "sending" e else e
    | None => e
    end
  else e.

(** ** Vocabulary of the further properties *)

(** The call was rejected with the exception the loop counts. *)
Definition is_rejection (r : send_result) : bool :=
  match r with
  | Raises err_name _ => bool_decide (err_name = "Forbidden")
  | Returns => false
  end.

Definition is_return (r : send_result) : bool :=
  match r with
  | Returns => true
  | Raises _ _ => false
  end.

(** The number of calls to [ch] in [tr] that were rejected. *)
Definition rejections (ch : string) (tr : list attempt) : Z :=
  Z.of_nat (length (filter (λ a, a_channel a = ch
                                 ∧ is_rejection (a_outcome a) = true) tr)).

(** The number of calls in [tr] that returned. *)
Definition returns (tr : list attempt) : nat :=
  length (filter (λ a, is_return (a_outcome a) = true) tr).

(** The number of [ok] outcomes in a [results] list. *)
Definition oks (rs : list result) : nat :=
  length (filter (λ r, r_status r = "ok") rs).

(** The value [forbidden_counts.get(ch, 0)]. *)
Definition forbidden_count (st : state) (ch : string) : Z :=
  default 0 (forbidden_counts st !! ch).

(** No other coroutine touches the registry file. *)
Definition undisturbed (E : env) : Prop :=
  ∀ n l, other_tasks E n l = l.

(** [registry_step C st st']: from [st] to [st'] the registry only lost
    channels, each of them with auto-removal enabled and its counter at
    the threshold or above, and no counter went down. *)
Definition registry_step (C : config) (st st' : state) : Prop :=
  channels_file st' `sublist_of` channels_file st
  ∧ (REMOVE_ON_FORBIDDEN C = false → channels_file st' = channels_file st)
  ∧ (∀ c, c ∈ channels_file st → c ∉ channels_file st' →
       REMOVE_ON_FORBIDDEN C = true ∧ FORBIDDEN_THRESHOLD C ≤ forbidden_count st' c)
  ∧ (∀ c, forbidden_count st c ≤ forbidden_count st' c).

(** [recorded t0 st a]: [last_sent_times] holds for the channel of the
    call [a] a time that is not before the call, nor before [t0], nor
    after the clock. *)
Definition recorded (t0 : Z) (st : state) (a : attempt) : Prop :=
  ∃ t, last_sent_times st !! a_channel a = Some t
    ∧ a_time a ≤ t ∧ t0 ≤ t ∧ t ≤ clock st.

(** [same_payload e e']: [e'] is [e] up to the keys the sweep writes
    ([status], [sent_at], [err], [results]). *)
Definition same_payload (e e' : outbox_entry) : Prop :=
  e_type e' = e_type e
  ∧ e_from_chat_id e' = e_from_chat_id e
  ∧ e_message_id e' = e_message_id e
  ∧ e_send_at e' = e_send_at e
  ∧ e_origin_admin e' = e_origin_admin e
  ∧ e_file_path e' = e_file_path e
  ∧ e_text e' = e_text e.

(** An entry the sweep has nothing to do with at time [now]: it is not
    [sending], and if it is [pending] its [send_at] parses and is in the
    future. *)
Definition not_due (E : env) (now : Z) (e : outbox_entry) : Prop :=
  e_status e ≠ Some "sending"
  ∧ (e_status e = Some "pending" →
     ∃ t, parse_send_at E e = Some t ∧ now < t).

(** * The request handlers *)

(** ** What the handlers receive *)

(** The functions of Python's [str], [int] and [datetime] that the
    handlers call and that are taken as they are. *)
Record python := Python {
  (** [s.isdigit()] *)
  str_isdigit : string → bool;
  (** [s.lower()] *)
  str_lower : string → string;
  (** [s.strip()] *)
  str_strip : string → string;
  (** [int(s)]: [None] when it raises *)
  int_of_str : string → option Z;
  (** [datetime.now()], the naive local time at an instant, in
      milliseconds since the start of day one of the calendar *)
  local_of_instant : Z → Z;
  (** [dt.astimezone(timezone.utc)], the instant of a naive local time *)
  instant_of_local : Z → Z
}.

(** What the handlers read of [update] and [context]. *)
Record update := Update {
  u_user_id : Z;                       (* update.effective_user.id *)
  u_chat_id : Z;                       (* update.message.chat_id *)
  u_message_id : Z;                    (* update.message.message_id *)
  u_text : option string;              (* update.message.text *)
  u_forward_from_chat : option Z;      (* the id of message.forward_from_chat *)
  u_reply_to_message : option (Z * Z); (* its chat_id and message_id *)
  u_args : list string                 (* context.args *)
}.

(** The value of one key of [channel_stats] in [handle_analytics]. *)
Record channel_stat := ChannelStat {
  cs_success : nat;
  cs_failed : nat;
  cs_total : nat
}.

(** The replies, by the branch that sends them; the texts themselves are
    not kept, the values computed for them are. *)
Inductive answer :=
  | Unauthorized
  | Usage
  | Added (target : string)
  | AlreadyExists (target : string)
  | Removed (target : string)
  | NotFound (target : string)
  | NoChannels
  | Broadcasting (n : nat)
  | BroadcastComplete
  | BroadcastError
  | NeedsReply
  | InvalidFormat
  | InvalidTime
  | Scheduled (dt : Z)
  | StatusReport (channels : list string)
  | StatsReport (total_posts total_channels success failed : nat)
  | AnalyticsReport (total_posts total_channels total_sends total_success
                     total_failed : nat)
                    (per_channel : list (string * channel_stat)).

(** [await update.message.reply_text(...)]: a call to the chat of the
    update, which may raise like any other. *)
Definition reply_text (E : env) (u : update) (a : answer) (st : state)
  : send_result * state :=
  call_transport E (pretty (u_chat_id u)) st.

(** A reply that ends the handler, whether it is delivered or raises. *)
Definition say (E : env) (u : update) (a : answer) (st : state)
  : list answer * state :=
  ([a], snd (reply_text E u a st)).

(** ** [/addchannel] and [/removechannel] *)

(** [s.startswith('@')] *)
Definition startswith_at (s : string) : bool :=
  match s with
  | String c _ => bool_decide (c = "@"%char)
  | EmptyString => false
  end.

(** [s.lstrip('-')] *)
Fixpoint lstrip_dash (s : string) : string :=
  match s with
  | String c s' => if decide (c = "-"%char) then lstrip_dash s' else s
  | EmptyString => EmptyString
  end.

(** Lines 331-333 and 353-355: a name that is neither an [@name] nor a
    number gets an [@]. *)
Definition normalize_target (P : python) (target : string) : string :=
  if negb (startswith_at target) && negb (str_isdigit P (lstrip_dash target))
  then "@" +:+ target
  else target.

Definition handle_addchannel (P : python) (E : env) (admins : gset Z)
    (u : update) (st : state) : list answer * state :=
  if decide (u_user_id u ∈ admins) then
    match u_forward_from_chat u with
    | Some fwd_chat_id =>
        let target := pretty fwd_chat_id in
        let '(ok, st1) := add_channel target st in
        say E u (if ok then Added target else AlreadyExists target) st1
    | None =>
        match u_args u with
        | [] => say E u Usage st
        | arg :: _ =>
            let target := normalize_target P arg in
            let '(ok, st1) := add_channel target st in
            say E u (if ok then Added target else AlreadyExists target) st1
        end
    end
  else say E u Unauthorized st.

Definition handle_removechannel (P : python) (E : env) (admins : gset Z)
    (u : update) (st : state) : list answer * state :=
  if decide (u_user_id u ∈ admins) then
    match u_args u with
    | [] => say E u Usage st
    | arg :: _ =>
        let target := normalize_target P arg in
        let '(ok, st1) := remove_channel target st in
        say E u (if ok then Removed target else NotFound target) st1
    end
  else say E u Unauthorized st.

(** ** Plain messages ([handle_message]) *)

(** [update.message.text and update.message.text.startswith('/')] *)
Definition is_command (u : update) : bool :=
  match u_text u with
  | Some (String c _) => bool_decide (c = "/"%char)
  | _ => false
  end.

Definition handle_message (E : env) (C : config) (admins : gset Z)
    (u : update) (st : state) : list answer * state :=
  if decide (u_user_id u ∈ admins) then
    if is_command u then ([], st)
    else
      match channels_file st with
      | [] => say E u NoChannels st
      | channels =>
          match reply_text E u (Broadcasting (length channels)) st with
          | (Raises _ _, st1) => ([Broadcasting (length channels)], st1)
          | (Returns, st1) =>
              let '(_, st2) :=
                broadcast_copy E C (u_chat_id u) (u_message_id u)
                               (Some (u_user_id u)) st1 in
              match reply_text E u BroadcastComplete st2 with
              | (Returns, st3) =>
                  ([Broadcasting (length channels); BroadcastComplete], st3)
              | (Raises _ _, st3) =>
                  let st4 := write_log (LogRecord "broadcast_error" None None) st3 in
                  ([Broadcasting (length channels); BroadcastComplete;
                    BroadcastError],
                   snd (reply_text E u BroadcastError st4))
              end
          end
      end
  else ([], st).

(** ** [/status] and [/stats] *)

Definition handle_status (E : env) (admins : gset Z) (u : update) (st : state)
  : list answer * state :=
  if decide (u_user_id u ∈ admins) then
    say E u (StatusReport (channels_file st)) st
  else say E u Unauthorized st.

(** Lines 615-618: every result of every post. *)
Definition sends_list (posts : list post) : list result :=
  foldl (λ acc post, foldl (λ acc r, acc ++ [r]) acc (p_results post)) [] posts.

Definition handle_stats (E : env) (admins : gset Z) (u : update) (st : state)
  : list answer * state :=
  if decide (u_user_id u ∈ admins) then
    let posts := posts_file st in
    let channels := channels_file st in
    let sends := sends_list posts in
    let success := length (filter (λ r, r_status r = "ok") sends) in
    let failed := length (filter (λ r, r_status r ≠ "ok") sends) in
    say E u (StatsReport (length posts) (length channels) success failed) st
  else say E u Unauthorized st.

(** ** [/analytics] *)

(** A [dict] with string keys, in insertion order. *)
Fixpoint dict_get {V} (k : string) (d : list (string * V)) : option V :=
  match d with
  | [] => None
  | (k', v) :: d' => if decide (k = k') then Some v else dict_get k d'
  end.

(** [d[k] = f(d[k])] for a key that is there. *)
Fixpoint dict_alter {V} (f : V → V) (k : string) (d : list (string * V))
  : list (string * V) :=
  match d with
  | [] => []
  | (k', v) :: d' =>
      if decide (k = k') then (k', f v) :: d' else (k', v) :: dict_alter f k d'
  end.

(** [d[k] = v] *)
Fixpoint dict_set {V} (k : string) (v : V) (d : list (string * V))
  : list (string * V) :=
  match d with
  | [] => [(k, v)]
  | (k', v') :: d' =>
      if decide (k = k') then (k', v) :: d' else (k', v') :: dict_set k v d'
  end.

(** [d.setdefault(k, v)] *)
Definition dict_setdefault {V} (k : string) (v : V) (d : list (string * V))
  : list (string * V) :=
  match dict_get k d with
  | Some _ => d
  | None => d ++ [(k, v)]
  end.

Definition zero_stat : channel_stat := ChannelStat 0 0 0.

(** Lines 531-540: one result. *)
Definition tally (channel_stats : list (string * channel_stat)) (r : result)
  : list (string * channel_stat) :=
  let ch := r_channel r in
  let status := r_status r in
  let d1 :=
    match dict_get ch channel_stats with
    | Some _ => channel_stats
    | None => dict_setdefault ch zero_stat channel_stats
    end in
  let d2 :=
    dict_alter (λ s, ChannelStat (cs_success s) (cs_failed s) (S (cs_total s)))
               ch d1 in
  if decide (status = "ok") then
    dict_alter (λ s, ChannelStat (S (cs_success s)) (cs_failed s) (cs_total s))
               ch d2
  else
    dict_alter (λ s, ChannelStat (cs_success s) (S (cs_failed s)) (cs_total s))
               ch d2.

(** Lines 528-540. *)
Definition channel_stats (channels : list string) (posts : list post)
  : list (string * channel_stat) :=
  let init := foldl (λ d ch, dict_set ch zero_stat d) [] channels in
  foldl (λ d post, foldl tally d (p_results post)) init posts.

(** [sum(s[...] for s in channel_stats.values())] *)
Definition sum_stats (f : channel_stat → nat) (d : list (string * channel_stat))
  : nat :=
  foldr (λ kv acc, (f (snd kv) + acc)%nat) 0%nat d.

Definition handle_analytics (E : env) (admins : gset Z) (u : update) (st : state)
  : list answer * state :=
  if decide (u_user_id u ∈ admins) then
    let posts := posts_file st in
    let channels := channels_file st in
    let stats := channel_stats channels posts in
    say E u (AnalyticsReport (length posts) (length channels)
                             (sum_stats cs_total stats)
                             (sum_stats cs_success stats)
                             (sum_stats cs_failed stats)
                             (filter (λ kv, (0 < cs_total (snd kv))%nat) stats))
        st
  else say E u Unauthorized st.

(** ** [/schedule] *)

Definition day_ms : Z := 86400000.

(** The naive times [datetime] can hold: the years 1 to 9999. *)
Definition datetime_max : Z := 3652059 * day_ms.

(** [dt + timedelta(milliseconds=d)]; [None] when it raises
    [OverflowError]. *)
Definition add_delta (dt d : Z) : option Z :=
  let t := dt + d in
  if (0 <=? t) && (t <? datetime_max) then Some t else None.

(** [dt.replace(hour=h, minute=mi, second=0, microsecond=0)]; [None] when
    it raises [ValueError]. *)
Definition replace_time (dt h mi : Z) : option Z :=
  if (0 <=? h) && (h <=? 23) && (0 <=? mi) && (mi <=? 59)
  then Some (dt - dt `mod` day_ms + h * 3600000 + mi * 60000)
  else None.

(** [s.endswith(c)] for one character. *)
Fixpoint endswith (c : ascii) (s : string) : bool :=
  match s with
  | EmptyString => false
  | String c' EmptyString => bool_decide (c' = c)
  | String _ s' => endswith c s'
  end.

(** [s[:-1]] *)
Fixpoint drop_last (s : string) : string :=
  match s with
  | EmptyString => EmptyString
  | String _ EmptyString => EmptyString
  | String c s' => String c (drop_last s')
  end.

(** [needle in s] *)
Fixpoint contains (needle s : string) : bool :=
  String.prefix needle s
  || match s with
     | EmptyString => false
     | String _ s' => contains needle s'
     end.

(** [s.replace(needle, '')] for a needle that is not empty: [skip] is the
    number of characters of an occurrence still to be dropped. *)
Fixpoint remove_all (needle : string) (skip : nat) (s : string) : string :=
  match s with
  | EmptyString => EmptyString
  | String c s' =>
      match skip with
      | S k => remove_all needle k s'
      | O =>
          if String.prefix needle s
          then remove_all needle (String.length needle - 1) s'
          else String c (remove_all needle 0 s')
      end
  end.

(** [s.split(':')] *)
Fixpoint split_colon (s : string) : list string :=
  match s with
  | EmptyString => [EmptyString]
  | String c s' =>
      if decide (c = ":"%char) then EmptyString :: split_colon s'
      else
        match split_colon s' with
        | w :: ws => String c w :: ws
        | [] => [String c EmptyString]
        end
  end.

(** [' '.join(args)] *)
Fixpoint join_spaces (args : list string) : string :=
  match args with
  | [] => EmptyString
  | [a] => a
  | a :: rest => a +:+ " " +:+ join_spaces rest
  end.

(** [hour, minute = map(int, s.split(':'))]; [None] when it raises. *)
Definition hour_minute (P : python) (s : string) : option (Z * Z) :=
  match split_colon s with
  | [h; mi] =>
      match int_of_str P h, int_of_str P mi with
      | Some hour, Some minute => Some (hour, minute)
      | _, _ => None
      end
  | _ => None
  end.

Inductive parsed :=
  | ParsedAt (dt : Z)
  | BadFormat          (* the [else] of line 689 *)
  | BadTime.           (* the [except] of line 692 *)

Definition parsed_of (o : option Z) : parsed :=
  match o with
  | Some dt => ParsedAt dt
  | None => BadTime
  end.

(** Lines 667-694, [now] being [datetime.now()]. *)
Definition parse_when (P : python) (now : Z) (time_str : string) : parsed :=
  if endswith "m" time_str then
    match int_of_str P (drop_last time_str) with
    | Some minutes => parsed_of (add_delta now (minutes * 60000))
    | None => BadTime
    end
  else if endswith "h" time_str then
    match int_of_str P (drop_last time_str) with
    | Some hours => parsed_of (add_delta now (hours * 3600000))
    | None => BadTime
    end
  else if contains "tomorrow" (str_lower P time_str) then
    let time_part :=
      str_strip P (remove_all "tomorrow" 0 (str_lower P time_str)) in
    if contains ":" time_part then
      match hour_minute P time_part with
      | Some (hour, minute) =>
          match add_delta now day_ms with
          | Some dt => parsed_of (replace_time dt hour minute)
          | None => BadTime
          end
      | None => BadTime
      end
    else parsed_of (add_delta now day_ms)
  else if contains ":" time_str then
    match hour_minute P time_str with
    | Some (hour, minute) =>
        match replace_time now hour minute with
        | Some dt =>
            if dt <? now then parsed_of (add_delta dt day_ms) else ParsedAt dt
        | None => BadTime
        end
    | None => BadTime
    end
  else BadFormat.

(** [handle_schedule] from its first line; [instant_of_local] is taken to
    return for every time [parse_when] gives. *)
Definition handle_schedule_command (P : python) (E : env) (admins : gset Z)
    (u : update) (st : state) : list answer * state :=
  if decide (u_user_id u ∈ admins) then
    match u_reply_to_message u with
    | None => say E u NeedsReply st
    | Some (chat_id, message_id) =>
        match u_args u with
        | [] => say E u Usage st
        | args =>
            let time_str := join_spaces args in
            let now := local_of_instant P (clock st) in
            match parse_when P now time_str with
            | BadFormat => say E u InvalidFormat st
            | BadTime => say E u InvalidTime st
            | ParsedAt dt =>
                let st1 :=
                  handle_schedule E chat_id message_id (instant_of_local P dt)
                                  (u_user_id u) st in
                say E u (Scheduled dt) st1
            end
        end
    end
  else say E u Unauthorized st.

(** ** The handlers together *)

(** A handler called with an update. *)
Inductive call :=
  | OnAddChannel (u : update)
  | OnRemoveChannel (u : update)
  | OnStatus (u : update)
  | OnStats (u : update)
  | OnAnalytics (u : update)
  | OnSchedule (u : update)
  | OnMessage (u : update).

Definition call_update (c : call) : update :=
  match c with
  | OnAddChannel u | OnRemoveChannel u | OnStatus u | OnStats u
  | OnAnalytics u | OnSchedule u | OnMessage u => u
  end.

Definition serve (P : python) (E : env) (C : config) (admins : gset Z)
    (c : call) (st : state) : list answer * state :=
  match c with
  | OnAddChannel u => handle_addchannel P E admins u st
  | OnRemoveChannel u => handle_removechannel P E admins u st
  | OnStatus u => handle_status E admins u st
  | OnStats u => handle_stats E admins u st
  | OnAnalytics u => handle_analytics E admins u st
  | OnSchedule u => handle_schedule_command P E admins u st
  | OnMessage u => handle_message E C admins u st
  end.

(** The calls of a list served one after the other. *)
Definition serve_all (P : python) (E : env) (C : config) (admins : gset Z)
    (cs : list call) (st : state) : state :=
  foldl (λ s c, snd (serve P E C admins c s)) st cs.

(** ** A concrete [python] and concrete updates *)

Definition ascii_is_digit (c : ascii) : bool :=
  let n := nat_of_ascii c in (48 <=? n)%nat && (n <=? 57)%nat.

Fixpoint all_digits (s : string) : bool :=
  match s with
  | EmptyString => true
  | String c s' => ascii_is_digit c && all_digits s'
  end.

Fixpoint digits_value (acc : Z) (s : string) : Z :=
  match s with
  | EmptyString => acc
  | String c s' => digits_value (10 * acc + Z.of_nat (nat_of_ascii c - 48)) s'
  end.

(** A [python] for the strings used in the instances below: lower-case
    ASCII letters, digits, [':'] and a leading ['-'], with no blank, no
    ['+'] and no ['_'] (on other strings [lower], [strip] and [int] of
    Python do more than these functions), in a process whose local time
    is UTC (day 719163 of the calendar is the first of January 1970). *)
Definition ascii_python : python :=
  Python
    (λ s, match s with EmptyString => false | _ => all_digits s end)
    (λ s, s)
    (λ s, s)
    (λ s, match s with
          | EmptyString => None
          | String c s' =>
              if decide (c = "-"%char) then
                match s' with
                | EmptyString => None
                | _ => if all_digits s' then Some (- digits_value 0 s') else None
                end
              else if all_digits s then Some (digits_value 0 s) else None
          end)
    (λ t, t + 719162 * day_ms)
    (λ t, t - 719162 * day_ms).

(** An update sent by user 7, an administrator, with arguments [args]. *)
Definition admin_update (args : list string) : update :=
  Update 7 7 100 None None (Some (7, 99)) args.

Definition the_admins : gset Z := {[ 7 ]}.

(** [channel_stats.get(k, zeros)] *)
Definition stat_of (k : string) (d : list (string * channel_stat)) : channel_stat :=
  default zero_stat (dict_get k d).

(** What the handler of a call from a stranger may leave behind: one
    reply. *)
Definition same_data (st st' : state) : Prop :=
  posts_file st' = posts_file st
  ∧ last_sent_times st' = last_sent_times st
  ∧ forbidden_counts st' = forbidden_counts st.

(** The count of one result. *)
Definition one (b : bool) : nat := if b then 1%nat else 0%nat.

(** One more result for a channel. *)
Definition bump (r : result) (s : channel_stat) : channel_stat :=
  ChannelStat (cs_success s + one (bool_decide (r_status r = "ok")))
              (cs_failed s + one (bool_decide (r_status r ≠ "ok")))
              (S (cs_total s)).

(** Every [pending] entry has a [send_at] that parses. *)
Definition parseable (E : env) (ob : list outbox_entry) : Prop :=
  Forall (λ e, e_status e = Some "pending" → is_Some (parse_send_at E e)) ob.

(** The other coroutines only append entries to the outbox, and those
    that are [pending] have a [send_at] that parses. *)
Definition appends_readable (E : env) : Prop :=
  ∀ n l, ∃ es, other_outbox E n l = l ++ es ∧ parseable E es.

(** [paced d a b]: the call [b] is not earlier than the call [a], and at
    least [d] later when it goes to another channel. *)
Definition paced (d : Z) (a b : attempt) : Prop :=
  a_time a ≤ a_time b
  ∧ (a_channel a ≠ a_channel b → a_time a + d ≤ a_time b).

(** * Properties *)

(** ** The scenarios of the specification, run on the model *)

(** Registering twice, and removing a channel that is not there. *)
Example add_channel_twice :
  let '(first, st1) := add_channel "X" (fresh_state [] []) in
  let '(second, st2) := add_channel "X" st1 in
  (first, second, channels_file st2) = (true, false, ["X"])
  ∧ fst (remove_channel "Y" st2) = false.
Proof. vm_compute. done. Qed.

(** Registry [["A"; "B"]], every call succeeds. *)
Example broadcast_all_ok :
  let st' := snd (broadcast_copy (quiet_env always_ok) default_config 1 2 (Some 7)
                                 (fresh_state ["A"; "B"] [])) in
  map p_results (posts_file st')
  = [[Result "A" "ok" None; Result "B" "ok" None]]
  ∧ map a_channel (trace st') = ["A"; "B"].
Proof. vm_compute. done. Qed.

(** Two transient errors, then success, three attempts allowed. *)
Example broadcast_third_attempt_ok :
  let st' := snd (broadcast_copy (quiet_env two_errors_then_ok) default_config 1 2
                                 (Some 7) (fresh_state ["A"] [])) in
  map p_results (posts_file st') = [[Result "A" "ok" None]]
  ∧ length (trace st') = 3%nat.
Proof. vm_compute. done. Qed.

(** The third rejection of a channel, on a first attempt: the channel is
    removed and [forbidden] alone is recorded. *)
Example broadcast_forbidden_on_first_attempt :
  let st' := snd (broadcast_copy (quiet_env always_forbidden) default_config 1 2
                                 (Some 7)
                                 (set_channels_file ["A"] twice_rejected)) in
  map p_results (posts_file st') = [[Result "A" "forbidden" None]]
  ∧ channels_file st' = []
  ∧ length (trace st') = 1%nat.
Proof. vm_compute. done. Qed.

(** The registry file is emptied during the broadcast: the channels
    loaded at its start are sent to all the same. *)
Example broadcast_ignores_removals :
  let st' := snd (broadcast_copy (meddling_env always_ok) default_config 1 2
                                 (Some 7) (fresh_state ["A"; "B"; "C"] [])) in
  map a_channel (trace st') = ["A"; "B"; "C"]
  ∧ channels_file st' = [].
Proof. vm_compute. done. Qed.

(** An entry scheduled in the past is sent by the next sweep. *)
Example sweep_sends_due_entry :
  let E := quiet_env always_ok in
  let st := handle_schedule E 1 2 1704067200000 7 (fresh_state ["A"] []) in
  let st' := outbox_iteration E default_config st in
  map e_status (outbox_file st) = [Some "pending"]
  ∧ (map e_status ∘ fst <$> sweep_promote E st) = Some [Some "sending"]
  ∧ map e_status (outbox_file st') = [Some "sent"]
  ∧ map a_channel (trace st') = ["A"].
Proof. vm_compute. done. Qed.

(** An entry of an unknown kind gets [unknown_type], and the entry after
    it is sent in the same sweep. *)
Example sweep_passes_unknown_kind :
  let st' := outbox_iteration (quiet_env always_ok) default_config
                              (fresh_state ["A"] [unknown_kind_entry; due_entry]) in
  map e_status (outbox_file st') = [Some "unknown_type"; Some "sent"]
  ∧ map a_channel (trace st') = ["A"].
Proof. vm_compute. done. Qed.


(** ** What one transport call and one sleep change *)

Lemma suspend_frame E d st :
  posts_file (suspend E d st) = posts_file st
  ∧ last_sent_times (suspend E d st) = last_sent_times st
  ∧ forbidden_counts (suspend E d st) = forbidden_counts st
  ∧ trace (suspend E d st) = trace st
  ∧ clock (suspend E d st) = clock st + d.
Proof. by repeat split. Qed.

Lemma sleep_clock E d st : clock st ≤ clock (sleep E d st).
Proof. unfold sleep; simpl; lia. Qed.

Lemma call_transport_trace E ch st :
  trace (snd (call_transport E ch st))
  = trace st ++ [Attempt ch (clock st) (transport E (steps st) ch)].
Proof. reflexivity. Qed.

Lemma call_transport_clock E ch st :
  clock st ≤ clock (snd (call_transport E ch st)).
Proof. simpl; lia. Qed.

(** ** One iteration of the retry loop *)

(** Splits a goal about [send_attempt] into the paths through its body:
    the call returns, it is rejected with or without removal of the
    channel (present or not in the registry), it fails otherwise. *)
Ltac open_send_attempt E C ch st :=
  unfold send_attempt, call_transport, remove_channel, write_log;
  destruct (transport E (steps st) ch) as [|? ?]; simpl;
  repeat case_decide;
  repeat (destruct (REMOVE_ON_FORBIDDEN C && _); simpl);
  repeat case_decide.

(** The fields an iteration leaves alone, its entry in the trace, and the
    clock. *)
Lemma send_attempt_frame E C ch lv st ctl lv' st' :
  send_attempt E C ch lv st = (ctl, lv', st') →
  posts_file st' = posts_file st
  ∧ last_sent_times st' = last_sent_times st
  ∧ clock st ≤ clock st'
  ∧ trace st' = trace st ++ [Attempt ch (clock st) (transport E (steps st) ch)].
Proof.
  open_send_attempt E C ch st; intros [= <- <- <-]; simpl; repeat split; lia.
Qed.

(** The local variables after an iteration. *)
Lemma send_attempt_locals E C ch lv st ctl lv' st' :
  send_attempt E C ch lv st = (ctl, lv', st') →
  (ctl = Break ∧ success lv' = true ∧ attempt_no lv' = attempt_no lv
   ∧ results lv' = results lv ++ [Result ch "ok" None])
  ∨ (ctl = Break ∧ success lv' = false ∧ attempt_no lv' = attempt_no lv + 1
     ∧ results lv' = results lv ++ [Result ch "forbidden" None])
  ∨ (ctl = Continue ∧ success lv' = success lv
     ∧ attempt_no lv' = attempt_no lv + 1 ∧ results lv' = results lv).
Proof.
  open_send_attempt E C ch st; intros [= <- <- <-]; simpl; auto 10.
Qed.

(** ** The retry loop *)

(** The loop never runs out of fuel: with [SEND_RETRY_COUNT - attempt]
    iterations available, more fuel changes nothing. *)
Lemma send_loop_fuel E C ch fuel fuel' lv st :
  (Z.to_nat (SEND_RETRY_COUNT C - attempt_no lv) ≤ fuel)%nat →
  (Z.to_nat (SEND_RETRY_COUNT C - attempt_no lv) ≤ fuel')%nat →
  send_loop E C ch fuel lv st = send_loop E C ch fuel' lv st.
Proof.
  revert fuel' lv st.
  induction fuel as [|fuel IH]; intros fuel' lv st Hf Hf'.
  - destruct fuel'; simpl; destruct (Z.ltb_spec (attempt_no lv) (SEND_RETRY_COUNT C)) as [Hlt|Hge];
      try done; lia.
  - destruct fuel' as [|fuel'].
    + simpl. destruct (Z.ltb_spec (attempt_no lv) (SEND_RETRY_COUNT C)) as [Hlt|Hge]; [lia | done].
    + simpl. destruct (Z.ltb_spec (attempt_no lv) (SEND_RETRY_COUNT C)) as [Hlt|Hge]; [|done].
      destruct (send_attempt E C ch lv st) as [[[|] lv1] st1] eqn:Hs; [done|].
      destruct (send_attempt_locals _ _ _ _ _ _ _ _ Hs) as [H|[H|H]];
        try (destruct H as [? _]; discriminate).
      destruct H as (_ & _ & Ha & _).
      apply IH; lia.
Qed.

(** The fields the loop leaves alone, the clock, and the calls it makes:
    all of them to [ch], none before the loop starts, at most one per unit
    of fuel, and at least one when the loop condition holds on entry. *)
Lemma send_loop_frame E C ch fuel lv st lv' st' :
  send_loop E C ch fuel lv st = (lv', st') →
  posts_file st' = posts_file st
  ∧ last_sent_times st' = last_sent_times st
  ∧ clock st ≤ clock st'
  ∧ ∃ tr, trace st' = trace st ++ tr
      ∧ Forall (λ a, a_channel a = ch ∧ clock st ≤ a_time a) tr
      ∧ (length tr ≤ fuel)%nat
      ∧ (attempt_no lv < SEND_RETRY_COUNT C → (0 < fuel)%nat → (1 ≤ length tr)%nat).
Proof.
  revert lv st.
  induction fuel as [|fuel IH]; intros lv st; simpl.
  - destruct (attempt_no lv <? SEND_RETRY_COUNT C); intros [= <- <-];
      (repeat split; try lia; exists []; rewrite app_nil_r;
       repeat split; [constructor | simpl; lia | lia]).
  - destruct (Z.ltb_spec (attempt_no lv) (SEND_RETRY_COUNT C)) as [Hlt|Hge].
    2:{ intros [= <- <-]. repeat split; try lia. exists []. rewrite app_nil_r.
        repeat split; [constructor | simpl; lia | lia]. }
    destruct (send_attempt E C ch lv st) as [[ctl lv1] st1] eqn:Hs.
    destruct (send_attempt_frame _ _ _ _ _ _ _ _ Hs) as (Hp & Hl & Hc & Ht).
    destruct ctl.
    + intros [= <- <-]. repeat split; try done.
      eexists; split; [exact Ht|]. repeat split; simpl; try lia.
      by repeat constructor.
    + intros Hloop. destruct (IH _ _ Hloop) as (Hp' & Hl' & Hc' & tr & Ht' & Hall & Hlen & _).
      repeat split; try congruence; try lia.
      exists (Attempt ch (clock st) (transport E (steps st) ch) :: tr).
      repeat split.
      * rewrite Ht', Ht, <- app_assoc. reflexivity.
      * constructor; [simpl; split; [done | lia]|].
        eapply Forall_impl; [exact Hall|]. simpl. intros a [? ?]. split; [done | lia].
      * simpl. lia.
      * simpl. lia.
Qed.

(** How the loop ends when it starts with enough fuel and [success] false:
    with one [ok], with one [forbidden], or with nothing recorded and the
    attempts used up. *)
Lemma send_loop_results E C ch fuel lv st lv' st' :
  (Z.to_nat (SEND_RETRY_COUNT C - attempt_no lv) ≤ fuel)%nat →
  success lv = false →
  send_loop E C ch fuel lv st = (lv', st') →
  (success lv' = true ∧ results lv' = results lv ++ [Result ch "ok" None])
  ∨ (success lv' = false ∧ attempt_no lv < attempt_no lv'
     ∧ attempt_no lv' ≤ SEND_RETRY_COUNT C
     ∧ results lv' = results lv ++ [Result ch "forbidden" None])
  ∨ (success lv' = false ∧ SEND_RETRY_COUNT C ≤ attempt_no lv'
     ∧ results lv' = results lv).
Proof.
  revert lv st.
  induction fuel as [|fuel IH]; intros lv st Hfuel Hsucc; simpl.
  - destruct (Z.ltb_spec (attempt_no lv) (SEND_RETRY_COUNT C)) as [Hlt|Hge]; [lia|].
    intros [= <- <-]. right; right. repeat split; [done | lia].
  - destruct (Z.ltb_spec (attempt_no lv) (SEND_RETRY_COUNT C)) as [Hlt|Hge].
    2:{ intros [= <- <-]. right; right. repeat split; [done | lia]. }
    destruct (send_attempt E C ch lv st) as [[ctl lv1] st1] eqn:Hs.
    destruct (send_attempt_locals _ _ _ _ _ _ _ _ Hs)
      as [(-> & Hs1 & Ha & Hr)|[(-> & Hs1 & Ha & Hr)|(-> & Hs1 & Ha & Hr)]].
    + intros [= <- <-]. by left.
    + intros [= <- <-]. right; left. repeat split; [done | lia | lia | done].
    + intros Hloop. apply IH in Hloop; [|lia|congruence].
      destruct Hloop as [(? & ?)|[(? & ? & ? & ?)|(? & ? & ?)]].
      * left. split; congruence.
      * right; left. repeat split; [done | lia | lia | congruence].
      * right; right. repeat split; [done | lia | congruence].
Qed.

(** ** One channel of the [for] loop *)

Lemma cooldown_wait_frame E C ch st :
  posts_file (cooldown_wait E C ch st) = posts_file st
  ∧ last_sent_times (cooldown_wait E C ch st) = last_sent_times st
  ∧ forbidden_counts (cooldown_wait E C ch st) = forbidden_counts st
  ∧ trace (cooldown_wait E C ch st) = trace st
  ∧ clock st ≤ clock (cooldown_wait E C ch st).
Proof.
  unfold cooldown_wait.
  destruct (last_sent_times st !! ch) as [t|]; [|repeat split; lia].
  case_decide; [repeat split; lia|].
  destruct (_ <? _); simpl; repeat split; lia.
Qed.

Lemma send_to_channel_frame E C ch res st res' st' :
  send_to_channel E C ch res st = (res', st') →
  posts_file st' = posts_file st
  ∧ clock st ≤ clock st'
  ∧ ∃ tr, trace st' = trace st ++ tr
      ∧ Forall (λ a, a_channel a = ch ∧ clock st ≤ a_time a) tr
      ∧ (length tr ≤ Z.to_nat (SEND_RETRY_COUNT C))%nat
      ∧ (0 < SEND_RETRY_COUNT C → (1 ≤ length tr)%nat).
Proof.
  unfold send_to_channel.
  destruct (cooldown_wait_frame E C ch st) as (Hp & Hl & Hf & Ht & Hc).
  destruct (send_loop _ _ _ _ _ _) as [lv st2] eqn:Hloop.
  destruct (send_loop_frame _ _ _ _ _ _ _ _ Hloop)
    as (Hp' & Hl' & Hc' & tr & Ht' & Hall & Hlen & Hone).
  intros [= <- <-]; simpl.
  repeat split; try congruence; try lia.
  exists tr. repeat split; try congruence; try done.
  - eapply Forall_impl; [exact Hall|]. simpl. intros a [? ?]. split; [done | lia].
  - intros Hpos. apply Hone; simpl; lia.
Qed.

(** Each channel gets one outcome, or two: [forbidden] followed by
    [failed] when the auto-removal happens on the last attempt allowed. *)
Lemma send_to_channel_results E C ch res st res' st' :
  send_to_channel E C ch res st = (res', st') →
  ∃ rs, res' = res ++ rs
    ∧ (1 ≤ length rs ≤ 2)%nat
    ∧ Forall (λ r, r_channel r = ch ∧ r_status r ∈ outcome_names) rs.
Proof.
  unfold send_to_channel.
  destruct (send_loop _ _ _ _ _ _) as [lv st2] eqn:Hloop.
  apply send_loop_results in Hloop; [|simpl; lia|done].
  simpl in Hloop. intros [= <- <-].
  unfold outcome_names.
  destruct Hloop as [(-> & ->)|[(-> & _ & _ & ->)|(-> & Hge & ->)]]; simpl.
  - exists [Result ch "ok" None]. repeat split; simpl; try lia.
    repeat constructor.
  - destruct (_ <=? _).
    + exists [Result ch "forbidden" None; Result ch "failed" None].
      rewrite <- app_assoc. repeat split; simpl; try lia.
      repeat constructor.
    + exists [Result ch "forbidden" None]. repeat split; simpl; try lia.
      repeat constructor.
  - destruct (Z.leb_spec (SEND_RETRY_COUNT C) (attempt_no lv)); [|lia].
    exists [Result ch "failed" None]. repeat split; simpl; try lia.
    repeat constructor.
Qed.

(** ** The [for] loop *)

Lemma map_const_replicate {A B} (f : A → B) (b : B) (l : list A) :
  Forall (λ a, f a = b) l → map f l = replicate (length l) b.
Proof. induction 1 as [|a l Ha _ IH]; simpl; [done | by rewrite Ha, IH]. Qed.

Lemma for_channels_frame E C channels res st res' st' :
  for_channels E C channels res st = (res', st') →
  posts_file st' = posts_file st
  ∧ clock st ≤ clock st'.
Proof.
  revert res st. induction channels as [|ch rest IH]; intros res st; simpl.
  - intros [= <- <-]. repeat split; lia.
  - destruct (send_to_channel E C ch res st) as [res1 st1] eqn:H1.
    destruct (send_to_channel_frame _ _ _ _ _ _ _ H1) as (Hp & Hc & _).
    intros H2. destruct (IH _ _ H2) as (Hp' & Hc').
    repeat split; try congruence; lia.
Qed.

(** The sends of the loop, channel by channel: the [i]-th channel of the
    list receives [ks !! i] consecutive calls. *)
Lemma for_channels_trace E C channels res st res' st' :
  for_channels E C channels res st = (res', st') →
  ∃ tr ks, trace st' = trace st ++ tr
    ∧ length ks = length channels
    ∧ Forall (λ k, (k ≤ Z.to_nat (SEND_RETRY_COUNT C))%nat
                   ∧ (0 < SEND_RETRY_COUNT C → (1 ≤ k)%nat)) ks
    ∧ map a_channel tr = concat (zip_with replicate ks channels).
Proof.
  revert res st. induction channels as [|ch rest IH]; intros res st; simpl.
  - intros [= <- <-]. exists [], []. rewrite app_nil_r. by repeat split.
  - destruct (send_to_channel E C ch res st) as [res1 st1] eqn:H1.
    destruct (send_to_channel_frame _ _ _ _ _ _ _ H1)
      as (_ & _ & tr1 & Ht1 & Hall & Hlen & Hone).
    intros H2. destruct (IH _ _ H2) as (tr2 & ks & Ht2 & Hks & Hall2 & Hmap).
    exists (tr1 ++ tr2), (length tr1 :: ks). repeat split.
    + rewrite Ht2, Ht1, <- app_assoc. reflexivity.
    + simpl. by rewrite Hks.
    + constructor; [split; [done | exact Hone]|done].
    + rewrite map_app, Hmap. simpl. f_equal.
      apply map_const_replicate.
      eapply Forall_impl; [exact Hall|]. by intros a [? _].
Qed.

(** The outcomes of the loop, channel by channel. *)
Lemma for_channels_results E C channels res st res' st' :
  for_channels E C channels res st = (res', st') →
  ∃ rs ms, res' = res ++ rs
    ∧ length ms = length channels
    ∧ Forall (λ m, (1 ≤ m ≤ 2)%nat) ms
    ∧ map r_channel rs = concat (zip_with replicate ms channels)
    ∧ Forall (λ r, r_status r ∈ outcome_names) rs.
Proof.
  revert res st. induction channels as [|ch rest IH]; intros res st; simpl.
  - intros [= <- <-]. exists [], []. rewrite app_nil_r. by repeat split.
  - destruct (send_to_channel E C ch res st) as [res1 st1] eqn:H1.
    destruct (send_to_channel_results _ _ _ _ _ _ _ H1) as (rs1 & -> & Hlen & Hall).
    intros H2. destruct (IH _ _ H2) as (rs2 & ms & -> & Hms & Hall2 & Hmap & Hst).
    exists (rs1 ++ rs2), (length rs1 :: ms). repeat split.
    + by rewrite <- app_assoc.
    + simpl. by rewrite Hms.
    + by constructor.
    + rewrite map_app, Hmap. simpl. f_equal.
      apply map_const_replicate.
      eapply Forall_impl; [exact Hall|]. by intros a [? _].
    + apply Forall_app. split; [|done].
      eapply Forall_impl; [exact Hall|]. by intros a [_ ?].
Qed.

(** ** The broadcast as a whole *)

(** C1, as amended.  A broadcast over a non-empty registry appends exactly
    one entry to the ledger, after the entries already there; a broadcast
    over an empty registry only calls the disabled [write_log] and leaves
    the ledger as it was. *)
Theorem broadcast_copy_ledger E C from_chat_id message_id origin st :
  let st' := snd (broadcast_copy E C from_chat_id message_id origin st) in
  let loop := for_channels E C (channels_file st) [] st in
  match channels_file st with
  | [] => posts_file st' = posts_file st
  | _ :: _ =>
      posts_file st'
      = posts_file st ++ [Post "broadcast" from_chat_id message_id (fst loop)
                               origin (clock (snd loop))]
  end.
Proof.
  unfold broadcast_copy.
  destruct (channels_file st) as [|ch rest] eqn:Hch; [done|].
  destruct (for_channels E C (ch :: rest) [] st) as [res st1] eqn:Hfor.
  destruct (for_channels_frame _ _ _ _ _ _ _ Hfor) as (Hp & _).
  simpl. by rewrite Hp.
Qed.

(** C1, counterexample: with an empty registry no entry is appended. *)
Lemma broadcast_copy_empty_registry_no_entry :
  ¬ ∃ p, posts_file (snd (broadcast_copy (quiet_env always_ok) default_config 1 2
                                         (Some 7) (fresh_state [] [])))
         = posts_file (fresh_state [] []) ++ [p].
Proof. intros [p Hp]. vm_compute in Hp. discriminate. Qed.

(** C6, as amended.  The coroutine returns [None] whatever the registry
    holds; the outcome records only go into the ledger entry. *)
Theorem broadcast_copy_returns_none E C from_chat_id message_id origin st :
  fst (broadcast_copy E C from_chat_id message_id origin st) = None
  ∧ match channels_file st with
    | [] => True
    | _ :: _ =>
        p_results <$> last (posts_file
                              (snd (broadcast_copy E C from_chat_id message_id origin st)))
        = Some (fst (for_channels E C (channels_file st) [] st))
    end.
Proof.
  unfold broadcast_copy.
  destruct (channels_file st) as [|ch rest] eqn:Hch; [done|].
  destruct (for_channels E C (ch :: rest) [] st) as [res st1] eqn:Hfor.
  simpl. split; [done|]. by rewrite last_snoc.
Qed.

(** C6, counterexample: with an empty registry the value returned is
    [None], not the empty list. *)
Lemma broadcast_copy_empty_registry_returns_none :
  fst (broadcast_copy (quiet_env always_ok) default_config 1 2 (Some 7)
                      (fresh_state [] []))
  ≠ Some [].
Proof. vm_compute. discriminate. Qed.

(** C10.  The transport calls of a broadcast go to the channels of the
    list loaded at its start, in the order of that list, each channel
    receiving its calls consecutively: at most [SEND_RETRY_COUNT] of
    them, and at least one when [SEND_RETRY_COUNT] is positive.  The same
    holds of the outcomes recorded (one or two per channel).  This is so
    for every environment, that is, whatever the broadcast itself and
    the other coroutines do to the registry file in the meantime. *)
Theorem broadcast_copy_attempts_snapshot E C from_chat_id message_id origin st :
  let snapshot := channels_file st in
  let st' := snd (broadcast_copy E C from_chat_id message_id origin st) in
  (∃ tr ks, trace st' = trace st ++ tr
     ∧ length ks = length snapshot
     ∧ Forall (λ k, (k ≤ Z.to_nat (SEND_RETRY_COUNT C))%nat
                    ∧ (0 < SEND_RETRY_COUNT C → (1 ≤ k)%nat)) ks
     ∧ map a_channel tr = concat (zip_with replicate ks snapshot))
  ∧ (∃ ms, length ms = length snapshot
       ∧ Forall (λ m, (1 ≤ m ≤ 2)%nat) ms
       ∧ map r_channel (fst (for_channels E C snapshot [] st))
         = concat (zip_with replicate ms snapshot)).
Proof.
  unfold broadcast_copy.
  destruct (channels_file st) as [|ch rest] eqn:Hch.
  - simpl. split.
    + exists [], []. rewrite app_nil_r. by repeat split.
    + by exists [].
  - destruct (for_channels E C (ch :: rest) [] st) as [res st1] eqn:Hfor.
    split.
    + destruct (for_channels_trace _ _ _ _ _ _ _ Hfor) as (tr & ks & Ht & Hk & Hall & Hmap).
      exists tr, ks. by repeat split.
    + destruct (for_channels_results _ _ _ _ _ _ _ Hfor) as (rs & ms & Hrs & Hm & Hall & Hmap & _).
      exists ms. simpl in Hrs. subst res. by repeat split.
Qed.

(** C2, the failing input.  Registry [["A"]], three attempts allowed,
    threshold three, every call rejected as [Forbidden]: the third
    rejection removes the channel and records [forbidden], and since the
    attempts are then used up as well, line 288 records [failed] too. *)
Theorem broadcast_copy_forbidden_and_failed :
  let st' := snd (broadcast_copy (quiet_env always_forbidden) default_config 1 2
                                 (Some 7) (fresh_state ["A"] [])) in
  map p_results (posts_file st')
  = [[Result "A" "forbidden" None; Result "A" "failed" None]]
  ∧ length (trace st') = 3%nat
  ∧ forbidden_counts st' !! "A" = Some 3
  ∧ channels_file st' = [].
Proof. vm_compute. done. Qed.

(** ** The rejection counters *)

Lemma send_attempt_ok_counts E C ch lv st :
  transport E (steps st) ch = Returns →
  forbidden_counts (snd (send_attempt E C ch lv st)) = forbidden_counts st.
Proof. unfold send_attempt, call_transport. by intros ->. Qed.

(** The broadcast when the transport never fails. *)
Section AllSucceed.

Context (E : env) (C : config).
Hypothesis all_ok : ∀ n ch, transport E n ch = Returns.

Lemma send_loop_ok_counts ch fuel lv st :
  forbidden_counts (snd (send_loop E C ch fuel lv st)) = forbidden_counts st.
Proof.
  destruct fuel as [|fuel]; simpl.
  - by destruct (_ <? _).
  - destruct (_ <? _); [|done].
    pose proof (send_attempt_ok_counts E C ch lv st (all_ok _ _)) as Hc.
    unfold send_attempt, call_transport in *. rewrite all_ok in *. exact Hc.
Qed.

Lemma send_to_channel_ok_counts ch res st :
  forbidden_counts (snd (send_to_channel E C ch res st)) = forbidden_counts st.
Proof.
  unfold send_to_channel.
  pose proof (send_loop_ok_counts ch (Z.to_nat (SEND_RETRY_COUNT C))
                (Locals 0 false res) (cooldown_wait E C ch st)) as Hc.
  destruct (send_loop _ _ _ _ _ _) as [lv st2]. simpl in *.
  rewrite Hc. apply cooldown_wait_frame.
Qed.

Lemma for_channels_ok_counts channels res st :
  forbidden_counts (snd (for_channels E C channels res st)) = forbidden_counts st.
Proof.
  revert res st.
  induction channels as [|ch rest IH]; intros res st; simpl; [done|].
  pose proof (send_to_channel_ok_counts ch res st) as Hc.
  destruct (send_to_channel E C ch res st) as [res1 st1]. simpl in Hc.
  by rewrite IH.
Qed.

(** C3, as amended.  A transport call that succeeds leaves the rejection
    counters as they are: nothing resets them.  So when every call
    succeeds, each channel's counter after the broadcast is the one it
    had before. *)
Theorem broadcast_copy_success_keeps_counters from_chat_id message_id origin st :
  (∀ ch lv st0, forbidden_counts (snd (send_attempt E C ch lv st0))
                = forbidden_counts st0)
  ∧ forbidden_counts (snd (broadcast_copy E C from_chat_id message_id origin st))
    = forbidden_counts st.
Proof.
  split.
  - intros ch lv st0. by apply send_attempt_ok_counts.
  - unfold broadcast_copy.
    destruct (channels_file st) as [|ch rest] eqn:Hch; [done|].
    pose proof (for_channels_ok_counts (ch :: rest) [] st) as Hc.
    by destruct (for_channels E C (ch :: rest) [] st) as [res st1].
Qed.

End AllSucceed.

(** An instance: channel ["A"] has been rejected twice before, both
    sends of the broadcast succeed, and its counter is still two. *)
Lemma broadcast_copy_success_keeps_counters_witness :
  forbidden_counts
    (snd (broadcast_copy (quiet_env always_ok) default_config 1 2 (Some 7)
                         twice_rejected)) !! "A" = Some 2.
Proof.
  destruct (broadcast_copy_success_keeps_counters
              (quiet_env always_ok) default_config (λ _ _, eq_refl)
              1 2 (Some 7) twice_rejected) as [_ ->].
  reflexivity.
Defined.

(** C3, counterexample: in a fresh process, channel ["A"] is rejected
    once and then accepts the retry; its counter is one afterwards. *)
Lemma broadcast_copy_counter_not_reset :
  let st' := snd (broadcast_copy (quiet_env forbidden_then_ok) default_config 1 2
                                 (Some 7) (fresh_state ["A"] [])) in
  a_outcome <$> last (trace st') = Some Returns
  ∧ map p_results (posts_file st') = [[Result "A" "ok" None]]
  ∧ forbidden_counts st' !! "A" ≠ Some 0
  ∧ forbidden_counts st' !! "A" ≠ None.
Proof. vm_compute. repeat split; discriminate. Qed.

(** [list.remove] of an element that is not there. *)
Lemma remove_first_notin x l : x ∉ l → remove_first x l = l.
Proof.
  induction l as [|y l IH]; simpl; [done|].
  intros Hx. apply not_elem_of_cons in Hx as [Hne Hx].
  case_decide; [done|]. by rewrite IH.
Qed.

(** C4, as amended.  A call rejected as [Forbidden] adds one to the
    channel's counter.  If auto-removal is enabled and the counter has
    reached the threshold, the channel is removed from the registry,
    [forbidden] is recorded and the loop makes no further call.
    Otherwise the rejection is treated like any other error: while
    attempts remain, the next call to the same channel follows after
    [SEND_RETRY_DELAY]. *)
Theorem send_loop_forbidden E C ch lv st msg :
  transport E (steps st) ch = Raises "Forbidden" msg →
  attempt_no lv < SEND_RETRY_COUNT C →
  let count := default 0 (forbidden_counts st !! ch) + 1 in
  let this := Attempt ch (clock st) (Raises "Forbidden" msg) in
  let after := send_attempt E C ch lv st in
  let final := send_loop E C ch (Z.to_nat (SEND_RETRY_COUNT C - attempt_no lv)) lv st in
  forbidden_counts (snd after) !! ch = Some count
  ∧ if REMOVE_ON_FORBIDDEN C && (FORBIDDEN_THRESHOLD C <=? count) then
      trace (snd final) = trace st ++ [this]
      ∧ results (fst final) = results lv ++ [Result ch "forbidden" None]
      ∧ channels_file (snd final)
        = remove_first ch (other_tasks E (steps st) (channels_file st))
    else
      ∃ tr, trace (snd final) = trace st ++ this :: tr
        ∧ (attempt_no lv + 1 < SEND_RETRY_COUNT C →
           ∃ a tr', tr = a :: tr' ∧ a_channel a = ch
             ∧ clock st + SEND_RETRY_DELAY C ≤ a_time a).
Proof.
  intros Htr Hlt count this after final.
  assert (Hfuel : ∃ fuel, Z.to_nat (SEND_RETRY_COUNT C - attempt_no lv) = S fuel
                          ∧ (attempt_no lv + 1 < SEND_RETRY_COUNT C → (0 < fuel)%nat)).
  { exists (Z.to_nat (SEND_RETRY_COUNT C - attempt_no lv - 1)). split; lia. }
  destruct Hfuel as (fuel & Hfuel & Hmore).
  subst final. rewrite Hfuel. simpl send_loop.
  destruct (Z.ltb_spec (attempt_no lv) (SEND_RETRY_COUNT C)) as [_|?]; [|lia].
  subst after. unfold send_attempt, call_transport. rewrite Htr.
  case_decide; [|done]. simpl forbidden_counts. fold count.
  destruct (REMOVE_ON_FORBIDDEN C && (FORBIDDEN_THRESHOLD C <=? count)) eqn:Hrm.
  - unfold remove_channel, write_log. simpl channels_file.
    case_decide as Hin; simpl.
    + rewrite lookup_insert_eq. by repeat split.
    + rewrite lookup_insert_eq. repeat split; try done.
      by rewrite remove_first_notin.
  - simpl. rewrite lookup_insert_eq. split; [done|].
    match goal with
    | |- context [send_loop E C ch fuel ?l ?s] =>
        destruct (send_loop E C ch fuel l s) as [lv' st'] eqn:Hloop
    end.
    destruct (send_loop_frame _ _ _ _ _ _ _ _ Hloop)
      as (_ & _ & _ & tr & Ht & Hall & _ & Hone).
    exists tr. simpl in *. split.
    + rewrite Ht, <- app_assoc. reflexivity.
    + intros Hnext. specialize (Hone Hnext (Hmore Hnext)).
      destruct tr as [|a tr']; [simpl in Hone; lia|].
      exists a, tr'. apply Forall_cons in Hall as [[Ha Hta] _].
      repeat split; [done|]. lia.
Qed.

(** An instance: the third rejection of ["A"], with the default
    threshold of three. *)
Lemma send_loop_forbidden_witness :
  trace (snd (send_loop (quiet_env always_forbidden) default_config "A" 3
                        (Locals 0 false []) twice_rejected))
  = [Attempt "A" 1710000000000
       (Raises "Forbidden" "Forbidden: bot was kicked from the channel chat")].
Proof.
  pose proof (send_loop_forbidden (quiet_env always_forbidden) default_config "A"
                (Locals 0 false []) twice_rejected _ eq_refl eq_refl) as [_ H].
  apply H.
Defined.

(** C4, counterexample: the first call to ["A"] is rejected as
    [Forbidden]; two seconds later the same broadcast calls ["A"]
    again. *)
Lemma broadcast_copy_retries_forbidden :
  trace (snd (broadcast_copy (quiet_env forbidden_then_ok) default_config 1 2
                             (Some 7) (fresh_state ["A"] [])))
  = [Attempt "A" 1710000000000
       (Raises "Forbidden" "Forbidden: bot was kicked from the channel chat");
     Attempt "A" 1710000002000 Returns].
Proof. vm_compute. reflexivity. Qed.

(** ** Pacing *)

Lemma cooldown_wait_enough E C ch st t :
  last_sent_times st !! ch = Some t → t ≠ 0 →
  t + PER_CHANNEL_COOLDOWN C ≤ clock (cooldown_wait E C ch st).
Proof.
  intros Ht Hnz. unfold cooldown_wait. rewrite Ht.
  case_decide; [done|].
  destruct (Z.ltb_spec (clock st - t) (PER_CHANNEL_COOLDOWN C)); simpl; lia.
Qed.

Lemma send_to_channel_last_sent E C ch res st ch' :
  ch ≠ ch' →
  last_sent_times (snd (send_to_channel E C ch res st)) !! ch'
  = last_sent_times st !! ch'.
Proof.
  intros Hne. unfold send_to_channel.
  destruct (send_loop _ _ _ _ _ _) as [lv st2] eqn:Hloop.
  destruct (send_loop_frame _ _ _ _ _ _ _ _ Hloop) as (_ & Hl & _).
  simpl. rewrite lookup_insert_ne by done. rewrite Hl.
  by destruct (cooldown_wait_frame E C ch st) as (_ & -> & _).
Qed.

(** The invariant of the [for] loop behind the cooldown: either the time
    [t] recorded for [ch] is still the one in [last_sent_times], or the
    clock has passed [t + PER_CHANNEL_COOLDOWN] already. *)
Lemma send_to_channel_cooldown E C ch' res st res' st' ch t :
  send_to_channel E C ch' res st = (res', st') →
  (last_sent_times st !! ch = Some t ∧ t ≠ 0)
    ∨ t + PER_CHANNEL_COOLDOWN C ≤ clock st →
  ((last_sent_times st' !! ch = Some t ∧ t ≠ 0)
     ∨ t + PER_CHANNEL_COOLDOWN C ≤ clock st')
  ∧ ∃ tr, trace st' = trace st ++ tr
      ∧ Forall (λ a, a_channel a = ch → t + PER_CHANNEL_COOLDOWN C ≤ a_time a) tr.
Proof.
  intros Hsend Hinv.
  pose proof (send_to_channel_last_sent E C ch' res st ch) as Hkeep.
  rewrite Hsend in Hkeep. simpl in Hkeep.
  destruct (send_to_channel_frame _ _ _ _ _ _ _ Hsend)
    as (_ & Hclock & tr & Ht & Hall & _).
  destruct (decide (ch' = ch)) as [->|Hne].
  - assert (Hready : t + PER_CHANNEL_COOLDOWN C ≤ clock (cooldown_wait E C ch st)).
    { destruct Hinv as [[Hl Hnz]|Hc]; [by apply cooldown_wait_enough|].
      destruct (cooldown_wait_frame E C ch st) as (_ & _ & _ & _ & Hm). lia. }
    revert Hsend. unfold send_to_channel.
    destruct (send_loop _ _ _ _ _ _) as [lv st2] eqn:Hloop.
    destruct (send_loop_frame _ _ _ _ _ _ _ _ Hloop)
      as (_ & _ & Hc2 & tr2 & Ht2 & Hall2 & _).
    destruct (cooldown_wait_frame E C ch st) as (_ & _ & _ & Htr0 & _).
    intros [= <- <-]. simpl. split; [right; lia|].
    exists tr2. split; [by rewrite Ht2, Htr0|].
    eapply Forall_impl; [exact Hall2|]. simpl. intros a [_ ?] _. lia.
  - split.
    + destruct Hinv as [[Hl Hnz]|Hc]; [left | right; lia].
      split; [|done]. by rewrite Hkeep.
    + exists tr. split; [done|].
      destruct Hinv as [[Hl Hnz]|Hc].
      * eapply Forall_impl; [exact Hall|]. simpl. intros a [Ha _] Hch. congruence.
      * eapply Forall_impl; [exact Hall|]. simpl. intros a [_ ?] _. lia.
Qed.

Lemma for_channels_cooldown E C channels res st res' st' ch t :
  for_channels E C channels res st = (res', st') →
  (last_sent_times st !! ch = Some t ∧ t ≠ 0)
    ∨ t + PER_CHANNEL_COOLDOWN C ≤ clock st →
  ∃ tr, trace st' = trace st ++ tr
    ∧ Forall (λ a, a_channel a = ch → t + PER_CHANNEL_COOLDOWN C ≤ a_time a) tr.
Proof.
  revert res st. induction channels as [|c rest IH]; intros res st; simpl.
  - intros [= <- <-] _. exists []. by rewrite app_nil_r.
  - destruct (send_to_channel E C c res st) as [res1 st1] eqn:H1.
    intros H2 Hinv.
    destruct (send_to_channel_cooldown _ _ _ _ _ _ _ _ _ H1 Hinv) as (Hinv1 & tr1 & Ht1 & Hall1).
    destruct (IH _ _ H2 Hinv1) as (tr2 & Ht2 & Hall2).
    exists (tr1 ++ tr2). split.
    + by rewrite Ht2, Ht1, <- app_assoc.
    + by apply Forall_app.
Qed.




(** ** The outbox: statuses *)

Lemma status_step_refl s : status_step s s.
Proof. by left. Qed.

Lemma status_step_trans s1 s2 s3 :
  status_step s1 s2 → status_step s2 s3 → status_step s1 s3.
Proof.
  unfold status_step, is_terminal.
  intros [->|[[-> H12]|[-> H12]]] H23; [done| |].
  - destruct H12 as [->|H12].
    + destruct H23 as [->|[[? _]|[_ H23]]]; [auto|discriminate|auto].
    + destruct H23 as [->|[[-> _]|[-> _]]]; [auto| |];
        destruct H12 as [?|[?|?]]; discriminate.
  - destruct H23 as [->|[[-> _]|[-> _]]]; [auto| |];
      destruct H12 as [?|[?|?]]; discriminate.
Qed.

(** No way back: a status reached by [status_step] is [pending] only if
    it was [pending], [sending] only if it was [pending] or [sending], and
    a status that is neither does not change any more. *)
Lemma status_step_no_return s s' :
  status_step s s' →
  (s' = Some "pending" → s = Some "pending")
  ∧ (s' = Some "sending" → s = Some "pending" ∨ s = Some "sending")
  ∧ (s ≠ Some "pending" → s ≠ Some "sending" → s' = s).
Proof.
  unfold status_step, is_terminal.
  intros [->|[[-> H]|[-> H]]]; repeat split; intros; try done; auto;
    destruct H as [?|[?|[?|?]]] || destruct H as [?|[?|?]]; congruence.
Qed.

Create HintDb outbox.
#[local] Hint Resolve status_step_refl : outbox.

(** The first loop of the sweep, when it raises no exception, treats
    each entry by [mark_entry]. *)
Lemma mark_due_map E now ob changed ob1 changed1 :
  mark_due E now ob changed = Some (ob1, changed1) →
  ob1 = map (mark_entry E now) ob.
Proof.
  revert changed ob1 changed1.
  induction ob as [|e ob IH]; intros changed ob1 changed1; simpl.
  - by intros [= <- <-].
  - unfold mark_entry at 1. case_decide as Hp.
    + destruct (parse_send_at E e) as [t|]; [|done].
      destruct (t <=? now).
      * destruct (mark_due E now ob true) as [[r c]|] eqn:Hr; [|done].
        intros [= <- <-]. f_equal. by eapply IH.
      * destruct (mark_due E now ob changed) as [[r c]|] eqn:Hr; [|done].
        intros [= <- <-]. f_equal. by eapply IH.
    + destruct (mark_due E now ob changed) as [[r c]|] eqn:Hr; [|done].
      intros [= <- <-]. f_equal. by eapply IH.
Qed.

Lemma mark_entry_step E now e :
  status_step (e_status e) (e_status (mark_entry E now e)).
Proof.
  unfold mark_entry. case_decide as Hp; [|auto with outbox].
  destruct (parse_send_at E e) as [t|]; [|auto with outbox].
  destruct (t <=? now); [|auto with outbox].
  right; left. auto.
Qed.

(** Whether the first loop raises does not depend on the clock nor on the
    flag: it raises when some [pending] entry has a [send_at] that does
    not parse. *)
Lemma mark_due_raises E now now' ob changed changed' :
  mark_due E now ob changed = None → mark_due E now' ob changed' = None.
Proof.
  revert changed changed'.
  induction ob as [|e ob IH]; intros changed changed'; simpl; [done|].
  case_decide as Hp.
  - destruct (parse_send_at E e) as [t|]; [|done].
    destruct (t <=? now), (t <=? now');
      match goal with
      | |- context [mark_due E now ob ?c] =>
          destruct (mark_due E now ob c) as [[r c1]|] eqn:Hr; [done|]
      end; intros _;
      match goal with
      | |- context [mark_due E now' ob ?c] => by rewrite (IH _ c Hr)
      end.
  - destruct (mark_due E now ob changed) as [[r c1]|] eqn:Hr; [done|].
    intros _. by rewrite (IH _ changed' Hr).
Qed.

(** The second loop of the sweep, entry by entry. *)
Lemma dispatch_entry_status E C e st :
  (e_status e = Some "sending"
   ∧ is_terminal (e_status (fst (dispatch_entry E C e st))))
  ∨ (e_status e ≠ Some "sending" ∧ fst (dispatch_entry E C e st) = e).
Proof.
  unfold dispatch_entry, is_terminal.
  case_decide as Hs; [left; split; [done|] | by right].
  case_decide.
  - destruct (e_from_chat_id e), (e_message_id e); simpl; auto.
    destruct (broadcast_copy _ _ _ _ _ _); simpl; auto.
  - case_decide; simpl; auto.
    destruct (file_sends _ _ _ _ _); simpl; auto.
Qed.

(** ** The outbox while the coroutine is suspended *)

(** A property of the outbox file and of its log that every suspension
    point keeps is kept by everything that does not save the file: the
    broadcast, the direct sends and the dispatch of an entry. *)
Section OutboxInvariant.

Context (E : env) (C : config)
        (P : list outbox_entry → list (list outbox_entry) → Prop).
Hypothesis P_suspend :
  ∀ n ob log, P ob log → P (other_outbox E n ob) (log ++ [other_outbox E n ob]).

Lemma suspend_outbox d st : on_outbox P st → on_outbox P (suspend E d st).
Proof. apply P_suspend. Qed.

Lemma sleep_outbox d st : on_outbox P st → on_outbox P (sleep E d st).
Proof. apply P_suspend. Qed.

Lemma call_transport_outbox ch st :
  on_outbox P st → on_outbox P (snd (call_transport E ch st)).
Proof. apply P_suspend. Qed.

Lemma cooldown_wait_outbox ch st :
  on_outbox P st → on_outbox P (cooldown_wait E C ch st).
Proof.
  intros H. unfold cooldown_wait.
  destruct (last_sent_times st !! ch) as [t|]; [|done].
  case_decide; [done|]. destruct (_ <? _); [by apply sleep_outbox | done].
Qed.

Lemma send_attempt_outbox ch lv st :
  on_outbox P st → on_outbox P (snd (send_attempt E C ch lv st)).
Proof.
  intros H. pose proof (call_transport_outbox ch st H) as H1. revert H1.
  unfold send_attempt.
  destruct (call_transport E ch st) as [[|name msg] st1]; simpl; [done|].
  intros H1. unfold write_log.
  case_decide.
  - destruct (REMOVE_ON_FORBIDDEN C && _).
    + unfold remove_channel, write_log. simpl. by case_decide.
    + simpl. by apply (sleep_outbox _ (set_forbidden_counts _ st1)).
  - simpl. by apply sleep_outbox.
Qed.

Lemma send_loop_outbox ch fuel lv st :
  on_outbox P st → on_outbox P (snd (send_loop E C ch fuel lv st)).
Proof.
  revert lv st. induction fuel as [|fuel IH]; intros lv st H; simpl.
  - by destruct (_ <? _).
  - destruct (_ <? _); [|done].
    pose proof (send_attempt_outbox ch lv st H) as H1.
    destruct (send_attempt E C ch lv st) as [[[] lv1] st1]; simpl in *; [done|].
    by apply IH.
Qed.

Lemma send_to_channel_outbox ch res st :
  on_outbox P st → on_outbox P (snd (send_to_channel E C ch res st)).
Proof.
  intros H. unfold send_to_channel.
  pose proof (send_loop_outbox ch (Z.to_nat (SEND_RETRY_COUNT C)) (Locals 0 false res)
                (cooldown_wait E C ch st) (cooldown_wait_outbox ch st H)) as H1.
  destruct (send_loop _ _ _ _ _ _) as [lv st2]. simpl in *.
  by apply (sleep_outbox _ (set_last_sent_times _ st2)).
Qed.

Lemma for_channels_outbox channels res st :
  on_outbox P st → on_outbox P (snd (for_channels E C channels res st)).
Proof.
  revert res st. induction channels as [|ch rest IH]; intros res st H; simpl; [done|].
  pose proof (send_to_channel_outbox ch res st H) as H1.
  destruct (send_to_channel E C ch res st) as [res1 st1]. by apply IH.
Qed.

Lemma broadcast_copy_outbox from_chat_id message_id origin st :
  on_outbox P st →
  on_outbox P (snd (broadcast_copy E C from_chat_id message_id origin st)).
Proof.
  intros H. unfold broadcast_copy.
  destruct (channels_file st) as [|c rest]; [done|].
  pose proof (for_channels_outbox (c :: rest) [] st H) as H1.
  by destruct (for_channels E C (c :: rest) [] st) as [res st1].
Qed.

Lemma file_sends_outbox e channels res st :
  on_outbox P st → on_outbox P (snd (file_sends E e channels res st)).
Proof.
  revert res st. induction channels as [|ch rest IH]; intros res st H; simpl; [done|].
  pose proof (call_transport_outbox ch st H) as H1.
  destruct (e_file_path e) as [fp|].
  - case_decide.
    + destruct (call_transport E ch st) as [[|? ?] st1]; by apply IH.
    + destruct (open_error E fp) as [msg|]; [by apply IH|].
      destruct (call_transport E ch st) as [[|? ?] st1]; by apply IH.
  - destruct (call_transport E ch st) as [[|? ?] st1]; by apply IH.
Qed.

Lemma dispatch_entry_outbox e st :
  on_outbox P st → on_outbox P (snd (dispatch_entry E C e st)).
Proof.
  intros HP. unfold dispatch_entry, write_log.
  case_decide; [|done]. case_decide.
  - destruct (e_from_chat_id e) as [c|], (e_message_id e) as [m|]; try done.
    pose proof (broadcast_copy_outbox c m (e_origin_admin e) st HP) as HP1.
    by destruct (broadcast_copy _ _ _ _ _ _).
  - case_decide; [|done].
    pose proof (file_sends_outbox e (channels_file st) [] st HP) as HP1.
    by destruct (file_sends _ _ _ _ _).
Qed.

End OutboxInvariant.

(** While no other coroutine writes the outbox, a broadcast and a reply
    leave the file as it is. *)
Lemma suspend_undisturbed E d st :
  outbox_undisturbed E → outbox_file (suspend E d st) = outbox_file st.
Proof. intros Hq. apply Hq. Qed.

Lemma broadcast_copy_undisturbed E C from_chat_id message_id origin st :
  outbox_undisturbed E →
  outbox_file (snd (broadcast_copy E C from_chat_id message_id origin st))
  = outbox_file st.
Proof.
  intros Hq.
  apply (broadcast_copy_outbox E C (λ ob _, ob = outbox_file st)); [|done].
  intros n ob log ->. apply Hq.
Qed.

(** ** The outbox: the two loops of a sweep *)

Lemma dispatch_all_entries E C ob st :
  Forall2 (λ e e', ∃ st0, e' = fst (dispatch_entry E C e st0))
          ob (fst (dispatch_all E C ob st)).
Proof.
  revert st. induction ob as [|e ob IH]; intros st; simpl; [constructor|].
  destruct (dispatch_entry E C e st) as [e1 st1] eqn:He.
  specialize (IH st1). destruct (dispatch_all E C ob st1) as [ob' st2].
  simpl in *. constructor; [|done].
  exists st. by rewrite He.
Qed.

(** What the part under the first lock leaves: the list with the due
    entries marked, and a state that differs from the first one by the
    save of line 764 at most. *)
Lemma sweep_promote_Some E st ob1 st1 :
  sweep_promote E st = Some (ob1, st1) →
  ob1 = map (mark_entry E (clock st)) (outbox_file st)
  ∧ (st1 = st ∨ st1 = set_outbox_file ob1 st).
Proof.
  unfold sweep_promote.
  destruct (mark_due E (clock st) (outbox_file st) false) as [[ob c]|] eqn:Hm; [|done].
  intros [= <- <-]. split; [by eapply mark_due_map|].
  destruct c; auto.
Qed.

(** One sweep, in terms of its two loops: the file as line 809 saves it
    is the list the second loop leaves. *)
Lemma outbox_try_file E C st ob1 st1 :
  sweep_promote E st = Some (ob1, st1) →
  outbox_file (outbox_try E C st) = fst (dispatch_all E C ob1 st1)
  ∧ trace (outbox_try E C st) = trace (snd (dispatch_all E C ob1 st1))
  ∧ posts_file (outbox_try E C st) = posts_file (snd (dispatch_all E C ob1 st1))
  ∧ channels_file (outbox_try E C st)
    = channels_file (snd (dispatch_all E C ob1 st1)).
Proof.
  intros Hp. unfold outbox_try. rewrite Hp.
  by destruct (dispatch_all E C ob1 st1) as [ob2 st2].
Qed.

Lemma outbox_try_raises E C st :
  sweep_promote E st = None → outbox_try E C st = st.
Proof. intros Hp. unfold outbox_try. by rewrite Hp. Qed.

(** ** The outbox: the order of its contents *)

Lemma status_le_refl ob : status_le ob ob.
Proof. intros i e He. rewrite He. apply status_step_refl. Qed.

Lemma StronglySorted_snoc {A} (R : A → A → Prop) l x :
  StronglySorted R l → Forall (λ y, R y x) l → StronglySorted R (l ++ [x]).
Proof.
  induction 1 as [|a l Hs IH Ha]; intros Hall; simpl.
  - repeat constructor.
  - apply Forall_cons in Hall as [Hax Hall].
    constructor; [by apply IH|]. apply Forall_app. split; [done|]. by constructor.
Qed.

Lemma StronglySorted_snoc_inv {A} (R : A → A → Prop) l x :
  StronglySorted R (l ++ [x]) → Forall (λ y, R y x) l.
Proof.
  induction l as [|a l IH]; simpl; intros Hs; [constructor|].
  inversion Hs as [|? ? Hs' Hall]; subst.
  apply Forall_app in Hall as [_ Hx]. apply Forall_cons in Hx as [Hx _].
  constructor; [done | by apply IH].
Qed.

Lemma settled_weaken F F' h : (F ≤ F')%nat → settled F h → settled F' h.
Proof.
  intros Hle [Hs Hp]. split; [done|].
  intros v i e Hv Hi. apply (Hp v i e Hv). lia.
Qed.

(** Every content of a settled history leads to the last one. *)
Lemma settled_last F h cur v :
  settled F h → last h = Some cur → v ∈ h → status_le v cur.
Proof.
  intros [Hs _] Hlast Hv. apply last_Some in Hlast as [h' ->].
  apply elem_of_app in Hv as [Hv|Hv].
  - pose proof (StronglySorted_snoc_inv _ _ _ Hs) as Hall.
    by apply (proj1 (Forall_forall _ _) Hall).
  - apply list_elem_of_singleton in Hv as ->. apply status_le_refl.
Qed.

Lemma settled_snoc F h v :
  settled F h →
  (∀ u, u ∈ h → status_le u v) →
  (∀ i e, (F ≤ i)%nat → v !! i = Some e → e_status e = Some "pending") →
  settled F (h ++ [v]).
Proof.
  intros [Hs Hp] Hle Hv. split.
  - apply StronglySorted_snoc; [done|]. by apply Forall_forall.
  - intros u i e Hu. apply elem_of_app in Hu as [Hu|Hu]; [by apply Hp|].
    apply list_elem_of_singleton in Hu as ->. apply Hv.
Qed.

Lemma versions_snoc n0 (ob0 v : list outbox_entry) log :
  (n0 ≤ length log)%nat →
  ob0 :: drop n0 (log ++ [v]) = (ob0 :: drop n0 log) ++ [v].
Proof. intros Hn. by rewrite drop_app_le. Qed.

(** Entries appended to the file as it is, all of them [pending]: what
    [handle_schedule] does, whether it is served between two sweeps or
    while one is suspended. *)
Lemma outbox_inv_append n0 ob0 F ob log es :
  Forall (λ e, e_status e = Some "pending") es →
  outbox_inv n0 ob0 F ob log →
  outbox_inv n0 ob0 F (ob ++ es) (log ++ [ob ++ es]).
Proof.
  intros Hes (Hn & Hset & Hlen & Hlast & HF).
  pose proof (last_Some_elem_of _ _ Hlast) as Hin.
  unfold outbox_inv. rewrite versions_snoc by done.
  split; [rewrite length_app; simpl; lia|].
  assert (∀ i e, (F ≤ i)%nat → (ob ++ es) !! i = Some e
                 → e_status e = Some "pending") as Hnew.
  { intros i e Hi He. destruct (decide (i < length ob)%nat) as [Hlt|Hge].
    - rewrite lookup_app_l in He by done.
      destruct Hset as [_ Hp]. by apply (Hp ob i e).
    - rewrite lookup_app_r in He by lia.
      eapply (proj1 (Forall_forall _ _) Hes). by eapply list_elem_of_lookup_2. }
  split; [|split; [|split]].
  - apply settled_snoc; [done| |done].
    intros u Hu i e He.
    destruct (decide (i < length ob)%nat) as [Hlt|Hge].
    + rewrite lookup_app_l by done.
      by apply (settled_last F _ ob u Hset Hlast Hu i).
    + assert (e_status e = Some "pending") as Hpe
        by (destruct Hset as [_ Hp]; apply (Hp u i e Hu); [lia | done]).
      destruct ((ob ++ es) !! i) as [e'|] eqn:He'; [|done].
      rewrite (Hnew i e'), Hpe; [|lia|done]. apply status_step_refl.
  - apply Forall_app. split; [done|]. constructor; [|done].
    pose proof (proj1 (Forall_forall _ _) Hlen ob Hin) as Hl. simpl in Hl.
    rewrite length_app. lia.
  - apply last_snoc.
  - rewrite length_app. lia.
Qed.

Lemma sweep_inv_append n0 ob0 loc ob log es :
  Forall (λ e, e_status e = Some "pending") es →
  sweep_inv n0 ob0 loc ob log →
  sweep_inv n0 ob0 loc (ob ++ es) (log ++ [ob ++ es]).
Proof.
  intros Hes (Hinv & Hl0 & Hle). split; [by apply outbox_inv_append|].
  split; [done|].
  destruct Hinv as (Hn & Hset & Hlen & Hlast & HF).
  pose proof (last_Some_elem_of _ _ Hlast) as Hin.
  rewrite versions_snoc by done. intros v Hv.
  apply elem_of_app in Hv as [Hv|Hv]; [by apply Hle|].
  apply list_elem_of_singleton in Hv as ->.
  intros i e He.
  destruct (loc !! i) as [e'|] eqn:He'.
  - pose proof (lookup_lt_Some _ _ _ He') as Hlt.
    rewrite lookup_app_l in He by lia.
    pose proof (Hle ob Hin i e He) as Hstep. by rewrite He' in Hstep.
  - apply lookup_ge_None_1 in He'.
    destruct (decide (i < length ob)%nat) as [Hlt|Hge].
    + rewrite lookup_app_l in He by done.
      destruct Hset as [_ Hp]. by apply (Hp ob i e).
    + rewrite lookup_app_r in He by lia.
      eapply (proj1 (Forall_forall _ _) Hes). by eapply list_elem_of_lookup_2.
Qed.

Lemma outbox_inv_suspend E n0 ob0 F :
  appends_pending E →
  ∀ n ob log, outbox_inv n0 ob0 F ob log →
    outbox_inv n0 ob0 F (other_outbox E n ob) (log ++ [other_outbox E n ob]).
Proof.
  intros Happ n ob log H. destruct (Happ n ob) as (es & -> & Hes).
  by apply outbox_inv_append.
Qed.

Lemma sweep_inv_suspend E n0 ob0 loc :
  appends_pending E →
  ∀ n ob log, sweep_inv n0 ob0 loc ob log →
    sweep_inv n0 ob0 loc (other_outbox E n ob) (log ++ [other_outbox E n ob]).
Proof.
  intros Happ n ob log H. destruct (Happ n ob) as (es & -> & Hes).
  by apply sweep_inv_append.
Qed.

(** The sweep takes the file as it is for its list, each entry having
    moved by a step. *)
Lemma sweep_inv_start n0 ob0 F ob log (f : outbox_entry → outbox_entry) :
  (∀ e, status_step (e_status e) (e_status (f e))) →
  outbox_inv n0 ob0 F ob log →
  sweep_inv n0 ob0 (map f ob) ob log.
Proof.
  intros Hf (Hn & Hset & Hlen & Hlast & HF).
  pose proof (last_Some_elem_of _ _ Hlast) as Hin.
  unfold sweep_inv, outbox_inv. rewrite length_map.
  split; [|split].
  - split; [done|]. split; [by apply (settled_weaken F)|]. by repeat split.
  - by apply (proj1 (Forall_forall _ _) Hlen ob Hin).
  - intros v Hv i e He.
    pose proof (settled_last F _ ob v Hset Hlast Hv i e He) as Hstep.
    rewrite list_lookup_fmap.
    destruct (ob !! i) as [x|] eqn:Hx; simpl; [|done].
    eapply status_step_trans; [exact Hstep | apply Hf].
Qed.

(** The sweep saves its list. *)
Lemma sweep_inv_save n0 ob0 loc ob log :
  sweep_inv n0 ob0 loc ob log → sweep_inv n0 ob0 loc loc (log ++ [loc]).
Proof.
  intros ((Hn & Hset & Hlen & Hlast & HF) & Hl0 & Hle).
  unfold sweep_inv, outbox_inv. rewrite versions_snoc by done.
  split; [|split; [done|]].
  - split; [rewrite length_app; simpl; lia|].
    split; [|split; [|split]].
    + apply settled_snoc; [done|done|].
      intros i e Hi He. apply lookup_lt_Some in He. lia.
    + apply Forall_app. split; [done|]. by constructor.
    + apply last_snoc.
    + done.
  - intros v Hv. apply elem_of_app in Hv as [Hv|Hv]; [by apply Hle|].
    apply list_elem_of_singleton in Hv as ->. apply status_le_refl.
Qed.

(** The second loop gives an entry of its list another status. *)
Lemma sweep_inv_update n0 ob0 pre e e' rest ob log :
  status_step (e_status e) (e_status e') →
  sweep_inv n0 ob0 (pre ++ e :: rest) ob log →
  sweep_inv n0 ob0 (pre ++ e' :: rest) ob log.
Proof.
  intros Hstep (Hinv & Hl0 & Hle). unfold sweep_inv.
  replace (length (pre ++ e' :: rest)) with (length (pre ++ e :: rest))
    by (rewrite !length_app; done).
  split; [done|]. split; [done|].
  intros v Hv i x Hx. pose proof (Hle v Hv i x Hx) as Hold.
  destruct (decide (i = length pre)) as [->|Hne].
  - rewrite list_lookup_middle in Hold by done.
    rewrite list_lookup_middle by done.
    eapply status_step_trans; [exact Hold | exact Hstep].
  - assert ((pre ++ e' :: rest) !! i = (pre ++ e :: rest) !! i) as ->; [|done].
    destruct (decide (i < length pre)%nat) as [Hlt|Hge].
    + by rewrite !lookup_app_l.
    + rewrite !lookup_app_r by lia.
      destruct (i - length pre)%nat as [|k] eqn:Hk; [lia | done].
Qed.

Lemma dispatch_all_inv E C n0 ob0 :
  appends_pending E →
  ∀ todo pre st,
    on_outbox (sweep_inv n0 ob0 (pre ++ todo)) st →
    on_outbox (sweep_inv n0 ob0 (pre ++ fst (dispatch_all E C todo st)))
              (snd (dispatch_all E C todo st)).
Proof.
  intros Happ. induction todo as [|e rest IH]; intros pre st Hst; simpl; [done|].
  pose proof (dispatch_entry_outbox E C _
                (sweep_inv_suspend E n0 ob0 (pre ++ e :: rest) Happ) e st Hst) as H1.
  pose proof (dispatch_entry_status E C e st) as Hs.
  destruct (dispatch_entry E C e st) as [e' st1]. simpl in *.
  assert (status_step (e_status e) (e_status e')) as Hstep.
  { destruct Hs as [[Hs Ht]|[_ ->]]; [|apply status_step_refl].
    right; right. by rewrite Hs. }
  apply (sweep_inv_update _ _ _ _ _ _ _ _ Hstep) in H1.
  specialize (IH (pre ++ [e']) st1). rewrite <- app_assoc in IH.
  specialize (IH H1).
  destruct (dispatch_all E C rest st1) as [rest' st2]. simpl in *.
  by rewrite <- app_assoc in IH.
Qed.

(** The [try] statement of a sweep keeps the invariant: the file it
    saves at line 809 is its own list, which has the length of the file it
    loaded, so that only [pending] entries can have been overwritten. *)
Lemma outbox_try_inv E C n0 ob0 F st :
  appends_pending E →
  on_outbox (outbox_inv n0 ob0 F) st →
  ∃ F', on_outbox (outbox_inv n0 ob0 F') (outbox_try E C st).
Proof.
  intros Happ Hst. unfold outbox_try.
  destruct (sweep_promote E st) as [[ob1 st1]|] eqn:Hp; [|by exists F].
  destruct (sweep_promote_Some _ _ _ _ Hp) as [Hob1 Hst1].
  assert (on_outbox (sweep_inv n0 ob0 ob1) st1) as H1.
  { pose proof (sweep_inv_start n0 ob0 F _ _ (mark_entry E (clock st))
                  (mark_entry_step E (clock st)) Hst) as H0.
    rewrite <- Hob1 in H0.
    destruct Hst1 as [->| ->]; [done|].
    by apply sweep_inv_save in H0. }
  pose proof (dispatch_all_inv E C n0 ob0 Happ ob1 [] st1 H1) as H2.
  destruct (dispatch_all E C ob1 st1) as [ob2 st2]. simpl in H2.
  exists (length ob2). by apply sweep_inv_save in H2 as [H2 _].
Qed.

Lemma run_request_inv E C n0 ob0 r st :
  appends_pending E →
  (∃ F, on_outbox (outbox_inv n0 ob0 F) st) →
  ∃ F, on_outbox (outbox_inv n0 ob0 F) (run_request E C r st).
Proof.
  intros Happ [F Hst]. destruct r; cbn [run_request].
  - exists F. unfold handle_schedule, write_log.
    apply (outbox_inv_append n0 ob0 F (outbox_file st) (outbox_log st)); [|done].
    by repeat constructor.
  - exists F. apply broadcast_copy_outbox; [by apply outbox_inv_suspend | done].
  - exists F. unfold add_channel, write_log. by case_decide.
  - exists F. unfold remove_channel, write_log. by case_decide.
  - destruct (outbox_try_inv E C n0 ob0 F st Happ Hst) as [F' H1].
    exists F'. unfold outbox_iteration.
    apply sleep_outbox; [by apply outbox_inv_suspend | done].
Qed.

Lemma run_requests_inv E C n0 ob0 rs st :
  appends_pending E →
  (∃ F, on_outbox (outbox_inv n0 ob0 F) st) →
  ∃ F, on_outbox (outbox_inv n0 ob0 F) (run_requests E C rs st).
Proof.
  intros Happ. revert st. induction rs as [|r rs IH]; intros st Hst; [done|].
  apply IH. by apply run_request_inv.
Qed.

(** C9.  Over any run of requests and sweeps, from any state, with
    [handle_schedule] free to append entries whenever a request or a sweep
    is suspended: the successive contents of the outbox file, those the
    other coroutines leave included, are ordered by [status_le].
    Whenever one content comes before another, every entry of the earlier
    one is in the later one at the same index, with the same status or
    one further along [pending], [sending], [sent | error | unknown_type];
    the one exception is an entry that is still [pending] and was appended
    while a sweep was suspended, which the save of line 809 overwrites.
    So no entry is [pending] again after it has been anything else, none
    is [sending] again after it has been given its final status, a final
    status does not change, and an entry that has left [pending] is never
    dropped.  The entries the file held at the start are in every
    content. *)
Theorem outbox_status_monotone E C rs st :
  appends_pending E →
  StronglySorted status_le (outbox_file st :: outbox_history E C rs st)
  ∧ Forall (λ v, (length (outbox_file st) ≤ length v)%nat)
           (outbox_history E C rs st)
  ∧ ∀ s s', status_step s s' →
      (s' = Some "pending" → s = Some "pending")
      ∧ (s' = Some "sending" → s = Some "pending" ∨ s = Some "sending")
      ∧ (s ≠ Some "pending" → s ≠ Some "sending" → s' = s).
Proof.
  intros Happ.
  destruct (run_requests_inv E C (length (outbox_log st)) (outbox_file st) rs st Happ)
    as (F & Hn & [Hs _] & Hlen & _).
  { exists (length (outbox_file st)). unfold on_outbox, outbox_inv, settled.
    rewrite drop_all. repeat split; try done.
    - repeat constructor.
    - intros v i e Hv Hi He. apply list_elem_of_singleton in Hv as ->.
      apply lookup_lt_Some in He. lia.
    - by repeat constructor. }
  split; [exact Hs|]. split; [|apply status_step_no_return].
  by apply Forall_cons in Hlen as [_ Hlen].
Qed.

(** An instance: the outbox holds one entry left [sending]; while the
    sweep is suspended in the call that copies it to channel ["A"], a
    [/schedule] request appends a [pending] entry. *)
Lemma outbox_status_monotone_witness :
  StronglySorted status_le
    ([stale_entry]
     :: outbox_history (scheduling_env always_ok 0 due_entry) default_config
                       [Sweep] (fresh_state ["A"] [stale_entry])).
Proof.
  apply (outbox_status_monotone (scheduling_env always_ok 0 due_entry)
           default_config [Sweep] (fresh_state ["A"] [stale_entry])).
  intros n l. simpl. case_decide.
  - exists [due_entry]. split; [done|]. by repeat constructor.
  - exists []. split; [by rewrite app_nil_r | constructor].
Defined.

(** The run of the instance: the entry appended during the sweep is in
    the file while the sweep is suspended, and is gone once the sweep has
    saved its own list. *)
Example sweep_overwrites_schedule :
  map (map e_status)
      (outbox_history (scheduling_env always_ok 0 due_entry) default_config
                      [Sweep] (fresh_state ["A"] [stale_entry]))
  = [[Some "sending"; Some "pending"]; [Some "sending"; Some "pending"];
     [Some "sent"]; [Some "sent"]].
Proof. vm_compute. reflexivity. Qed.

(** ** The outbox: an entry that does not parse *)

Lemma sweep_promote_raises E st st' :
  outbox_file st' = outbox_file st →
  sweep_promote E st = None → sweep_promote E st' = None.
Proof.
  unfold sweep_promote. intros ->.
  destruct (mark_due E (clock st) (outbox_file st) false) as [[ob c]|] eqn:Hm; [done|].
  intros _. by rewrite (mark_due_raises E _ (clock st') _ _ false Hm).
Qed.

Lemma outbox_iteration_raises E C st :
  outbox_undisturbed E →
  sweep_promote E st = None →
  outbox_file (outbox_iteration E C st) = outbox_file st
  ∧ trace (outbox_iteration E C st) = trace st
  ∧ posts_file (outbox_iteration E C st) = posts_file st.
Proof.
  intros Hq Hp. unfold outbox_iteration. rewrite (outbox_try_raises _ _ _ Hp).
  repeat split. apply Hq.
Qed.

(** Once the first loop raises, it raises in every later sweep, as long
    as nobody else repairs the file: the file is never written again and
    nothing is sent. *)
Lemma outbox_loop_wedged E C n st :
  outbox_undisturbed E →
  sweep_promote E st = None →
  outbox_file (outbox_loop E C n st) = outbox_file st
  ∧ trace (outbox_loop E C n st) = trace st
  ∧ posts_file (outbox_loop E C n st) = posts_file st.
Proof.
  intros Hq. revert st. induction n as [|n IH]; intros st Hp; simpl; [done|].
  destruct (outbox_iteration_raises E C st Hq Hp) as (Ho & Ht & Hpo).
  destruct (IH (outbox_iteration E C st)) as (Ho' & Ht' & Hpo').
  - by eapply sweep_promote_raises.
  - repeat split; congruence.
Qed.

(** C7, the failing input.  The outbox holds a [pending] entry whose
    [send_at] does not parse, followed by an entry that is due.  However
    many sweeps run, the due entry stays [pending] and nothing is sent:
    the exception raised at the first entry ends every sweep before
    anything is saved or dispatched. *)
Theorem outbox_loop_wedged_by_garbled_entry (n : nat) :
  let st' := outbox_loop (quiet_env always_ok) default_config n
                         (fresh_state ["A"] [garbled_entry; due_entry]) in
  outbox_file st' = [garbled_entry; due_entry]
  ∧ trace st' = []
  ∧ posts_file st' = [].
Proof.
  apply (outbox_loop_wedged (quiet_env always_ok) default_config n
           (fresh_state ["A"] [garbled_entry; due_entry])); [|reflexivity].
  by intros k l.
Qed.

(** * Further properties of the broadcast *)

(** ** Counters, outcomes and calls *)

Lemma rejections_app ch tr1 tr2 :
  rejections ch (tr1 ++ tr2) = rejections ch tr1 + rejections ch tr2.
Proof. unfold rejections. rewrite filter_app, length_app. lia. Qed.

Lemma rejections_nonneg ch tr : 0 ≤ rejections ch tr.
Proof. unfold rejections. lia. Qed.

Lemma returns_app tr1 tr2 : returns (tr1 ++ tr2) = (returns tr1 + returns tr2)%nat.
Proof. unfold returns. by rewrite filter_app, length_app. Qed.

Lemma oks_app rs1 rs2 : oks (rs1 ++ rs2) = (oks rs1 + oks rs2)%nat.
Proof. unfold oks. by rewrite filter_app, length_app. Qed.

Lemma calls_since_app st st' tr :
  trace st' = trace st ++ tr → calls_since st st' = tr.
Proof. unfold calls_since. intros ->. by rewrite drop_app_length. Qed.

(** One iteration of the retry loop: the counter of the channel called
    grows by one when the call is rejected, no other counter moves, and
    [ok] is recorded exactly when the call returns. *)
Lemma send_attempt_account E C ch lv st ctl lv' st' :
  send_attempt E C ch lv st = (ctl, lv', st') →
  let this := Attempt ch (clock st) (transport E (steps st) ch) in
  (∀ c, forbidden_count st' c = forbidden_count st c + rejections c [this])
  ∧ ∃ rs, results lv' = results lv ++ rs ∧ oks rs = returns [this].
Proof.
  unfold forbidden_count, rejections, returns.
  unfold send_attempt, call_transport, remove_channel, write_log.
  destruct (transport E (steps st) ch) as [|name msg] eqn:Htr; simpl.
  - intros [= <- <- <-]; simpl. split.
    + intros c. rewrite filter_cons_False by (simpl; intros [_ ?]; done).
      simpl. lia.
    + by exists [Result ch "ok" None].
  - assert (∀ rs0, ∃ rs : list result, rs0 = rs0 ++ rs ∧ oks rs = 0%nat) as Hnone.
    { intros rs0. exists []. by rewrite app_nil_r. }
    assert (∀ rs0, ∃ rs : list result,
               rs0 ++ [Result ch "forbidden" None] = rs0 ++ rs ∧ oks rs = 0%nat) as Hforb.
    { intros rs0. by exists [Result ch "forbidden" None]. }
    case_decide as Hname.
    + subst name.
      assert (∀ c, default 0 (<[ch:=default 0 (forbidden_counts st !! ch) + 1]>
                                  (forbidden_counts st) !! c)
                   = default 0 (forbidden_counts st !! c)
                     + Z.of_nat (length (filter
                          (λ a, a_channel a = c ∧ is_rejection (a_outcome a) = true)
                          [Attempt ch (clock st) (Raises "Forbidden" msg)]))) as Hcount.
      { intros c. destruct (decide (ch = c)) as [->|Hne].
        - rewrite lookup_insert_eq, filter_cons_True by done. simpl. lia.
        - rewrite lookup_insert_ne by done.
          rewrite filter_cons_False by (simpl; intros [? _]; done). simpl. lia. }
      destruct (REMOVE_ON_FORBIDDEN C && _); simpl.
      * case_decide; intros [= <- <- <-]; simpl; split; auto.
      * intros [= <- <- <-]; simpl; split; auto.
    + intros [= <- <- <-]; simpl. split; [|auto].
      intros c. rewrite filter_cons_False; [simpl; lia|].
      simpl. intros [_ Hrej]. by apply bool_decide_eq_true in Hrej.
Qed.

Lemma send_loop_account E C ch fuel lv st lv' st' :
  send_loop E C ch fuel lv st = (lv', st') →
  ∃ tr rs, trace st' = trace st ++ tr
    ∧ results lv' = results lv ++ rs
    ∧ oks rs = returns tr
    ∧ ∀ c, forbidden_count st' c = forbidden_count st c + rejections c tr.
Proof.
  revert lv st.
  induction fuel as [|fuel IH]; intros lv st; simpl.
  - destruct (_ <? _); intros [= <- <-]; exists [], [];
      rewrite !app_nil_r; repeat split; intros; unfold rejections; simpl; lia.
  - destruct (_ <? _).
    2:{ intros [= <- <-]; exists [], [];
          rewrite !app_nil_r; repeat split; intros; unfold rejections; simpl; lia. }
    destruct (send_attempt E C ch lv st) as [[ctl lv1] st1] eqn:Hs.
    destruct (send_attempt_frame _ _ _ _ _ _ _ _ Hs) as (_ & _ & _ & Ht).
    destruct (send_attempt_account _ _ _ _ _ _ _ _ Hs) as (Hc & rs1 & Hr & Ho).
    destruct ctl.
    + intros [= <- <-]. eexists; exists rs1. repeat split; eauto.
    + intros Hloop.
      destruct (IH _ _ Hloop) as (tr & rs & Ht' & Hr' & Ho' & Hc').
      exists (Attempt ch (clock st) (transport E (steps st) ch) :: tr), (rs1 ++ rs).
      repeat split.
      * rewrite Ht', Ht, <- app_assoc. reflexivity.
      * rewrite Hr', Hr, <- app_assoc. reflexivity.
      * rewrite oks_app, Ho, Ho'.
        change (?a :: tr) with ([a] ++ tr). by rewrite returns_app.
      * intros c. rewrite Hc', Hc.
        change (?a :: tr) with ([a] ++ tr). rewrite rejections_app. lia.
Qed.

Lemma send_to_channel_account E C ch res st res' st' :
  send_to_channel E C ch res st = (res', st') →
  ∃ tr rs, trace st' = trace st ++ tr
    ∧ res' = res ++ rs
    ∧ oks rs = returns tr
    ∧ ∀ c, forbidden_count st' c = forbidden_count st c + rejections c tr.
Proof.
  unfold send_to_channel.
  destruct (cooldown_wait_frame E C ch st) as (_ & _ & Hf & Ht & _).
  destruct (send_loop _ _ _ _ _ _) as [lv st2] eqn:Hloop.
  destruct (send_loop_account _ _ _ _ _ _ _ _ Hloop) as (tr & rs & Ht' & Hr & Ho & Hc).
  simpl in Hr. intros [= <- <-]. unfold forbidden_count in *. simpl.
  rewrite Hf in Hc. rewrite Ht in Ht'.
  destruct (negb (success lv) && _).
  - exists tr, (rs ++ [Result ch "failed" None]). repeat split; try done.
    + by rewrite Hr, <- app_assoc.
    + rewrite oks_app. unfold oks at 2. simpl. lia.
  - by exists tr, rs.
Qed.

Lemma for_channels_account E C channels res st res' st' :
  for_channels E C channels res st = (res', st') →
  ∃ tr rs, trace st' = trace st ++ tr
    ∧ res' = res ++ rs
    ∧ oks rs = returns tr
    ∧ ∀ c, forbidden_count st' c = forbidden_count st c + rejections c tr.
Proof.
  revert res st. induction channels as [|ch rest IH]; intros res st; simpl.
  - intros [= <- <-]. exists [], []. rewrite !app_nil_r.
    repeat split. intros c. unfold rejections. simpl. lia.
  - destruct (send_to_channel E C ch res st) as [res1 st1] eqn:H1.
    destruct (send_to_channel_account _ _ _ _ _ _ _ H1) as (tr1 & rs1 & Ht1 & -> & Ho1 & Hc1).
    intros H2. destruct (IH _ _ H2) as (tr2 & rs2 & Ht2 & -> & Ho2 & Hc2).
    exists (tr1 ++ tr2), (rs1 ++ rs2). repeat split.
    + by rewrite Ht2, Ht1, <- app_assoc.
    + by rewrite <- app_assoc.
    + by rewrite oks_app, returns_app, Ho1, Ho2.
    + intros c. rewrite Hc2, Hc1, rejections_app. lia.
Qed.

(** X1.  Over a broadcast, the counter of every channel grows by the
    number of calls to that channel rejected as [Forbidden]: nothing else
    moves a counter, and no counter ever decreases. *)
Theorem broadcast_copy_counts_rejections E C from_chat_id message_id origin st ch :
  let st' := snd (broadcast_copy E C from_chat_id message_id origin st) in
  forbidden_count st' ch
  = forbidden_count st ch + rejections ch (calls_since st st').
Proof.
  unfold broadcast_copy.
  destruct (channels_file st) as [|c rest] eqn:Hch.
  - simpl. unfold write_log, calls_since. rewrite drop_all.
    unfold rejections. simpl. lia.
  - destruct (for_channels E C (c :: rest) [] st) as [res st1] eqn:Hfor.
    destruct (for_channels_account _ _ _ _ _ _ _ Hfor) as (tr & rs & Ht & _ & _ & Hc).
    simpl. unfold calls_since. simpl. rewrite Ht, drop_app_length. apply Hc.
Qed.

(** X2.  The ledger entry a broadcast appends holds as many [ok]
    outcomes as transport calls of the broadcast returned; over an empty
    registry no call is made. *)
Theorem broadcast_copy_oks_are_returns E C from_chat_id message_id origin st :
  let st' := snd (broadcast_copy E C from_chat_id message_id origin st) in
  match channels_file st with
  | [] => calls_since st st' = []
  | _ :: _ =>
      oks ∘ p_results <$> last (posts_file st') = Some (returns (calls_since st st'))
  end.
Proof.
  unfold broadcast_copy.
  destruct (channels_file st) as [|c rest] eqn:Hch.
  - simpl. unfold write_log, calls_since. by rewrite drop_all.
  - destruct (for_channels E C (c :: rest) [] st) as [res st1] eqn:Hfor.
    destruct (for_channels_account _ _ _ _ _ _ _ Hfor) as (tr & rs & Ht & Hr & Ho & _).
    simpl in *. subst res. unfold calls_since. simpl.
    by rewrite last_snoc, Ht, drop_app_length; simpl; rewrite Ho.
Qed.

(** ** A retry count that is not positive *)

Lemma for_channels_no_attempts E C channels res st :
  SEND_RETRY_COUNT C ≤ 0 →
  fst (for_channels E C channels res st)
  = res ++ map (λ ch, Result ch "failed" None) channels
  ∧ trace (snd (for_channels E C channels res st)) = trace st.
Proof.
  intros Hle. revert res st.
  induction channels as [|ch rest IH]; intros res st; simpl.
  - by rewrite app_nil_r.
  - unfold send_to_channel.
    replace (Z.to_nat (SEND_RETRY_COUNT C)) with 0%nat by lia. simpl.
    destruct (Z.ltb_spec 0 (SEND_RETRY_COUNT C)) as [?|_]; [lia|]. simpl.
    destruct (Z.leb_spec (SEND_RETRY_COUNT C) 0) as [_|?]; [|lia].
    match goal with
    | |- context [for_channels E C rest ?r ?s] =>
        destruct (IH r s) as [-> ->]
    end.
    simpl. rewrite <- app_assoc. split; [done|].
    apply cooldown_wait_frame.
Qed.

(** X3.  When [SEND_RETRY_COUNT] is zero or negative, a broadcast makes
    no transport call at all and records [failed] for every channel of
    the registry. *)
Theorem broadcast_copy_no_attempts E C from_chat_id message_id origin st :
  SEND_RETRY_COUNT C ≤ 0 →
  let st' := snd (broadcast_copy E C from_chat_id message_id origin st) in
  calls_since st st' = []
  ∧ match channels_file st with
    | [] => posts_file st' = posts_file st
    | _ :: _ =>
        p_results <$> last (posts_file st')
        = Some (map (λ ch, Result ch "failed" None) (channels_file st))
    end.
Proof.
  intros Hle. unfold broadcast_copy.
  destruct (channels_file st) as [|c rest] eqn:Hch.
  - simpl. unfold write_log, calls_since. by rewrite drop_all.
  - destruct (for_channels_no_attempts E C (c :: rest) [] st Hle) as [Hres Htr].
    destruct (for_channels E C (c :: rest) [] st) as [res st1]. simpl in *.
    split.
    + unfold calls_since. simpl. by rewrite Htr, drop_all.
    + by rewrite last_snoc, Hres.
Qed.

(** An instance: no retry configured, two channels. *)
Lemma broadcast_copy_no_attempts_witness :
  let st' := snd (broadcast_copy (quiet_env always_ok)
                                 (Config 0 2000 350 150 10000 true 3) 1 2 (Some 7)
                                 (fresh_state ["A"; "B"] [])) in
  calls_since (fresh_state ["A"; "B"] []) st' = []
  ∧ p_results <$> last (posts_file st')
    = Some [Result "A" "failed" None; Result "B" "failed" None].
Proof.
  apply (broadcast_copy_no_attempts (quiet_env always_ok)
           (Config 0 2000 350 150 10000 true 3) 1 2 (Some 7)
           (fresh_state ["A"; "B"] [])).
  simpl. lia.
Defined.

(** ** What a broadcast does to the registry *)

Lemma remove_first_sublist x l : remove_first x l `sublist_of` l.
Proof.
  induction l as [|y l IH]; simpl; [done|].
  case_decide; [by apply sublist_cons | by apply sublist_skip].
Qed.

Lemma remove_first_other x c l : c ∈ l → c ∉ remove_first x l → c = x.
Proof.
  induction l as [|y l IH]; simpl; [by intros ?%elem_of_nil|].
  case_decide as Hxy.
  - subst y. intros [->|Hin]%elem_of_cons Hnot; [done | contradiction].
  - intros [->|Hin]%elem_of_cons Hnot.
    + exfalso. apply Hnot. by left.
    + apply IH; [done|]. intros ?. apply Hnot. by right.
Qed.

Lemma registry_step_refl C st : registry_step C st st.
Proof. repeat split; try done; try lia. Qed.

Lemma registry_step_trans C st1 st2 st3 :
  registry_step C st1 st2 → registry_step C st2 st3 → registry_step C st1 st3.
Proof.
  intros (Hs1 & He1 & Hr1 & Hc1) (Hs2 & He2 & Hr2 & Hc2).
  split; [by etrans|]. split; [|split].
  - intros Hoff. by rewrite He2, He1.
  - intros c Hin1 Hout3.
    destruct (decide (c ∈ channels_file st2)) as [Hin|Hout]; [by apply Hr2|].
    destruct (Hr1 c Hin1 Hout) as [Hon Hge]. specialize (Hc2 c). split; [done | lia].
  - intros c. specialize (Hc1 c). specialize (Hc2 c). lia.
Qed.

(** A step that changes neither the registry nor the counters. *)
Lemma registry_step_same C st st' :
  channels_file st' = channels_file st →
  forbidden_counts st' = forbidden_counts st →
  registry_step C st st'.
Proof.
  intros Hc Hf. unfold registry_step, forbidden_count. rewrite Hc, Hf.
  repeat split; try done; try lia.
Qed.

Section Undisturbed.

Context (E : env) (C : config).
Hypothesis quiet : undisturbed E.

Lemma sleep_registry d st : registry_step C st (sleep E d st).
Proof. apply registry_step_same; [apply quiet | done]. Qed.

Lemma cooldown_wait_registry ch st : registry_step C st (cooldown_wait E C ch st).
Proof.
  unfold cooldown_wait.
  destruct (last_sent_times st !! ch) as [t|]; [|apply registry_step_refl].
  case_decide; [apply registry_step_refl|].
  destruct (_ <? _); [apply sleep_registry | apply registry_step_refl].
Qed.

Lemma send_attempt_registry ch lv st ctl lv' st' :
  send_attempt E C ch lv st = (ctl, lv', st') → registry_step C st st'.
Proof.
  intros Hs.
  destruct (send_attempt_account _ _ _ _ _ _ _ _ Hs) as (Hcount & _).
  assert (∀ c, forbidden_count st c ≤ forbidden_count st' c) as Hmono.
  { intros c. rewrite Hcount. pose proof (rejections_nonneg c
      [Attempt ch (clock st) (transport E (steps st) ch)]). lia. }
  clear Hcount. revert Hs Hmono.
  unfold send_attempt, call_transport, remove_channel, write_log.
  destruct (transport E (steps st) ch) as [|name msg] eqn:Htr; simpl.
  - intros [= <- <- <-] _. by apply registry_step_same; [apply quiet|].
  - case_decide as Hname.
    + destruct (REMOVE_ON_FORBIDDEN C && _) eqn:Hrm; simpl.
      * apply andb_true_iff in Hrm as [Hon Hth]. apply Z.leb_le in Hth.
        rewrite quiet.
        case_decide as Hin; intros [= <- <- <-] Hmono;
          unfold registry_step; simpl; rewrite ?quiet.
        -- split; [apply remove_first_sublist|]. split; [by rewrite Hon|].
           split; [|done]. intros c Hc Hnc.
           rewrite (remove_first_other _ _ _ Hc Hnc).
           unfold forbidden_count. simpl. by rewrite lookup_insert_eq.
        -- split; [done|]. split; [done|]. split; [|done].
           intros c Hc Hnc. contradiction.
      * intros [= <- <- <-] Hmono. unfold registry_step; simpl; rewrite ?quiet.
        split; [done|]. split; [done|]. split; [|done].
        intros c Hc Hnc. contradiction.
    + intros [= <- <- <-] _.
      apply registry_step_same; [simpl; by rewrite !quiet | done].
Qed.

Lemma send_loop_registry ch fuel lv st lv' st' :
  send_loop E C ch fuel lv st = (lv', st') → registry_step C st st'.
Proof.
  revert lv st. induction fuel as [|fuel IH]; intros lv st; simpl.
  - destruct (_ <? _); intros [= <- <-]; apply registry_step_refl.
  - destruct (_ <? _); [|intros [= <- <-]; apply registry_step_refl].
    destruct (send_attempt E C ch lv st) as [[ctl lv1] st1] eqn:Hs.
    apply send_attempt_registry in Hs. destruct ctl.
    + by intros [= <- <-].
    + intros Hloop. eapply registry_step_trans; [exact Hs | by eapply IH].
Qed.

Lemma send_to_channel_registry ch res st res' st' :
  send_to_channel E C ch res st = (res', st') → registry_step C st st'.
Proof.
  unfold send_to_channel.
  destruct (send_loop _ _ _ _ _ _) as [lv st2] eqn:Hloop.
  apply send_loop_registry in Hloop.
  intros [= <- <-].
  eapply registry_step_trans; [apply cooldown_wait_registry|].
  eapply registry_step_trans; [exact Hloop|].
  by apply registry_step_same; [apply quiet|].
Qed.

Lemma for_channels_registry channels res st res' st' :
  for_channels E C channels res st = (res', st') → registry_step C st st'.
Proof.
  revert res st. induction channels as [|ch rest IH]; intros res st; simpl.
  - intros [= <- <-]. apply registry_step_refl.
  - destruct (send_to_channel E C ch res st) as [res1 st1] eqn:H1.
    intros H2. eapply registry_step_trans;
      [by eapply send_to_channel_registry | by eapply IH].
Qed.

(** X4.  While no other coroutine touches the registry file, a broadcast
    can only take channels out of it: the registry afterwards is a
    sublist of the registry before; it is the same when
    [REMOVE_ON_FORBIDDEN] is off; and a channel that has gone has its
    counter at [FORBIDDEN_THRESHOLD] or above. *)
Theorem broadcast_copy_registry from_chat_id message_id origin st :
  let st' := snd (broadcast_copy E C from_chat_id message_id origin st) in
  channels_file st' `sublist_of` channels_file st
  ∧ (REMOVE_ON_FORBIDDEN C = false → channels_file st' = channels_file st)
  ∧ (∀ c, c ∈ channels_file st → c ∉ channels_file st' →
       REMOVE_ON_FORBIDDEN C = true ∧ FORBIDDEN_THRESHOLD C ≤ forbidden_count st' c).
Proof.
  assert (registry_step C st (snd (broadcast_copy E C from_chat_id message_id origin st)))
    as (H1 & H2 & H3 & _); [|done].
  unfold broadcast_copy.
  destruct (channels_file st) as [|c rest] eqn:Hch.
  - apply registry_step_refl.
  - rewrite <- Hch.
    destruct (for_channels E C (channels_file st) [] st) as [res st1] eqn:Hfor.
    apply for_channels_registry in Hfor. simpl.
    eapply registry_step_trans; [exact Hfor|]. by apply registry_step_same.
Qed.

End Undisturbed.

(** An instance: the third rejection of ["A"] takes it out of the
    registry and leaves ["B"]. *)
Lemma broadcast_copy_registry_witness :
  let st' := snd (broadcast_copy (quiet_env always_forbidden) default_config 1 2
                                 (Some 7) twice_rejected) in
  channels_file st' `sublist_of` ["A"; "B"]
  ∧ (∀ c, c ∈ ["A"; "B"] → c ∉ channels_file st' →
       FORBIDDEN_THRESHOLD default_config ≤ forbidden_count st' c).
Proof.
  destruct (broadcast_copy_registry (quiet_env always_forbidden) default_config
              (λ _ _, eq_refl) 1 2 (Some 7) twice_rejected) as (H1 & _ & H3).
  split; [exact H1|]. intros c Hin Hout. by destruct (H3 c Hin Hout).
Defined.

(** ** The cooldown between two broadcasts *)

Lemma send_loop_times E C ch fuel lv st lv' st' :
  send_loop E C ch fuel lv st = (lv', st') →
  ∃ tr, trace st' = trace st ++ tr
    ∧ Forall (λ a, a_channel a = ch ∧ a_time a ≤ clock st') tr.
Proof.
  revert lv st. induction fuel as [|fuel IH]; intros lv st; simpl.
  - destruct (_ <? _); intros [= <- <-]; exists []; by rewrite app_nil_r.
  - destruct (_ <? _); [|intros [= <- <-]; exists []; by rewrite app_nil_r].
    destruct (send_attempt E C ch lv st) as [[ctl lv1] st1] eqn:Hs.
    destruct (send_attempt_frame _ _ _ _ _ _ _ _ Hs) as (_ & _ & Hc & Ht).
    destruct ctl.
    + intros [= <- <-]. eexists. split; [exact Ht|]. by repeat constructor.
    + intros Hloop.
      destruct (send_loop_frame _ _ _ _ _ _ _ _ Hloop) as (_ & _ & Hc' & _).
      destruct (IH _ _ Hloop) as (tr & Ht' & Hall).
      exists (Attempt ch (clock st) (transport E (steps st) ch) :: tr). split.
      * by rewrite Ht', Ht, <- app_assoc.
      * constructor; [simpl; split; [done | lia] | done].
Qed.

(** One channel of the loop: the time recorded for it is taken after
    its calls. *)
Lemma send_to_channel_records E C ch res st res' st' :
  send_to_channel E C ch res st = (res', st') →
  ∃ t tr, last_sent_times st' = <[ch := t]> (last_sent_times st)
    ∧ clock st ≤ t ∧ t ≤ clock st'
    ∧ trace st' = trace st ++ tr
    ∧ Forall (λ a, a_channel a = ch ∧ a_time a ≤ t) tr.
Proof.
  unfold send_to_channel.
  destruct (cooldown_wait_frame E C ch st) as (_ & Hl & _ & Ht & Hc).
  destruct (send_loop _ _ _ _ _ _) as [lv st2] eqn:Hloop.
  destruct (send_loop_frame _ _ _ _ _ _ _ _ Hloop) as (_ & Hl' & Hc' & _).
  destruct (send_loop_times _ _ _ _ _ _ _ _ Hloop) as (tr & Ht' & Hall).
  intros [= <- <-]. exists (clock st2), tr. simpl.
  rewrite Hl', Hl. repeat split; try done; try lia. by rewrite Ht', Ht.
Qed.

Lemma for_channels_records E C channels res st res' st' t0 prev :
  for_channels E C channels res st = (res', st') →
  t0 ≤ clock st →
  Forall (recorded t0 st) prev →
  ∃ tr, trace st' = trace st ++ tr ∧ Forall (recorded t0 st') (prev ++ tr).
Proof.
  revert res st prev. induction channels as [|ch rest IH]; intros res st prev; simpl.
  - intros [= <- <-] _ Hprev. exists []. by rewrite !app_nil_r.
  - destruct (send_to_channel E C ch res st) as [res1 st1] eqn:H1.
    destruct (send_to_channel_records _ _ _ _ _ _ _ H1)
      as (t & tr1 & Hl & Hlo & Hhi & Ht1 & Hall1).
    intros H2 Ht0 Hprev.
    assert (Forall (recorded t0 st1) (prev ++ tr1)) as Hprev1.
    { apply Forall_app. split.
      - eapply Forall_impl; [exact Hprev|]. intros a (ta & Hta & ? & ? & ?).
        unfold recorded. rewrite Hl.
        destruct (decide (ch = a_channel a)) as [<-|Hne].
        + exists t. rewrite lookup_insert_eq. repeat split; try done; lia.
        + exists ta. rewrite lookup_insert_ne by done. repeat split; try done; lia.
      - eapply Forall_impl; [exact Hall1|]. intros a [<- ?].
        exists t. unfold recorded. rewrite Hl, lookup_insert_eq.
        repeat split; try done; lia. }
    destruct (IH _ _ _ H2 ltac:(lia) Hprev1) as (tr2 & Ht2 & Hall2).
    exists (tr1 ++ tr2). split.
    + by rewrite Ht2, Ht1, <- app_assoc.
    + by rewrite app_assoc.
Qed.

(** X5.  Two broadcasts run one after the other: every call the second
    makes to a channel comes at least [PER_CHANNEL_COOLDOWN] after every
    call the first made to that channel. *)
Theorem consecutive_broadcasts_spaced E C f1 m1 o1 f2 m2 o2 st a b :
  0 < clock st →
  let st1 := snd (broadcast_copy E C f1 m1 o1 st) in
  let st2 := snd (broadcast_copy E C f2 m2 o2 st1) in
  a ∈ calls_since st st1 →
  b ∈ calls_since st1 st2 →
  a_channel a = a_channel b →
  a_time a + PER_CHANNEL_COOLDOWN C ≤ a_time b.
Proof.
  intros Hpos st1 st2 Ha Hb Hab.
  assert (recorded (clock st) st1 a) as (t & Hl & Hat & Ht0 & _).
  { subst st1. revert Ha. unfold broadcast_copy.
    destruct (channels_file st) as [|c rest] eqn:Hch.
    - simpl. unfold write_log, calls_since. rewrite drop_all.
      by intros ?%elem_of_nil.
    - destruct (for_channels E C (c :: rest) [] st) as [res s1] eqn:Hfor.
      destruct (for_channels_records _ _ _ _ _ _ _ (clock st) [] Hfor
                  ltac:(lia) ltac:(constructor)) as (tr & Ht & Hall).
      simpl. unfold calls_since. simpl. rewrite Ht, drop_app_length.
      intros Hin. simpl in Hall.
      rewrite Forall_forall in Hall. destruct (Hall a Hin) as (t & ? & ? & ? & ?).
      exists t. simpl. repeat split; try done. }
  assert (∃ tr, trace st2 = trace st1 ++ tr
            ∧ Forall (λ x, a_channel x = a_channel a
                           → t + PER_CHANNEL_COOLDOWN C ≤ a_time x) tr)
    as (tr & Ht & Hall).
  { subst st2. unfold broadcast_copy.
    destruct (channels_file st1) as [|c rest] eqn:Hch.
    - exists []. by rewrite app_nil_r.
    - destruct (for_channels E C (c :: rest) [] st1) as [res s2] eqn:Hfor.
      apply (for_channels_cooldown _ _ _ _ _ _ _ _ _ Hfor). left. split; [done | lia]. }
  revert Hb. unfold calls_since. rewrite Ht, drop_app_length. intros Hb.
  rewrite Forall_forall in Hall. specialize (Hall b Hb (eq_sym Hab)). lia.
Qed.

(** An instance: two broadcasts to ["A"], the calls ten seconds apart. *)
Lemma consecutive_broadcasts_spaced_witness :
  1710000000000 + PER_CHANNEL_COOLDOWN default_config ≤ 1710000010000.
Proof.
  apply (consecutive_broadcasts_spaced (quiet_env always_ok) default_config
           1 2 (Some 7) 3 4 (Some 7) (fresh_state ["A"] [])
           (Attempt "A" 1710000000000 Returns)
           (Attempt "A" 1710000010000 Returns)).
  - reflexivity.
  - vm_compute. apply list_elem_of_here.
  - vm_compute. apply list_elem_of_here.
  - reflexivity.
Defined.

(** * Further properties of the sweep *)

(** ** What the sweep leaves alone *)

Lemma same_payload_refl e : same_payload e e.
Proof. by repeat split. Qed.

Lemma same_payload_trans e1 e2 e3 :
  same_payload e1 e2 → same_payload e2 e3 → same_payload e1 e3.
Proof.
  unfold same_payload. intros (?&?&?&?&?&?&?) (?&?&?&?&?&?&?).
  repeat split; congruence.
Qed.

Lemma mark_entry_payload E now e : same_payload e (mark_entry E now e).
Proof.
  unfold mark_entry. case_decide; [|apply same_payload_refl].
  destruct (parse_send_at E e) as [t|]; [|apply same_payload_refl].
  destruct (t <=? now); [by repeat split | apply same_payload_refl].
Qed.

Lemma dispatch_entry_payload E C e st :
  same_payload e (fst (dispatch_entry E C e st)).
Proof.
  unfold dispatch_entry.
  case_decide; [|apply same_payload_refl]. case_decide.
  - destruct (e_from_chat_id e), (e_message_id e); simpl; try by repeat split.
    by destruct (broadcast_copy _ _ _ _ _ _).
  - case_decide; [|by repeat split].
    by destruct (file_sends _ _ _ _ _).
Qed.

(** X6.  The file as the [try] statement of a sweep leaves it (saved at
    line 809, or untouched when the first loop raises) is the list loaded
    at line 752, entry for entry: as many entries, in the same order, and
    in each of them only the keys [status], [sent_at], [err] and [results]
    written.  So the sweep deletes and reorders none of the entries it
    loaded; whatever another coroutine has appended to the file while
    the sweep was suspended is overwritten by that save. *)
Theorem outbox_try_keeps_payload E C st :
  Forall2 same_payload (outbox_file st) (outbox_file (outbox_try E C st)).
Proof.
  destruct (sweep_promote E st) as [[ob1 st1]|] eqn:Hp.
  - destruct (outbox_try_file E C st ob1 st1 Hp) as (-> & _).
    destruct (sweep_promote_Some _ _ _ _ Hp) as [-> _].
    pose proof (dispatch_all_entries E C (map (mark_entry E (clock st)) (outbox_file st)) st1) as Hd.
    apply Forall2_fmap_l in Hd.
    eapply Forall2_impl; [exact Hd|]. simpl. intros e e' [st0 ->].
    eapply same_payload_trans; [apply mark_entry_payload | apply dispatch_entry_payload].
  - rewrite (outbox_try_raises E C st Hp).
    apply Forall_Forall2_diag, Forall_forall. intros e _. apply same_payload_refl.
Qed.

(** ** A sweep with nothing to do *)

Lemma mark_due_nothing E now ob changed :
  Forall (not_due E now) ob → mark_due E now ob changed = Some (ob, changed).
Proof.
  intros Hall. revert changed.
  induction Hall as [|e ob [_ He] _ IH]; intros changed; simpl; [done|].
  case_decide as Hp.
  - destruct (He Hp) as (t & -> & Ht).
    destruct (Z.leb_spec t now); [lia|]. by rewrite IH.
  - by rewrite IH.
Qed.

Lemma dispatch_all_nothing E C ob st :
  Forall (λ e, e_status e ≠ Some "sending") ob → dispatch_all E C ob st = (ob, st).
Proof.
  induction 1 as [|e ob He _ IH]; simpl; [done|].
  unfold dispatch_entry. case_decide; [done|]. by rewrite IH.
Qed.

(** X7.  When no entry of the outbox is [sending] and every [pending]
    entry has a [send_at] that parses and lies in the future, a sweep
    saves nothing at line 764, makes no call, and at line 809 writes the
    outbox file again with the content it loaded at line 752 (it has not
    been suspended in between); then it sleeps its second.  It sends
    nothing and changes no counter, no ledger entry and no entry of the
    outbox. *)
Theorem outbox_iteration_idle E C st :
  Forall (not_due E (clock st)) (outbox_file st) →
  outbox_iteration E C st = sleep E 1000 (set_outbox_file (outbox_file st) st).
Proof.
  intros Hidle. unfold outbox_iteration, outbox_try, sweep_promote.
  rewrite (mark_due_nothing _ _ _ _ Hidle).
  rewrite dispatch_all_nothing; [done|].
  eapply Forall_impl; [exact Hidle|]. by intros e [? _].
Qed.

(** An instance: the only entry was sent long ago. *)
Lemma outbox_iteration_idle_witness :
  outbox_iteration (quiet_env always_ok) default_config
                   (fresh_state ["A"] [set_status "sent" due_entry])
  = sleep (quiet_env always_ok) 1000
          (set_outbox_file [set_status "sent" due_entry]
             (fresh_state ["A"] [set_status "sent" due_entry])).
Proof.
  apply (outbox_iteration_idle (quiet_env always_ok) default_config
           (fresh_state ["A"] [set_status "sent" due_entry])).
  repeat constructor; simpl; discriminate.
Defined.

(** ** Entries of kind [file] *)

(** The direct sends of a [file] entry: one record per channel, in the
    order of the list, [ok] for each call that returned; nothing but the
    trace, the clock and the registry (through the other coroutines) is
    touched. *)
Lemma file_sends_spec E e channels res st :
  ∃ rs tr,
    fst (file_sends E e channels res st) = res ++ rs
    ∧ map r_channel rs = channels
    ∧ Forall (λ r, (r_status r = "ok" ∧ r_err r = None)
                   ∨ (r_status r = "error" ∧ is_Some (r_err r))) rs
    ∧ trace (snd (file_sends E e channels res st)) = trace st ++ tr
    ∧ oks rs = returns tr
    ∧ (length tr ≤ length channels)%nat
    ∧ posts_file (snd (file_sends E e channels res st)) = posts_file st
    ∧ last_sent_times (snd (file_sends E e channels res st)) = last_sent_times st
    ∧ forbidden_counts (snd (file_sends E e channels res st)) = forbidden_counts st.
Proof.
  revert res st. induction channels as [|ch rest IH]; intros res st.
  - exists [], []. simpl. rewrite !app_nil_r. by repeat split.
  - cbn [file_sends].
    assert (∀ out st1 this,
      trace st1 = trace st ++ this → (length this ≤ 1)%nat →
      returns this = (if is_return out then 1 else 0)%nat →
      posts_file st1 = posts_file st →
      last_sent_times st1 = last_sent_times st →
      forbidden_counts st1 = forbidden_counts st →
      let r := match out with
               | Returns => file_sends E e rest (res ++ [Result ch "ok" None]) st1
               | Raises _ msg =>
                   file_sends E e rest (res ++ [Result ch "error" (Some msg)])
                     (write_log (LogRecord "send" (Some "error") (Some ch)) st1)
               end in
      ∃ rs tr, fst r = res ++ rs ∧ map r_channel rs = ch :: rest
        ∧ Forall (λ r, (r_status r = "ok" ∧ r_err r = None)
                       ∨ (r_status r = "error" ∧ is_Some (r_err r))) rs
        ∧ trace (snd r) = trace st ++ tr ∧ oks rs = returns tr
        ∧ (length tr ≤ S (length rest))%nat
        ∧ posts_file (snd r) = posts_file st
        ∧ last_sent_times (snd r) = last_sent_times st
        ∧ forbidden_counts (snd r) = forbidden_counts st) as Hstep.
    { intros out st1 this Ht Hlen Hret Hp Hl Hf. unfold write_log.
      destruct out as [|name msg]; simpl.
      - destruct (IH (res ++ [Result ch "ok" None]) st1)
          as (rs & tr & -> & Hm & Hall & Ht' & Hoks & Hlen' & Hp' & Hl' & Hf').
        exists (Result ch "ok" None :: rs), (this ++ tr).
        rewrite <- app_assoc. simpl. repeat split; try congruence.
        + constructor; [by left | done].
        + by rewrite Ht', Ht, <- app_assoc.
        + change (?x :: rs) with ([x] ++ rs).
          rewrite oks_app, returns_app, Hret, Hoks. reflexivity.
        + rewrite length_app. lia.
      - destruct (IH (res ++ [Result ch "error" (Some msg)]) st1)
          as (rs & tr & -> & Hm & Hall & Ht' & Hoks & Hlen' & Hp' & Hl' & Hf').
        exists (Result ch "error" (Some msg) :: rs), (this ++ tr).
        rewrite <- app_assoc. simpl. repeat split; try congruence.
        + constructor; [right; split; [done | by eexists] | done].
        + by rewrite Ht', Ht, <- app_assoc.
        + change (?x :: rs) with ([x] ++ rs).
          rewrite oks_app, returns_app, Hret, Hoks. reflexivity.
        + rewrite length_app. lia. }
    assert (∃ out st1 this,
      (let truthy_path :=
         match e_file_path e with
         | Some fp => if decide (fp = EmptyString) then None else Some fp
         | None => None
         end in
       match truthy_path with
       | Some fp =>
           match open_error E fp with
           | Some msg => (Raises "OSError" msg, st)
           | None => call_transport E ch st
           end
       | None => call_transport E ch st
       end) = (out, st1)
      ∧ trace st1 = trace st ++ this ∧ (length this ≤ 1)%nat
      ∧ returns this = (if is_return out then 1 else 0)%nat
      ∧ posts_file st1 = posts_file st
      ∧ last_sent_times st1 = last_sent_times st
      ∧ forbidden_counts st1 = forbidden_counts st) as (out & st1 & this & Heq & Hrest).
    { assert (∃ out st1 this, call_transport E ch st = (out, st1)
        ∧ trace st1 = trace st ++ this ∧ (length this ≤ 1)%nat
        ∧ returns this = (if is_return out then 1 else 0)%nat
        ∧ posts_file st1 = posts_file st
        ∧ last_sent_times st1 = last_sent_times st
        ∧ forbidden_counts st1 = forbidden_counts st) as Hcall.
      { unfold call_transport.
        eexists _, _, [Attempt ch (clock st) (transport E (steps st) ch)].
        split; [reflexivity|]. simpl. repeat split; try done.
        unfold returns. simpl.
        by destruct (transport E (steps st) ch). }
      simpl.
      destruct (e_file_path e) as [fp|]; [|exact Hcall].
      case_decide; [exact Hcall|].
      destruct (open_error E fp) as [msg|]; [|exact Hcall].
      exists (Raises "OSError" msg), st, []. rewrite app_nil_r.
      repeat split; simpl; try done; lia. }
    cbv zeta in Heq. rewrite Heq.
    destruct Hrest as (Ht & Hlen & Hret & Hp & Hl & Hf).
    exact (Hstep out st1 this Ht Hlen Hret Hp Hl Hf).
Qed.

(** X8.  Dispatching a [file] entry that is [sending] marks it [sent]
    and stores one result per channel of the registry as it is at that
    moment, in its order, [ok] for each call that returned and [error]
    with a message otherwise.  It writes no ledger entry and touches
    neither the cooldown clock nor the rejection counters. *)
Theorem dispatch_entry_file E C e st :
  e_status e = Some "sending" →
  e_type e = Some "file" →
  let e' := fst (dispatch_entry E C e st) in
  let st' := snd (dispatch_entry E C e st) in
  e_status e' = Some "sent"
  ∧ (∃ rs, e_results e' = Some rs
       ∧ map r_channel rs = channels_file st
       ∧ Forall (λ r, (r_status r = "ok" ∧ r_err r = None)
                      ∨ (r_status r = "error" ∧ is_Some (r_err r))) rs
       ∧ oks rs = returns (calls_since st st'))
  ∧ posts_file st' = posts_file st
  ∧ last_sent_times st' = last_sent_times st
  ∧ forbidden_counts st' = forbidden_counts st.
Proof.
  intros Hs Hty. unfold dispatch_entry.
  rewrite decide_True by done.
  rewrite decide_False by (rewrite Hty; discriminate).
  rewrite decide_True by done.
  destruct (file_sends_spec E e (channels_file st) [] st)
    as (rs & tr & Hr & Hm & Hall & Ht & Hoks & _ & Hp & Hl & Hf).
  destruct (file_sends E e (channels_file st) [] st) as [res st1].
  simpl in *. subst res. unfold write_log. repeat split; try done.
  exists rs. repeat split; try done.
  unfold calls_since. by rewrite Ht, drop_app_length.
Qed.

(** An instance: a text post for two channels. *)
Lemma dispatch_entry_file_witness :
  e_status (fst (dispatch_entry (quiet_env always_ok) default_config
                   (Entry (Some "file") None None None (Some "sending") None None
                          (Some "hello") None None None)
                   (fresh_state ["A"; "B"] [])))
  = Some "sent".
Proof.
  apply (dispatch_entry_file (quiet_env always_ok) default_config
           (Entry (Some "file") None None None (Some "sending") None None
                  (Some "hello") None None None)
           (fresh_state ["A"; "B"] [])); reflexivity.
Defined.

Lemma file_sends_unreadable E e fp msg channels res st :
  e_file_path e = Some fp → fp ≠ EmptyString → open_error E fp = Some msg →
  file_sends E e channels res st
  = (res ++ map (λ ch, Result ch "error" (Some msg)) channels, st).
Proof.
  intros Hfp Hne Hopen. revert res.
  induction channels as [|ch rest IH]; intros res; simpl.
  - by rewrite app_nil_r.
  - rewrite Hfp, decide_False, Hopen by done. unfold write_log.
    by rewrite IH, <- app_assoc.
Qed.

(** X9.  When the file of a [file] entry cannot be opened, dispatching
    the entry makes no transport call: every channel of the registry
    gets an [error] result carrying the message of the exception, and
    the entry is marked [sent] all the same. *)
Theorem dispatch_entry_file_unreadable E C e st fp msg :
  e_status e = Some "sending" →
  e_type e = Some "file" →
  e_file_path e = Some fp → fp ≠ EmptyString →
  open_error E fp = Some msg →
  let e' := fst (dispatch_entry E C e st) in
  let st' := snd (dispatch_entry E C e st) in
  st' = st
  ∧ e_status e' = Some "sent"
  ∧ e_results e'
    = Some (map (λ ch, Result ch "error" (Some msg)) (channels_file st)).
Proof.
  intros Hs Hty Hfp Hne Hopen. unfold dispatch_entry.
  rewrite decide_True by done.
  rewrite decide_False by (rewrite Hty; discriminate).
  rewrite decide_True by done.
  by rewrite (file_sends_unreadable E e fp msg _ _ _ Hfp Hne Hopen).
Qed.

(** An instance: the file of the entry has been deleted. *)
Lemma dispatch_entry_file_unreadable_witness :
  let E := Env always_ok (λ _, 0) (λ _, 0) (λ _ l, l) (λ _ l, l) (λ _, None)
               (λ _, EmptyString) (λ _, Some "No such file or directory") in
  let e := Entry (Some "file") None None None (Some "sending") None
                 (Some "uploads/a.pdf") None None None None in
  e_results (fst (dispatch_entry E default_config e (fresh_state ["A"; "B"] [])))
  = Some [Result "A" "error" (Some "No such file or directory");
          Result "B" "error" (Some "No such file or directory")].
Proof.
  apply (dispatch_entry_file_unreadable
           (Env always_ok (λ _, 0) (λ _, 0) (λ _ l, l) (λ _ l, l) (λ _, None)
                (λ _, EmptyString) (λ _, Some "No such file or directory"))
           default_config
           (Entry (Some "file") None None None (Some "sending") None
                  (Some "uploads/a.pdf") None None None None)
           (fresh_state ["A"; "B"] []) "uploads/a.pdf"
           "No such file or directory"); done.
Defined.

(** ** A sweep while the registry is empty *)

Lemma dispatch_entry_empty_registry E C e st :
  channels_file st = [] → snd (dispatch_entry E C e st) = st.
Proof.
  intros Hch. unfold dispatch_entry, broadcast_copy, write_log. rewrite Hch.
  case_decide; [|done]. case_decide.
  - by destruct (e_from_chat_id e), (e_message_id e).
  - by case_decide.
Qed.

Lemma dispatch_all_empty_registry E C ob st :
  channels_file st = [] →
  dispatch_all E C ob st = (map (λ e, fst (dispatch_entry E C e st)) ob, st).
Proof.
  intros Hch. induction ob as [|e ob IH]; simpl; [done|].
  pose proof (dispatch_entry_empty_registry E C e st Hch) as Hst.
  destruct (dispatch_entry E C e st) as [e' st1]. simpl in *. subst st1.
  by rewrite IH.
Qed.

(** X10.  A sweep that runs while the registry is empty sends nothing
    and writes no ledger entry, and yet in the file as line 809 saves it
    every [file] entry, and every [copy] entry with its two keys, that was
    [sending] or due is marked [sent].  That file is the one the sweep
    leaves behind unless another coroutine writes it during the sleep
    that ends the cycle. *)
Theorem outbox_iteration_empty_registry E C st :
  channels_file st = [] →
  is_Some (sweep_promote E st) →
  let st' := outbox_iteration E C st in
  trace st' = trace st
  ∧ posts_file st' = posts_file st
  ∧ (∀ i e, outbox_file st !! i = Some e →
       e_status (mark_entry E (clock st) e) = Some "sending" →
       e_type e = Some "file"
       ∨ (e_type e = Some "copy" ∧ is_Some (e_from_chat_id e)
          ∧ is_Some (e_message_id e)) →
       e_status <$> outbox_file (outbox_try E C st) !! i = Some (Some "sent"))
  ∧ (outbox_undisturbed E → outbox_file st' = outbox_file (outbox_try E C st)).
Proof.
  intros Hch [[ob1 st1] Hp].
  destruct (outbox_try_file E C st ob1 st1 Hp) as (Hfile & Htr & Hpo & _).
  destruct (sweep_promote_Some _ _ _ _ Hp) as [Hob1 Hst1].
  assert (channels_file st1 = []) as Hch1 by (by destruct Hst1 as [->| ->]).
  cbv zeta. unfold outbox_iteration. simpl. rewrite Hfile, Htr, Hpo.
  rewrite (dispatch_all_empty_registry E C ob1 _ Hch1). simpl.
  split; [by destruct Hst1 as [->| ->]|].
  split; [by destruct Hst1 as [->| ->]|].
  split; [|intros Hq; apply Hq].
  intros i e Hi Hs Hkind.
  rewrite Hob1, !list_lookup_fmap, Hi. simpl. do 2 f_equal.
  pose proof (mark_entry_payload E (clock st) e) as (Hty & Hfrom & Hmsg & _).
  unfold dispatch_entry, broadcast_copy. rewrite Hch1, Hs, Hty.
  rewrite decide_True by done.
  destruct Hkind as [->|(-> & [f Hf] & [m Hm'])].
  - rewrite decide_False by discriminate. rewrite decide_True by done. done.
  - rewrite decide_True by done. by rewrite Hfrom, Hmsg, Hf, Hm'.
Qed.

(** An instance: a due entry, no channel registered. *)
Lemma outbox_iteration_empty_registry_witness :
  let st := fresh_state [] [due_entry] in
  let st' := outbox_iteration (quiet_env always_ok) default_config st in
  trace st' = [] ∧ posts_file st' = []
  ∧ e_status <$> outbox_file (outbox_try (quiet_env always_ok) default_config st)
                 !! 0%nat = Some (Some "sent").
Proof.
  destruct (outbox_iteration_empty_registry (quiet_env always_ok) default_config
              (fresh_state [] [due_entry]) eq_refl ltac:(by eexists))
    as (Ht & Hp & Hs & _).
  split; [exact Ht|]. split; [exact Hp|].
  apply (Hs 0%nat due_entry); [reflexivity | reflexivity |].
  right. split; [reflexivity|]. split; by eexists.
Defined.

(** * Properties of runs *)

(** ** The ledger only grows *)

Lemma broadcast_copy_posts_prefix E C from_chat_id message_id origin st :
  posts_file st
  `prefix_of` posts_file (snd (broadcast_copy E C from_chat_id message_id origin st)).
Proof.
  unfold broadcast_copy.
  destruct (channels_file st) as [|c rest]; [done|].
  destruct (for_channels E C (c :: rest) [] st) as [res st1] eqn:Hfor.
  destruct (for_channels_frame _ _ _ _ _ _ _ Hfor) as (Hp & _).
  simpl. rewrite Hp. by apply prefix_app_r.
Qed.

Lemma dispatch_entry_posts_prefix E C e st :
  posts_file st `prefix_of` posts_file (snd (dispatch_entry E C e st)).
Proof.
  unfold dispatch_entry, write_log.
  case_decide; [|done]. case_decide.
  - destruct (e_from_chat_id e) as [f|], (e_message_id e) as [m|]; simpl; try done.
    pose proof (broadcast_copy_posts_prefix E C f m (e_origin_admin e) st).
    by destruct (broadcast_copy _ _ _ _ _ _).
  - case_decide; [|done].
    destruct (file_sends_spec E e (channels_file st) [] st)
      as (_ & _ & _ & _ & _ & _ & _ & _ & Hp & _).
    destruct (file_sends _ _ _ _ _). simpl in *. by rewrite Hp.
Qed.

Lemma dispatch_all_posts_prefix E C ob st :
  posts_file st `prefix_of` posts_file (snd (dispatch_all E C ob st)).
Proof.
  revert st. induction ob as [|e ob IH]; intros st; simpl; [done|].
  pose proof (dispatch_entry_posts_prefix E C e st) as H1.
  destruct (dispatch_entry E C e st) as [e' st1].
  specialize (IH st1). destruct (dispatch_all E C ob st1) as [ob' st2].
  simpl in *. by etrans.
Qed.

Lemma run_request_posts_prefix E C r st :
  posts_file st `prefix_of` posts_file (run_request E C r st).
Proof.
  destruct r; simpl.
  - done.
  - apply broadcast_copy_posts_prefix.
  - unfold add_channel. by case_decide.
  - unfold remove_channel. by case_decide.
  - unfold outbox_iteration, outbox_try, sweep_promote, write_log.
    destruct (mark_due _ _ _ _) as [[ob c]|]; [|done].
    pose proof (dispatch_all_posts_prefix E C ob
                  (if c then set_outbox_file ob st else st)) as H.
    destruct (dispatch_all _ _ _ _) as [ob2 st2]. simpl in *.
    by destruct c.
Qed.

(** X11.  The ledger is append-only: whatever requests and sweeps are
    served, the entries already in [posts.json] stay where they are,
    unchanged, and new ones are only added after them. *)
Theorem run_requests_ledger_append_only E C rs st :
  posts_file st `prefix_of` posts_file (run_requests E C rs st).
Proof.
  unfold run_requests. revert st.
  induction rs as [|r rs IH]; intros st; simpl; [done|].
  etrans; [apply (run_request_posts_prefix E C r) | apply IH].
Qed.

(** ** The registry holds no channel twice *)

(** A property [R] of the registry that the other coroutines keep, and
    that removing a channel keeps, is kept by a broadcast and by a
    sweep. *)
Section RegistryInvariant.

Context (E : env) (C : config) (R : list string → Prop).
Hypothesis R_tasks : ∀ n l, R l → R (other_tasks E n l).
Hypothesis R_remove : ∀ x l, R l → R (remove_first x l).

Lemma sleep_keeps d st : R (channels_file st) → R (channels_file (sleep E d st)).
Proof. apply R_tasks. Qed.

Lemma call_transport_keeps ch st :
  R (channels_file st) → R (channels_file (snd (call_transport E ch st))).
Proof. apply R_tasks. Qed.

Lemma cooldown_wait_keeps ch st :
  R (channels_file st) → R (channels_file (cooldown_wait E C ch st)).
Proof.
  unfold cooldown_wait. destruct (last_sent_times st !! ch) as [t|]; [|done].
  case_decide; [done|]. destruct (_ <? _); [apply sleep_keeps | done].
Qed.

Lemma send_attempt_keeps ch lv st :
  R (channels_file st) → R (channels_file (snd (send_attempt E C ch lv st))).
Proof.
  intros HR. pose proof (call_transport_keeps ch st HR) as HR1.
  unfold send_attempt. destruct (call_transport E ch st) as [[|name msg] st1]; [done|].
  simpl in HR1. unfold write_log, remove_channel.
  case_decide; [|by apply sleep_keeps].
  destruct (REMOVE_ON_FORBIDDEN C && _); [|by apply sleep_keeps].
  simpl. case_decide; simpl; [by apply R_remove | done].
Qed.

Lemma send_loop_keeps ch fuel lv st :
  R (channels_file st) → R (channels_file (snd (send_loop E C ch fuel lv st))).
Proof.
  revert lv st. induction fuel as [|fuel IH]; intros lv st HR; simpl.
  - by destruct (_ <? _).
  - destruct (_ <? _); [|done].
    pose proof (send_attempt_keeps ch lv st HR) as HR1.
    destruct (send_attempt E C ch lv st) as [[[|] lv1] st1]; [done|].
    by apply IH.
Qed.

Lemma send_to_channel_keeps ch res st :
  R (channels_file st) → R (channels_file (snd (send_to_channel E C ch res st))).
Proof.
  intros HR. unfold send_to_channel.
  pose proof (send_loop_keeps ch (Z.to_nat (SEND_RETRY_COUNT C)) (Locals 0 false res)
                _ (cooldown_wait_keeps ch st HR)) as HR2.
  destruct (send_loop _ _ _ _ _ _) as [lv st2]. by apply R_tasks.
Qed.

Lemma for_channels_keeps channels res st :
  R (channels_file st) → R (channels_file (snd (for_channels E C channels res st))).
Proof.
  revert res st. induction channels as [|ch rest IH]; intros res st HR; simpl; [done|].
  pose proof (send_to_channel_keeps ch res st HR) as HR1.
  destruct (send_to_channel E C ch res st) as [res1 st1]. by apply IH.
Qed.

Lemma broadcast_copy_keeps from_chat_id message_id origin st :
  R (channels_file st) →
  R (channels_file (snd (broadcast_copy E C from_chat_id message_id origin st))).
Proof.
  intros HR. unfold broadcast_copy.
  pose proof (for_channels_keeps (channels_file st) [] st HR) as HR1.
  destruct (channels_file st) as [|c rest] eqn:Hch.
  - unfold write_log. simpl. by rewrite Hch.
  - by destruct (for_channels _ _ _ _ _).
Qed.

Lemma file_sends_keeps e channels res st :
  R (channels_file st) → R (channels_file (snd (file_sends E e channels res st))).
Proof.
  revert res st. induction channels as [|ch rest IH]; intros res st HR; [done|].
  cbn [file_sends]. cbv zeta.
  pose proof (call_transport_keeps ch st HR) as HR1.
  destruct (match e_file_path e with
            | Some fp => if decide (fp = EmptyString) then None else Some fp
            | None => None
            end) as [fp|].
  - destruct (open_error E fp) as [msg|].
    + by apply IH.
    + destruct (call_transport E ch st) as [[|name msg] st1]; by apply IH.
  - destruct (call_transport E ch st) as [[|name msg] st1]; by apply IH.
Qed.

Lemma dispatch_entry_keeps e st :
  R (channels_file st) → R (channels_file (snd (dispatch_entry E C e st))).
Proof.
  intros HR. unfold dispatch_entry, write_log.
  case_decide; [|done]. case_decide.
  - destruct (e_from_chat_id e) as [f|], (e_message_id e) as [m|]; try done.
    pose proof (broadcast_copy_keeps f m (e_origin_admin e) st HR).
    by destruct (broadcast_copy _ _ _ _ _ _).
  - case_decide; [|done].
    pose proof (file_sends_keeps e (channels_file st) [] st HR).
    by destruct (file_sends _ _ _ _ _).
Qed.

Lemma dispatch_all_keeps ob st :
  R (channels_file st) → R (channels_file (snd (dispatch_all E C ob st))).
Proof.
  revert st. induction ob as [|e ob IH]; intros st HR; simpl; [done|].
  pose proof (dispatch_entry_keeps e st HR) as HR1.
  destruct (dispatch_entry E C e st) as [e' st1].
  specialize (IH st1 HR1). by destruct (dispatch_all E C ob st1).
Qed.

Lemma outbox_iteration_keeps st :
  R (channels_file st) → R (channels_file (outbox_iteration E C st)).
Proof.
  intros HR. unfold outbox_iteration. apply sleep_keeps.
  unfold outbox_try, sweep_promote, write_log.
  destruct (mark_due _ _ _ _) as [[ob c]|]; [|done].
  pose proof (dispatch_all_keeps ob (if c then set_outbox_file ob st else st)) as H.
  destruct (dispatch_all _ _ _ _) as [ob2 st2]. simpl in *.
  apply H. by destruct c.
Qed.

End RegistryInvariant.

Lemma remove_first_NoDup x l : NoDup l → NoDup (remove_first x l).
Proof. intros H. eapply sublist_NoDup; [exact H | apply remove_first_sublist]. Qed.

(** X12.  If the registry holds no channel twice, and the other
    coroutines never put one in twice, then it holds no channel twice
    after any run of requests and sweeps. *)
Theorem run_requests_registry_nodup E C rs st :
  (∀ n l, NoDup l → NoDup (other_tasks E n l)) →
  NoDup (channels_file st) →
  NoDup (channels_file (run_requests E C rs st)).
Proof.
  intros Htasks. unfold run_requests. revert st.
  induction rs as [|r rs IH]; intros st Hnd; simpl; [done|].
  apply IH. destruct r; cbn [run_request].
  - done.
  - apply broadcast_copy_keeps; [done | intros; by apply remove_first_NoDup | done].
  - unfold add_channel. case_decide as Hin; [done|]. simpl.
    apply NoDup_app. split; [done|]. split; [|apply NoDup_singleton].
    intros x Hx ->%list_elem_of_singleton. contradiction.
  - unfold remove_channel. case_decide; [|done]. simpl.
    by apply remove_first_NoDup.
  - apply outbox_iteration_keeps; [done | intros; by apply remove_first_NoDup | done].
Qed.

(** An instance: a channel is added twice, then a broadcast runs. *)
Lemma run_requests_registry_nodup_witness :
  NoDup (channels_file
           (run_requests (quiet_env always_forbidden) default_config
              [AddChannel "A"; AddChannel "B"; AddChannel "A"; Broadcast 1 2 (Some 7)]
              (fresh_state [] []))).
Proof.
  apply (run_requests_registry_nodup (quiet_env always_forbidden) default_config);
    [intros n l Hl; exact Hl | apply NoDup_nil_2].
Defined.

(** * Properties of the handlers *)

(** Settles a closed decidable goal by evaluation. *)
Ltac by_compute :=
  match goal with
  | |- ?P => apply (bool_decide_unpack P); vm_compute; exact I
  end.

(** ** The registry operations *)

Lemma remove_first_snoc x (l : list string) :
  x ∉ l → remove_first x (l ++ [x]) = l.
Proof.
  induction l as [|y l IH]; simpl; intros Hx.
  - by rewrite decide_True.
  - apply not_elem_of_cons in Hx as [Hne Hx].
    rewrite decide_False by done. by rewrite IH.
Qed.

Lemma filter_other_id (x : string) (l : list string) :
  x ∉ l → filter (λ y, y ≠ x) l = l.
Proof.
  induction l as [|y l IH]; [done|].
  intros [Hne Hx]%not_elem_of_cons.
  rewrite filter_cons_True by done. by rewrite IH.
Qed.

Lemma remove_first_filter x l :
  NoDup l → remove_first x l = filter (λ y, y ≠ x) l.
Proof.
  induction 1 as [|y l Hy Hnd IH]; simpl; [done|].
  case_decide as Hxy.
  - subst y. rewrite filter_cons_False by (intros ?; done).
    by rewrite filter_other_id.
  - rewrite filter_cons_True by done. by rewrite IH.
Qed.

(** X13.  Registering a channel twice: the first call answers [True]
    exactly when the channel was not registered and leaves it
    registered, at the end of the list if it is new; the second call
    answers [False] and changes nothing. *)
Theorem add_channel_twice_same ch st :
  let '(first, st1) := add_channel ch st in
  let '(second, st2) := add_channel ch st1 in
  first = negb (bool_decide (ch ∈ channels_file st))
  ∧ channels_file st1
    = (if first then channels_file st ++ [ch] else channels_file st)
  ∧ ch ∈ channels_file st1
  ∧ second = false
  ∧ st2 = st1.
Proof.
  unfold add_channel, write_log.
  destruct (decide (ch ∈ channels_file st)) as [Hin|Hout].
  - rewrite decide_True by done. by rewrite bool_decide_eq_true_2.
  - simpl. rewrite decide_True by (apply elem_of_app; right; by left).
    rewrite bool_decide_eq_false_2 by done. repeat split.
    apply elem_of_app. right. by left.
Qed.

(** X14.  In a registry that holds no channel twice, removing a channel
    answers [True] exactly when it was registered, and afterwards the
    channel is not registered and the others are, in their order. *)
Theorem remove_channel_removes ch st :
  NoDup (channels_file st) →
  let '(removed, st1) := remove_channel ch st in
  removed = bool_decide (ch ∈ channels_file st)
  ∧ channels_file st1 = filter (λ c, c ≠ ch) (channels_file st)
  ∧ ch ∉ channels_file st1.
Proof.
  intros Hnd. unfold remove_channel, write_log.
  destruct (decide (ch ∈ channels_file st)) as [Hin|Hout]; simpl.
  - rewrite bool_decide_eq_true_2 by done.
    rewrite remove_first_filter by done. repeat split.
    rewrite list_elem_of_filter. by intros [? _].
  - rewrite bool_decide_eq_false_2 by done.
    by rewrite filter_other_id.
Qed.

(** An instance: removing ["B"] from three channels. *)
Lemma remove_channel_removes_witness :
  let st := fresh_state ["A"; "B"; "C"] [] in
  let '(removed, st1) := remove_channel "B" st in
  removed = bool_decide ("B" ∈ channels_file st)
  ∧ channels_file st1 = filter (λ c, c ≠ "B") (channels_file st)
  ∧ "B" ∉ channels_file st1.
Proof.
  apply (remove_channel_removes "B" (fresh_state ["A"; "B"; "C"] [])).
  simpl; by_compute.
Defined.

(** ** [/addchannel] and [/removechannel] *)

(** X15.  The rewriting of a target name is idempotent, and its result
    starts with [@] or is, after its leading dashes, made of digits. *)
Theorem normalize_target_idempotent P target :
  normalize_target P (normalize_target P target) = normalize_target P target
  ∧ (startswith_at (normalize_target P target) = true
     ∨ str_isdigit P (lstrip_dash (normalize_target P target)) = true).
Proof.
  unfold normalize_target.
  destruct (startswith_at target) eqn:Hat; simpl.
  - rewrite Hat. simpl. auto.
  - destruct (str_isdigit P (lstrip_dash target)) eqn:Hd; simpl.
    + rewrite Hat, Hd. simpl. auto.
    + auto.
Qed.

Lemma say_channels E u a st :
  undisturbed E → channels_file (snd (say E u a st)) = channels_file st.
Proof. intros Hq. simpl. by rewrite Hq. Qed.

Lemma handle_addchannel_new P E admins u arg rest st :
  undisturbed E →
  u_user_id u ∈ admins → u_forward_from_chat u = None →
  u_args u = arg :: rest →
  normalize_target P arg ∉ channels_file st →
  fst (handle_addchannel P E admins u st) = [Added (normalize_target P arg)]
  ∧ channels_file (snd (handle_addchannel P E admins u st))
    = channels_file st ++ [normalize_target P arg].
Proof.
  intros Hq Hu Hfwd Hargs Hnew. unfold handle_addchannel.
  rewrite decide_True by done. rewrite Hfwd, Hargs.
  unfold add_channel, write_log. rewrite decide_False by done.
  simpl. by rewrite Hq.
Qed.

Lemma handle_removechannel_there P E admins u arg rest st :
  undisturbed E →
  u_user_id u ∈ admins → u_args u = arg :: rest →
  normalize_target P arg ∈ channels_file st →
  fst (handle_removechannel P E admins u st) = [Removed (normalize_target P arg)]
  ∧ channels_file (snd (handle_removechannel P E admins u st))
    = remove_first (normalize_target P arg) (channels_file st).
Proof.
  intros Hq Hu Hargs Hin. unfold handle_removechannel.
  rewrite decide_True by done. rewrite Hargs.
  unfold remove_channel, write_log. rewrite decide_True by done.
  simpl. by rewrite Hq.
Qed.

(** X16.  While no other coroutine touches the registry: an
    administrator who adds a channel that was not registered and then
    removes it with the same argument gets the answers "added" and
    "removed", and the registry is as before. *)
Theorem handle_add_then_remove P E admins u u' arg rest rest' st :
  undisturbed E →
  u_user_id u ∈ admins → u_user_id u' ∈ admins →
  u_forward_from_chat u = None →
  u_args u = arg :: rest → u_args u' = arg :: rest' →
  normalize_target P arg ∉ channels_file st →
  let '(a1, st1) := handle_addchannel P E admins u st in
  let '(a2, st2) := handle_removechannel P E admins u' st1 in
  a1 = [Added (normalize_target P arg)]
  ∧ a2 = [Removed (normalize_target P arg)]
  ∧ channels_file st2 = channels_file st.
Proof.
  intros Hq Hu Hu' Hfwd Hargs Hargs' Hnew.
  destruct (handle_addchannel_new P E admins u arg rest st Hq Hu Hfwd Hargs Hnew)
    as [Ha1 Hc1].
  destruct (handle_addchannel P E admins u st) as [a1 st1]. simpl in Ha1, Hc1.
  destruct (handle_removechannel_there P E admins u' arg rest' st1 Hq Hu' Hargs')
    as [Ha2 Hc2].
  { rewrite Hc1. apply elem_of_app. right. by left. }
  destruct (handle_removechannel P E admins u' st1) as [a2 st2]. simpl in Ha2, Hc2.
  repeat split; try done. by rewrite Hc2, Hc1, remove_first_snoc.
Qed.

(** An instance: [/addchannel news] and [/removechannel news]. *)
Lemma handle_add_then_remove_witness :
  let '(a1, st1) := handle_addchannel ascii_python (quiet_env always_ok) the_admins
                      (admin_update ["news"]) (fresh_state ["@old"] []) in
  let '(a2, st2) := handle_removechannel ascii_python (quiet_env always_ok)
                      the_admins (admin_update ["news"]) st1 in
  a1 = [Added "@news"] ∧ a2 = [Removed "@news"] ∧ channels_file st2 = ["@old"].
Proof.
  apply (handle_add_then_remove ascii_python (quiet_env always_ok) the_admins
           (admin_update ["news"]) (admin_update ["news"]) "news" [] []
           (fresh_state ["@old"] []));
    try reflexivity; try (intros n l; reflexivity);
    simpl; by_compute.
Defined.

(** ** Users who are not administrators *)

Lemma say_same_data E u a st : same_data st (snd (say E u a st)).
Proof. by repeat split. Qed.

Lemma serve_stranger P E C admins c st :
  u_user_id (call_update c) ∉ admins →
  same_data st (snd (serve P E C admins c st))
  ∧ (undisturbed E → channels_file (snd (serve P E C admins c st)) = channels_file st)
  ∧ (outbox_undisturbed E →
     outbox_file (snd (serve P E C admins c st)) = outbox_file st).
Proof.
  intros Hu.
  destruct c as [u|u|u|u|u|u|u]; cbn [serve call_update] in *;
    unfold handle_addchannel, handle_removechannel, handle_status, handle_stats,
      handle_analytics, handle_schedule_command, handle_message;
    rewrite decide_False by done;
    (split; [by repeat split | split; intros Hq; simpl; by rewrite ?Hq]).
Qed.

(** X17.  Calls from users who are not in [ADMIN_IDS], whatever the
    handlers and the updates, never change the ledger, the cooldown clock
    or the rejection counters, and they write neither the outbox nor the
    registry: each of the two files is as it was unless another coroutine
    has written it while a reply was being sent. *)
Theorem serve_all_strangers P E C admins cs st :
  Forall (λ c, u_user_id (call_update c) ∉ admins) cs →
  let st' := serve_all P E C admins cs st in
  posts_file st' = posts_file st
  ∧ (outbox_undisturbed E → outbox_file st' = outbox_file st)
  ∧ last_sent_times st' = last_sent_times st
  ∧ forbidden_counts st' = forbidden_counts st
  ∧ (undisturbed E → channels_file st' = channels_file st).
Proof.
  intros Hall. unfold serve_all. revert st.
  induction Hall as [|c cs Hc _ IH]; intros st; simpl; [done|].
  destruct (serve_stranger P E C admins c st Hc) as ((Hp & Hl & Hf) & Hch & Ho).
  destruct (IH (snd (serve P E C admins c st))) as (Hp' & Ho' & Hl' & Hf' & Hch').
  split; [congruence|]. split; [intros Hq; by rewrite Ho', Ho|].
  split; [congruence|]. split; [congruence|].
  intros Hq. by rewrite Hch', Hch.
Qed.

(** An instance: user 8 tries every command. *)
Lemma serve_all_strangers_witness :
  let u := Update 8 8 100 (Some "hello") None (Some (8, 99)) ["5m"] in
  let st' := serve_all ascii_python (quiet_env always_ok) default_config the_admins
               [OnAddChannel u; OnRemoveChannel u; OnSchedule u; OnMessage u;
                OnStats u]
               (fresh_state ["A"] [due_entry]) in
  posts_file st' = [] ∧ outbox_file st' = [due_entry] ∧ channels_file st' = ["A"].
Proof.
  destruct (serve_all_strangers ascii_python (quiet_env always_ok) default_config
              the_admins
              [OnAddChannel (Update 8 8 100 (Some "hello") None (Some (8, 99)) ["5m"]);
               OnRemoveChannel (Update 8 8 100 (Some "hello") None (Some (8, 99)) ["5m"]);
               OnSchedule (Update 8 8 100 (Some "hello") None (Some (8, 99)) ["5m"]);
               OnMessage (Update 8 8 100 (Some "hello") None (Some (8, 99)) ["5m"]);
               OnStats (Update 8 8 100 (Some "hello") None (Some (8, 99)) ["5m"])]
              (fresh_state ["A"] [due_entry]))
    as (Hp & Ho & _ & _ & Hc).
  - repeat constructor; simpl; by_compute.
  - split; [exact Hp|]. split; [apply Ho; intros n l; reflexivity|].
    apply Hc. intros n l. reflexivity.
Defined.

(** ** A message from an administrator *)

(** X18.  While no other coroutine touches the registry: a message of an
    administrator that is not a command, received while the registry is
    not empty, is broadcast if the first reply is delivered, and then
    exactly one ledger entry is appended, for that message and that
    administrator; if the first reply raises, nothing is sent to any
    channel and the ledger stays as it is. *)
Theorem handle_message_broadcasts E C admins u st :
  undisturbed E →
  u_user_id u ∈ admins →
  is_command u = false →
  channels_file st ≠ [] →
  let st' := snd (handle_message E C admins u st) in
  match transport E (steps st) (pretty (u_chat_id u)) with
  | Returns =>
      ∃ res t, posts_file st'
               = posts_file st ++ [Post "broadcast" (u_chat_id u) (u_message_id u)
                                        res (Some (u_user_id u)) t]
  | Raises _ _ =>
      posts_file st' = posts_file st
      ∧ map a_channel (calls_since st st') = [pretty (u_chat_id u)]
  end.
Proof.
  intros Hq Hu Hcmd Hne. unfold handle_message.
  rewrite decide_True by done. rewrite Hcmd.
  destruct (channels_file st) as [|c rest] eqn:Hch; [done|].
  unfold reply_text, call_transport. cbv zeta.
  destruct (transport E (steps st) (pretty (u_chat_id u))) as [|name msg] eqn:Htr.
  - match goal with
    | |- context [broadcast_copy E C _ _ _ ?s] => set (st1 := s)
    end.
    assert (posts_file st1 = posts_file st) as Hp1 by done.
    assert (channels_file st1 = c :: rest) as Hch1.
    { subst st1. simpl. by rewrite Hq. }
    unfold broadcast_copy. rewrite Hch1.
    destruct (for_channels E C (c :: rest) [] st1) as [res st2] eqn:Hfor.
    destruct (for_channels_frame _ _ _ _ _ _ _ Hfor) as (Hp2 & _).
    exists res, (clock st2).
    simpl. destruct (transport E (steps st2) _); simpl; f_equal; congruence.
  - simpl. split; [done|]. unfold calls_since. simpl.
    by rewrite drop_app_length.
Qed.

(** An instance: a photo sent by the administrator, two channels. *)
Lemma handle_message_broadcasts_witness :
  let u := Update 7 7 100 None None None [] in
  let st' := snd (handle_message (quiet_env always_ok) default_config the_admins u
                                 (fresh_state ["A"; "B"] [])) in
  ∃ res t, posts_file st' = [] ++ [Post "broadcast" 7 100 res (Some 7) t].
Proof.
  apply (handle_message_broadcasts (quiet_env always_ok) default_config the_admins
           (Update 7 7 100 None None None []) (fresh_state ["A"; "B"] []));
    [intros n l; reflexivity | by_compute | reflexivity | discriminate].
Defined.

(** ** [/stats] and [/analytics] *)

Lemma sends_list_concat posts : sends_list posts = concat (map p_results posts).
Proof.
  unfold sends_list.
  assert (∀ (rs acc : list result), foldl (λ a r, a ++ [r]) acc rs = acc ++ rs) as Hin.
  { induction rs as [|r rs IH]; intros acc; simpl; [by rewrite app_nil_r|].
    by rewrite IH, <- app_assoc. }
  assert (∀ acc, foldl (λ acc post, foldl (λ a r, a ++ [r]) acc (p_results post))
                       acc posts
                 = acc ++ concat (map p_results posts)) as Hout.
  { induction posts as [|p posts IH]; intros acc; simpl; [by rewrite app_nil_r|].
    by rewrite IH, Hin, <- app_assoc. }
  apply (Hout []).
Qed.

Lemma channel_stats_flat channels posts :
  channel_stats channels posts
  = foldl tally (foldl (λ d ch, dict_set ch zero_stat d) [] channels)
          (sends_list posts).
Proof.
  unfold channel_stats. rewrite sends_list_concat.
  generalize (foldl (λ d ch, dict_set ch zero_stat d) [] channels).
  induction posts as [|p posts IH]; intros d; simpl; [done|].
  by rewrite foldl_app, IH.
Qed.

Lemma dict_get_alter {V} (f : V → V) k k' (d : list (string * V)) :
  dict_get k (dict_alter f k' d)
  = if decide (k = k') then f <$> dict_get k d else dict_get k d.
Proof.
  induction d as [|[k0 v] d IH]; simpl; [by case_decide|].
  destruct (decide (k' = k0)) as [->|?]; simpl;
    destruct (decide (k = k0)) as [->|?]; simpl;
    rewrite ?IH; repeat case_decide; simplify_eq; done.
Qed.

Lemma dict_get_app {V} k (d1 d2 : list (string * V)) :
  dict_get k (d1 ++ d2)
  = match dict_get k d1 with Some v => Some v | None => dict_get k d2 end.
Proof.
  induction d1 as [|[k0 v] d1 IH]; simpl; [done|]. by case_decide.
Qed.

Lemma dict_get_set {V} k k' (v : V) (d : list (string * V)) :
  dict_get k (dict_set k' v d) = if decide (k = k') then Some v else dict_get k d.
Proof.
  induction d as [|[k0 v0] d IH]; simpl; [by case_decide|].
  destruct (decide (k' = k0)) as [->|?]; simpl;
    destruct (decide (k = k0)) as [->|?]; simpl;
    rewrite ?IH; repeat case_decide; simplify_eq; done.
Qed.

Lemma sum_stats_app f d1 d2 :
  sum_stats f (d1 ++ d2) = (sum_stats f d1 + sum_stats f d2)%nat.
Proof. unfold sum_stats. induction d1 as [|kv d1 IH]; simpl; [done|]. lia. Qed.

Lemma sum_stats_alter f g k d (n : nat) :
  is_Some (dict_get k d) →
  (∀ s, f (g s) = (f s + n)%nat) →
  sum_stats f (dict_alter g k d) = (sum_stats f d + n)%nat.
Proof.
  intros Hk Hg. induction d as [|[k0 v] d IH]; simpl in *.
  - by destruct Hk.
  - case_decide; simpl; [rewrite Hg; lia|]. rewrite IH by done. lia.
Qed.

Lemma dict_set_zero k d :
  Forall (λ kv : string * channel_stat, snd kv = zero_stat) d →
  Forall (λ kv, snd kv = zero_stat) (dict_set k zero_stat d).
Proof.
  induction 1 as [|[k0 v] d Hv Hd IH]; simpl.
  - by repeat constructor.
  - case_decide; by constructor.
Qed.

Lemma initial_stats_zero channels :
  Forall (λ kv, snd kv = zero_stat)
         (foldl (λ d ch, dict_set ch zero_stat d) [] channels)
  ∧ ∀ ch, ch ∈ channels →
      is_Some (dict_get ch (foldl (λ d ch, dict_set ch zero_stat d) [] channels)).
Proof.
  assert (∀ d0, Forall (λ kv : string * channel_stat, snd kv = zero_stat) d0 →
    Forall (λ kv, snd kv = zero_stat)
           (foldl (λ d ch, dict_set ch zero_stat d) d0 channels)
    ∧ ∀ ch, ch ∈ channels ∨ is_Some (dict_get ch d0) →
        is_Some (dict_get ch (foldl (λ d ch, dict_set ch zero_stat d) d0 channels)))
    as Hgen.
  { induction channels as [|c channels IH]; intros d0 Hd0; simpl.
    - split; [done|]. intros ch [Hin|Hk]; [by apply elem_of_nil in Hin | done].
    - destruct (IH (dict_set c zero_stat d0)) as [Hz Hk].
      { by apply dict_set_zero. }
      split; [done|]. intros ch Hch. apply Hk. rewrite dict_get_set.
      destruct (decide (ch = c)) as [->|Hne]; [right; by eexists|].
      destruct Hch as [[->|Hin]%elem_of_cons|Hsome]; [done | by left | by right]. }
  destruct (Hgen [] ltac:(constructor)) as [Hz Hk].
  split; [done|]. intros ch Hch. apply Hk. by left.
Qed.

Lemma tally_sums d r :
  sum_stats cs_total (tally d r) = S (sum_stats cs_total d)
  ∧ sum_stats cs_success (tally d r)
    = (sum_stats cs_success d + one (bool_decide (r_status r = "ok")))%nat
  ∧ sum_stats cs_failed (tally d r)
    = (sum_stats cs_failed d + one (bool_decide (r_status r ≠ "ok")))%nat.
Proof.
  unfold tally, dict_setdefault.
  set (d1 := match dict_get (r_channel r) d with
             | Some _ => d
             | None => match dict_get (r_channel r) d with
                       | Some _ => d
                       | None => d ++ [(r_channel r, zero_stat)]
                       end
             end).
  assert (is_Some (dict_get (r_channel r) d1)) as Hk1.
  { subst d1. destruct (dict_get (r_channel r) d) eqn:Hg; [by rewrite Hg|].
    rewrite dict_get_app, Hg. simpl. rewrite decide_True by done. by eexists. }
  assert (∀ f, sum_stats f d1 = (sum_stats f d + f zero_stat * 0)%nat
               ∨ sum_stats f d1 = (sum_stats f d + f zero_stat)%nat) as Hd1.
  { intros f. subst d1. destruct (dict_get (r_channel r) d); [left; lia|].
    right. rewrite sum_stats_app. unfold sum_stats at 2. simpl. lia. }
  assert (∀ f, f zero_stat = 0%nat → sum_stats f d1 = sum_stats f d) as Hsame.
  { intros f Hf. destruct (Hd1 f) as [->| ->]; lia. }
  set (d2 := dict_alter _ (r_channel r) d1).
  assert (is_Some (dict_get (r_channel r) d2)) as Hk2.
  { subst d2. rewrite dict_get_alter, decide_True by done.
    destruct Hk1 as [v ->]. by eexists. }
  assert (sum_stats cs_total d2 = S (sum_stats cs_total d)) as Ht.
  { subst d2. rewrite (sum_stats_alter _ _ _ _ 1) by (done || (intros; simpl; lia)).
    rewrite Hsame by done. lia. }
  assert (sum_stats cs_success d2 = sum_stats cs_success d) as Hs.
  { subst d2. rewrite (sum_stats_alter _ _ _ _ 0) by (done || (intros; simpl; lia)).
    rewrite Hsame by done. lia. }
  assert (sum_stats cs_failed d2 = sum_stats cs_failed d) as Hf.
  { subst d2. rewrite (sum_stats_alter _ _ _ _ 0) by (done || (intros; simpl; lia)).
    rewrite Hsame by done. lia. }
  destruct (decide (r_status r = "ok")) as [Hok|Hbad].
  - rewrite bool_decide_eq_true_2, bool_decide_eq_false_2 by (done || by intros []).
    rewrite (sum_stats_alter cs_total _ _ _ 0) by (done || (intros; simpl; lia)).
    rewrite (sum_stats_alter cs_success _ _ _ 1) by (done || (intros; simpl; lia)).
    rewrite (sum_stats_alter cs_failed _ _ _ 0) by (done || (intros; simpl; lia)).
    simpl. lia.
  - rewrite bool_decide_eq_false_2, bool_decide_eq_true_2 by done.
    rewrite (sum_stats_alter cs_total _ _ _ 0) by (done || (intros; simpl; lia)).
    rewrite (sum_stats_alter cs_success _ _ _ 0) by (done || (intros; simpl; lia)).
    rewrite (sum_stats_alter cs_failed _ _ _ 1) by (done || (intros; simpl; lia)).
    simpl. lia.
Qed.

Lemma tally_get d r k :
  dict_get k (tally d r)
  = if decide (k = r_channel r)
    then Some (bump r (stat_of k d))
    else dict_get k d.
Proof.
  unfold tally, dict_setdefault, stat_of, bump.
  set (d1 := match dict_get (r_channel r) d with
             | Some _ => d
             | None => match dict_get (r_channel r) d with
                       | Some _ => d
                       | None => d ++ [(r_channel r, zero_stat)]
                       end
             end).
  assert (dict_get k d1
          = if decide (k = r_channel r)
            then Some (default zero_stat (dict_get k d))
            else dict_get k d) as Hd1.
  { subst d1. destruct (decide (k = r_channel r)) as [->|Hne].
    - destruct (dict_get (r_channel r) d) eqn:Hg; [by rewrite Hg|].
      rewrite dict_get_app, Hg. simpl. by rewrite decide_True.
    - destruct (dict_get (r_channel r) d) eqn:Hg; [done|].
      rewrite dict_get_app. destruct (dict_get k d); [done|].
      simpl. by rewrite decide_False. }
  destruct (decide (r_status r = "ok")) as [Hok|Hbad];
    rewrite !dict_get_alter, Hd1;
    destruct (decide (k = r_channel r)) as [->|Hne]; try done; simpl.
  - rewrite bool_decide_eq_true_2, bool_decide_eq_false_2 by (done || by intros []).
    simpl. do 2 f_equal; lia.
  - rewrite bool_decide_eq_false_2, bool_decide_eq_true_2 by done.
    simpl. do 2 f_equal; lia.
Qed.

Lemma filter_length_cons {A} (P : A → Prop) `{∀ x, Decision (P x)} x l :
  length (filter P (x :: l)) = (one (bool_decide (P x)) + length (filter P l))%nat.
Proof.
  destruct (decide (P x)).
  - rewrite filter_cons_True, bool_decide_eq_true_2 by done. done.
  - rewrite filter_cons_False, bool_decide_eq_false_2 by done. done.
Qed.

Lemma foldl_tally_counts rs d :
  let d' := foldl tally d rs in
  sum_stats cs_total d' = (sum_stats cs_total d + length rs)%nat
  ∧ sum_stats cs_success d'
    = (sum_stats cs_success d + length (filter (λ r, r_status r = "ok") rs))%nat
  ∧ sum_stats cs_failed d'
    = (sum_stats cs_failed d + length (filter (λ r, r_status r ≠ "ok") rs))%nat
  ∧ (∀ k,
       cs_total (stat_of k d')
       = (cs_total (stat_of k d) + length (filter (λ r, r_channel r = k) rs))%nat
       ∧ cs_success (stat_of k d')
         = (cs_success (stat_of k d)
            + length (filter (λ r, r_channel r = k ∧ r_status r = "ok") rs))%nat
       ∧ cs_failed (stat_of k d')
         = (cs_failed (stat_of k d)
            + length (filter (λ r, r_channel r = k ∧ r_status r ≠ "ok") rs))%nat)
  ∧ (∀ k, is_Some (dict_get k d) → is_Some (dict_get k d')).
Proof.
  revert d. induction rs as [|r rs IH]; intros d; simpl.
  - repeat split; try lia. done.
  - destruct (IH (tally d r)) as (Ht & Hs & Hf & Hk & Hsome).
    destruct (tally_sums d r) as (Ht1 & Hs1 & Hf1).
    rewrite Ht, Hs, Hf, Ht1, Hs1, Hf1.
    rewrite !filter_length_cons.
    split; [lia|]. split; [lia|]. split; [lia|]. split.
    + intros k. destruct (Hk k) as (Hkt & Hks & Hkf).
      rewrite Hkt, Hks, Hkf, !filter_length_cons.
      unfold stat_of at 1 3 5. rewrite tally_get.
      destruct (decide (k = r_channel r)) as [->|Hne]; simpl.
      * rewrite (bool_decide_eq_true_2 (r_channel r = r_channel r)) by done.
        destruct (decide (r_status r = "ok")) as [Hok|Hbad].
        -- rewrite !(bool_decide_eq_true_2 (r_status r = "ok")) by done.
           rewrite (bool_decide_eq_true_2 (_ ∧ r_status r = "ok")) by done.
           rewrite !(bool_decide_eq_false_2 (r_status r ≠ "ok")) by (by intros []).
           rewrite (bool_decide_eq_false_2 (_ ∧ r_status r ≠ "ok")) by (by intros [_ []]).
           simpl. lia.
        -- rewrite !(bool_decide_eq_false_2 (r_status r = "ok")) by done.
           rewrite (bool_decide_eq_false_2 (_ ∧ r_status r = "ok")) by (by intros [_ ?]).
           rewrite !(bool_decide_eq_true_2 (r_status r ≠ "ok")) by done.
           rewrite (bool_decide_eq_true_2 (_ ∧ r_status r ≠ "ok")) by done.
           simpl. lia.
      * rewrite (bool_decide_eq_false_2 (r_channel r = k)) by done.
        rewrite (bool_decide_eq_false_2 (r_channel r = k ∧ _ = _)) by (by intros [? _]).
        rewrite (bool_decide_eq_false_2 (r_channel r = k ∧ _ ≠ _)) by (by intros [? _]).
        fold (stat_of k d). simpl. lia.
    + intros k Hkd. apply Hsome. rewrite tally_get.
      destruct (decide (k = r_channel r)); [eexists; reflexivity | exact Hkd].
Qed.

Lemma sum_stats_zero f d :
  f zero_stat = 0%nat →
  Forall (λ kv : string * channel_stat, snd kv = zero_stat) d →
  sum_stats f d = 0%nat.
Proof.
  intros Hf. induction 1 as [|[k v] d Hv _ IH]; simpl; [done|].
  simpl in Hv. subst v. rewrite Hf. exact IH.
Qed.

Lemma stat_of_zero k d :
  Forall (λ kv : string * channel_stat, snd kv = zero_stat) d →
  stat_of k d = zero_stat.
Proof.
  unfold stat_of. induction 1 as [|[k0 v] d Hv _ IH]; simpl; [done|].
  case_decide; [by simpl in Hv | done].
Qed.

(** X19.  The numbers of [/analytics] are those of the ledger, and
    agree with [/stats]: the totals over the channels are the number of
    recorded outcomes, of [ok] outcomes and of other outcomes; for each
    channel the three counters are the numbers of its outcomes, of its
    [ok] outcomes and of its other outcomes; and every channel of the
    registry has its counters, zero if the ledger never mentions it. *)
Theorem channel_stats_counts channels posts :
  let stats := channel_stats channels posts in
  let sends := sends_list posts in
  sum_stats cs_total stats = length sends
  ∧ sum_stats cs_success stats = length (filter (λ r, r_status r = "ok") sends)
  ∧ sum_stats cs_failed stats = length (filter (λ r, r_status r ≠ "ok") sends)
  ∧ (∀ k,
       cs_total (stat_of k stats) = length (filter (λ r, r_channel r = k) sends)
       ∧ cs_success (stat_of k stats)
         = length (filter (λ r, r_channel r = k ∧ r_status r = "ok") sends)
       ∧ cs_failed (stat_of k stats)
         = length (filter (λ r, r_channel r = k ∧ r_status r ≠ "ok") sends))
  ∧ (∀ ch, ch ∈ channels → is_Some (dict_get ch stats)).
Proof.
  cbv zeta. rewrite channel_stats_flat.
  destruct (initial_stats_zero channels) as [Hz Hkeys].
  destruct (foldl_tally_counts (sends_list posts)
              (foldl (λ d ch, dict_set ch zero_stat d) [] channels))
    as (Ht & Hs & Hf & Hk & Hsome).
  rewrite Ht, Hs, Hf, !sum_stats_zero by done.
  repeat split; try done.
  - destruct (Hk k) as (-> & _ & _). by rewrite stat_of_zero.
  - destruct (Hk k) as (_ & -> & _). by rewrite stat_of_zero.
  - destruct (Hk k) as (_ & _ & ->). by rewrite stat_of_zero.
  - intros ch Hch. apply Hsome. by apply Hkeys.
Qed.

(** ** [/schedule] *)

Lemma replace_time_bounds dt h mi t :
  replace_time dt h mi = Some t →
  dt - dt `mod` day_ms ≤ t < dt - dt `mod` day_ms + day_ms.
Proof.
  unfold replace_time, day_ms.
  destruct (Z.leb_spec 0 h), (Z.leb_spec h 23), (Z.leb_spec 0 mi), (Z.leb_spec mi 59);
    simpl; try done.
  intros [= <-]. lia.
Qed.

Lemma add_delta_eq dt d t : add_delta dt d = Some t → t = dt + d.
Proof. unfold add_delta. destruct (_ && _); [by intros [= <-] | done]. Qed.

Lemma parsed_of_eq o dt : parsed_of o = ParsedAt dt → o = Some dt.
Proof. destruct o; simpl; [by intros [= ->] | done]. Qed.

(** X20.  A time given as [HH:MM] is never scheduled in the past and
    always less than a day ahead; a time given with [tomorrow] is
    scheduled after now and less than two days ahead (times are the
    naive local times of [datetime.now()]). *)
Theorem parse_when_absolute P now time_str dt :
  endswith "m" time_str = false →
  endswith "h" time_str = false →
  parse_when P now time_str = ParsedAt dt →
  if contains "tomorrow" (str_lower P time_str)
  then now < dt < now + 2 * day_ms
  else now ≤ dt < now + day_ms.
Proof.
  intros Hm Hh. unfold parse_when. rewrite Hm, Hh.
  pose proof (Z.mod_pos_bound now day_ms ltac:(done)) as Hmod.
  destruct (contains "tomorrow" (str_lower P time_str)).
  - destruct (contains ":" _).
    + destruct (hour_minute P _) as [[hour minute]|]; [|done].
      destruct (add_delta now day_ms) as [dt1|] eqn:Hadd; [|done].
      apply add_delta_eq in Hadd. subst dt1.
      intros Hr%parsed_of_eq%replace_time_bounds.
      pose proof (Z.mod_pos_bound (now + day_ms) day_ms ltac:(done)).
      unfold day_ms in *. lia.
    + intros Hr%parsed_of_eq%add_delta_eq. unfold day_ms in *. lia.
  - destruct (contains ":" time_str); [|done].
    destruct (hour_minute P _) as [[hour minute]|]; [|done].
    destruct (replace_time now hour minute) as [dt1|] eqn:Hrep; [|done].
    apply replace_time_bounds in Hrep.
    destruct (Z.ltb_spec dt1 now).
    + intros Hr%parsed_of_eq%add_delta_eq. unfold day_ms in *. lia.
    + intros [= <-]. unfold day_ms in *. lia.
Qed.

(** An instance: [/schedule 09:05] given at noon is for the next day. *)
Lemma parse_when_absolute_witness :
  let now := 738000 * day_ms + 12 * 3600000 in
  now ≤ 738001 * day_ms + 9 * 3600000 + 5 * 60000 < now + day_ms.
Proof.
  apply (parse_when_absolute ascii_python (738000 * day_ms + 12 * 3600000)
           "09:05" (738001 * day_ms + 9 * 3600000 + 5 * 60000));
    reflexivity.
Defined.

Lemma mark_due_succeeds E now ob changed :
  parseable E ob → is_Some (mark_due E now ob changed).
Proof.
  intros Hall. revert changed.
  induction Hall as [|e ob He _ IH]; intros changed; simpl; [by eexists|].
  case_decide as Hp.
  - destruct (He Hp) as [t ->].
    destruct (t <=? now).
    + destruct (IH true) as [[r c] ->]. by eexists.
    + destruct (IH changed) as [[r c] ->]. by eexists.
  - destruct (IH changed) as [[r c] ->]. by eexists.
Qed.

(** X21.  An administrator replies to a message with a [/schedule]
    whose time is not in the future, and the request is served between
    two sweeps: the sweep that follows loads the file after the handler
    has saved it.  If the timestamp written to the outbox reads back as
    the same instant, no [pending] entry of the outbox has an unreadable
    [send_at], and the other coroutines only append readable entries,
    then the handler appends one entry, [pending], and the file the next
    sweep saves at line 809 holds that entry at the same index, marked
    [sent], its payload being the message replied to.  (A request served
    while a sweep is suspended is outside this statement: its entry is
    overwritten by the save of that sweep, as in the run of
    [sweep_overwrites_schedule].) *)
Theorem schedule_then_sweep P E C admins u chat_id message_id dt st :
  appends_readable E →
  u_user_id u ∈ admins →
  u_reply_to_message u = Some (chat_id, message_id) →
  u_args u ≠ [] →
  parse_when P (local_of_instant P (clock st)) (join_spaces (u_args u))
  = ParsedAt dt →
  instant_of_local P dt ≤ clock st →
  fromisoformat E (isoformat E (instant_of_local P dt))
  = Some (instant_of_local P dt) →
  parseable E (outbox_file st) →
  let st1 := snd (handle_schedule_command P E admins u st) in
  let n := length (outbox_file st) in
  (∃ e, outbox_file st1 !! n = Some e ∧ e_status e = Some "pending")
  ∧ ∃ e, outbox_file (outbox_try E C st1) !! n = Some e
      ∧ e_status e = Some "sent"
      ∧ e_type e = Some "copy"
      ∧ e_from_chat_id e = Some chat_id
      ∧ e_message_id e = Some message_id
      ∧ e_origin_admin e = Some (u_user_id u).
Proof.
  intros Happ Hu Hreply Hargs Hparse Hdue Hround Hob.
  set (t := instant_of_local P dt) in *.
  set (entry := Entry (Some "copy") (Some chat_id) (Some message_id)
                      (Some (isoformat E t)) (Some "pending")
                      (Some (u_user_id u)) None None None None None).
  assert (∃ es, outbox_file (snd (handle_schedule_command P E admins u st))
                = (outbox_file st ++ [entry]) ++ es
                ∧ parseable E es
                ∧ clock st ≤ clock (snd (handle_schedule_command P E admins u st)))
    as (es & Hfile & Hes & Hclock).
  { unfold handle_schedule_command. rewrite decide_True by done.
    rewrite Hreply. destruct (u_args u) as [|a args] eqn:Ha; [done|].
    rewrite Hparse. fold t. simpl. fold entry.
    destruct (Happ (steps st) (outbox_file st ++ [entry])) as (es & Heq & Hes).
    exists es. split; [exact Heq|]. split; [done | lia]. }
  cbv zeta.
  set (st1 := snd (handle_schedule_command P E admins u st)) in *.
  assert (outbox_file st1 !! length (outbox_file st) = Some entry) as Hn.
  { rewrite Hfile, lookup_app_l by (rewrite length_app; simpl; lia).
    by rewrite list_lookup_middle. }
  split; [by exists entry|].
  assert (parseable E (outbox_file st1)) as Hob1.
  { rewrite Hfile. apply Forall_app. split; [|done].
    apply Forall_app. split; [done|].
    constructor; [|done]. intros _. unfold parse_send_at. simpl.
    rewrite Hround. by eexists. }
  destruct (mark_due_succeeds E (clock st1) (outbox_file st1) false Hob1)
    as [[ob c] Hm].
  assert (sweep_promote E st1
          = Some (ob, if c then set_outbox_file ob st1 else st1)) as Hp.
  { unfold sweep_promote. by rewrite Hm. }
  destruct (outbox_try_file E C st1 _ _ Hp) as (-> & _).
  assert (ob !! length (outbox_file st) = Some (set_status "sending" entry)) as Hsending.
  { rewrite (mark_due_map _ _ _ _ _ _ Hm), list_lookup_fmap, Hn. simpl. f_equal.
    unfold mark_entry, parse_send_at. simpl. rewrite Hround.
    destruct (Z.leb_spec t (clock st1)); [done | lia]. }
  match goal with
  | |- context [dispatch_all E C ?o ?s] =>
      pose proof (dispatch_all_entries E C o s) as Hd
  end.
  destruct (Forall2_lookup_l _ _ _ _ _ Hd Hsending) as (e' & He' & st0 & ->).
  eexists. split; [exact He'|].
  unfold dispatch_entry. simpl.
  destruct (broadcast_copy _ _ _ _ _ _). by simpl.
Qed.

(** An instance: [/schedule 0m]. *)
Lemma schedule_then_sweep_witness :
  let E := Env always_ok (λ _, 0) (λ _, 0) (λ _ l, l) (λ _ l, l)
               (λ s, if decide (s = "2024-03-09T16:00:00+00:00")
                     then Some 1710000000000 else None)
               (λ _, "2024-03-09T16:00:00+00:00") (λ _, None) in
  let st1 := snd (handle_schedule_command ascii_python E the_admins
                    (admin_update ["0m"]) (fresh_state ["A"] [])) in
  (∃ e, outbox_file st1 !! 0%nat = Some e ∧ e_status e = Some "pending")
  ∧ ∃ e, outbox_file (outbox_try E default_config st1) !! 0%nat = Some e
      ∧ e_status e = Some "sent" ∧ e_type e = Some "copy"
      ∧ e_from_chat_id e = Some 7 ∧ e_message_id e = Some 99
      ∧ e_origin_admin e = Some 7.
Proof.
  apply (schedule_then_sweep ascii_python
           (Env always_ok (λ _, 0) (λ _, 0) (λ _ l, l) (λ _ l, l)
                (λ s, if decide (s = "2024-03-09T16:00:00+00:00")
                      then Some 1710000000000 else None)
                (λ _, "2024-03-09T16:00:00+00:00") (λ _, None))
           default_config the_admins (admin_update ["0m"]) 7 99
           (1710000000000 + 719162 * day_ms) (fresh_state ["A"] []));
    try reflexivity; try discriminate; try by_compute.
  intros n l. exists []. split; [by rewrite app_nil_r | constructor].
Defined.

(** * The pacing between channels *)

Lemma StronglySorted_app_2 {A} (R : A → A → Prop) l1 l2 :
  StronglySorted R l1 → StronglySorted R l2 →
  Forall (λ a, Forall (R a) l2) l1 →
  StronglySorted R (l1 ++ l2).
Proof.
  induction 1 as [|a l1 Hs IH Ha]; intros H2 Hall; simpl; [done|].
  apply Forall_cons in Hall as [Ha2 Hall].
  constructor; [by apply IH|]. by apply Forall_app.
Qed.

Lemma send_loop_sorted E C ch fuel lv st lv' st' d :
  send_loop E C ch fuel lv st = (lv', st') →
  ∃ tr, trace st' = trace st ++ tr
    ∧ StronglySorted (paced d) tr
    ∧ Forall (λ a, a_channel a = ch ∧ clock st ≤ a_time a ∧ a_time a ≤ clock st') tr.
Proof.
  revert lv st. induction fuel as [|fuel IH]; intros lv st; simpl.
  - destruct (_ <? _); intros [= <- <-]; exists []; rewrite app_nil_r;
      repeat split; constructor.
  - destruct (_ <? _).
    2:{ intros [= <- <-]; exists []; rewrite app_nil_r; repeat split; constructor. }
    destruct (send_attempt E C ch lv st) as [[ctl lv1] st1] eqn:Hs.
    destruct (send_attempt_frame _ _ _ _ _ _ _ _ Hs) as (_ & _ & Hc & Ht).
    destruct ctl.
    + intros [= <- <-]. eexists. split; [exact Ht|]. split.
      * repeat constructor.
      * repeat constructor; simpl; lia.
    + intros Hloop.
      destruct (send_loop_frame _ _ _ _ _ _ _ _ Hloop) as (_ & _ & Hc' & _).
      destruct (IH _ _ Hloop) as (tr & Ht' & Hsorted & Hall).
      exists (Attempt ch (clock st) (transport E (steps st) ch) :: tr).
      split; [by rewrite Ht', Ht, <- app_assoc|]. split.
      * constructor; [done|].
        eapply Forall_impl; [exact Hall|]. intros a (Hch & Hlo & _).
        split; simpl; [lia | by rewrite Hch].
      * constructor; [simpl; repeat split; lia|].
        eapply Forall_impl; [exact Hall|]. simpl. intros a (? & ? & ?).
        repeat split; [done | lia | done].
Qed.

Lemma send_to_channel_paced E C ch res st res' st' :
  (∀ n, 0 ≤ uniform E n) →
  send_to_channel E C ch res st = (res', st') →
  ∃ tr, trace st' = trace st ++ tr
    ∧ StronglySorted (paced (INTER_SEND_DELAY C)) tr
    ∧ clock st ≤ clock st'
    ∧ Forall (λ a, clock st ≤ a_time a ∧ a_time a ≤ clock st'
                   ∧ a_time a + INTER_SEND_DELAY C ≤ clock st') tr.
Proof.
  intros Hj. unfold send_to_channel.
  destruct (cooldown_wait_frame E C ch st) as (_ & _ & _ & Ht & Hc).
  destruct (send_loop _ _ _ _ _ _) as [lv st2] eqn:Hloop.
  destruct (send_loop_frame _ _ _ _ _ _ _ _ Hloop) as (_ & _ & Hc2 & _).
  destruct (send_loop_sorted _ _ _ _ _ _ _ _ (INTER_SEND_DELAY C) Hloop)
    as (tr & Ht' & Hsorted & Hall).
  intros [= <- <-]. exists tr. simpl.
  specialize (Hj (steps st2)).
  split; [by rewrite Ht', Ht|]. split; [done|]. split; [lia|].
  eapply Forall_impl; [exact Hall|]. simpl. intros a (_ & ? & ?). lia.
Qed.

Lemma for_channels_paced E C channels res st res' st' prev :
  (∀ n, 0 ≤ uniform E n) →
  for_channels E C channels res st = (res', st') →
  StronglySorted (paced (INTER_SEND_DELAY C)) prev →
  Forall (λ a, a_time a ≤ clock st ∧ a_time a + INTER_SEND_DELAY C ≤ clock st) prev →
  ∃ tr, trace st' = trace st ++ tr
    ∧ StronglySorted (paced (INTER_SEND_DELAY C)) (prev ++ tr).
Proof.
  intros Hj. revert res st prev.
  induction channels as [|ch rest IH]; intros res st prev; simpl.
  - intros [= <- <-] Hs _. exists []. by rewrite !app_nil_r.
  - destruct (send_to_channel E C ch res st) as [res1 st1] eqn:H1.
    destruct (send_to_channel_paced _ _ _ _ _ _ _ Hj H1)
      as (tr1 & Ht1 & Hs1 & Hc1 & Hall1).
    intros H2 Hprev Hbound.
    destruct (IH _ _ (prev ++ tr1) H2) as (tr2 & Ht2 & Hs2).
    + apply StronglySorted_app_2; [done..|].
      eapply Forall_impl; [exact Hbound|]. intros a [Ha Ha'].
      eapply Forall_impl; [exact Hall1|]. intros b (Hb & _ & _).
      split; simpl; lia.
    + apply Forall_app. split.
      * eapply Forall_impl; [exact Hbound|]. simpl. intros a [? ?]. lia.
      * eapply Forall_impl; [exact Hall1|]. simpl. intros a (? & ? & ?). lia.
    + exists (tr1 ++ tr2). split.
      * by rewrite Ht2, Ht1, <- app_assoc.
      * by rewrite app_assoc.
Qed.

(** X22.  When the jitter samples are not negative, the calls of a
    broadcast are made in the order of their times, and a call to one
    channel comes at least [INTER_SEND_DELAY] after every earlier call
    of the broadcast to another channel. *)
Theorem broadcast_copy_paced E C from_chat_id message_id origin st :
  (∀ n, 0 ≤ uniform E n) →
  let st' := snd (broadcast_copy E C from_chat_id message_id origin st) in
  StronglySorted (paced (INTER_SEND_DELAY C)) (calls_since st st').
Proof.
  intros Hj. unfold broadcast_copy.
  destruct (channels_file st) as [|c rest] eqn:Hch.
  - simpl. unfold write_log, calls_since. rewrite drop_all. constructor.
  - destruct (for_channels E C (c :: rest) [] st) as [res st1] eqn:Hfor.
    destruct (for_channels_paced _ _ _ _ _ _ _ [] Hj Hfor) as (tr & Ht & Hs);
      [constructor..|].
    simpl. unfold calls_since. simpl. by rewrite Ht, drop_app_length.
Qed.

(** An instance: two channels, the default delay of 350 milliseconds. *)
Lemma broadcast_copy_paced_witness :
  StronglySorted (paced 350)
    [Attempt "A" 1710000000000 Returns; Attempt "B" 1710000000350 Returns].
Proof.
  apply (broadcast_copy_paced (quiet_env always_ok) default_config 1 2 (Some 7)
           (fresh_state ["A"; "B"] [])).
  intros n. simpl. lia.
Defined.

(** ** The outbox: what a sweep dispatches *)

Lemma broadcast_copy_trace_prefix E C from_chat_id message_id origin st :
  trace st
  `prefix_of` trace (snd (broadcast_copy E C from_chat_id message_id origin st)).
Proof.
  unfold broadcast_copy.
  destruct (channels_file st) as [|c rest]; [done|].
  destruct (for_channels E C (c :: rest) [] st) as [res st1] eqn:Hfor.
  destruct (for_channels_trace _ _ _ _ _ _ _ Hfor) as (tr & ks & Ht & _).
  simpl. rewrite Ht. by apply prefix_app_r.
Qed.

Lemma dispatch_entry_trace_prefix E C e st :
  trace st `prefix_of` trace (snd (dispatch_entry E C e st)).
Proof.
  unfold dispatch_entry, write_log.
  case_decide; [|done]. case_decide.
  - destruct (e_from_chat_id e) as [f|], (e_message_id e) as [m|]; simpl; try done.
    pose proof (broadcast_copy_trace_prefix E C f m (e_origin_admin e) st).
    by destruct (broadcast_copy _ _ _ _ _ _).
  - case_decide; [|done].
    destruct (file_sends_spec E e (channels_file st) [] st)
      as (rs & tr & _ & _ & _ & Ht & _).
    destruct (file_sends _ _ _ _ _). simpl in *. rewrite Ht. by apply prefix_app_r.
Qed.

Lemma dispatch_all_trace_prefix E C ob st :
  trace st `prefix_of` trace (snd (dispatch_all E C ob st)).
Proof.
  revert st. induction ob as [|e ob IH]; intros st; simpl; [done|].
  pose proof (dispatch_entry_trace_prefix E C e st) as H1.
  destruct (dispatch_entry E C e st) as [e' st1].
  specialize (IH st1). destruct (dispatch_all E C ob st1) as [ob' st2].
  simpl in *. by etrans.
Qed.

(** The second loop, seen from one entry of its list: the entry is
    dispatched from some state [sa] the loop has reached, and what the
    dispatch logs and records is part of what the loop logs and
    records. *)
Lemma dispatch_all_lookup E C ob st i e :
  ob !! i = Some e →
  ∃ sa,
    fst (dispatch_all E C ob st) !! i = Some (fst (dispatch_entry E C e sa))
    ∧ trace st `prefix_of` trace sa
    ∧ posts_file st `prefix_of` posts_file sa
    ∧ trace (snd (dispatch_entry E C e sa))
      `prefix_of` trace (snd (dispatch_all E C ob st))
    ∧ posts_file (snd (dispatch_entry E C e sa))
      `prefix_of` posts_file (snd (dispatch_all E C ob st)).
Proof.
  revert st i. induction ob as [|x ob IH]; intros st i Hi; [done|].
  destruct i as [|i]; simpl in Hi.
  - injection Hi as ->. exists st. simpl.
    pose proof (dispatch_all_trace_prefix E C ob (snd (dispatch_entry E C e st))) as Ht.
    pose proof (dispatch_all_posts_prefix E C ob (snd (dispatch_entry E C e st))) as Hp.
    destruct (dispatch_entry E C e st) as [e' st1]. simpl in Ht, Hp.
    destruct (dispatch_all E C ob st1) as [ob' st2]. simpl in *.
    by repeat split.
  - simpl.
    pose proof (dispatch_entry_trace_prefix E C x st) as Ht.
    pose proof (dispatch_entry_posts_prefix E C x st) as Hp.
    destruct (dispatch_entry E C x st) as [x' st1].
    destruct (IH st1 i Hi) as (sa & Hl & Hta & Hpa & Htb & Hpb).
    destruct (dispatch_all E C ob st1) as [ob' st2]. simpl in *.
    exists sa. repeat split; try done; by etrans.
Qed.

(** When a send is attempted at all, the broadcast loop calls every
    channel of its list. *)
Lemma for_channels_calls_each E C channels res st ch :
  0 < SEND_RETRY_COUNT C →
  ch ∈ channels →
  ∃ a, a ∈ calls_since st (snd (for_channels E C channels res st))
    ∧ a_channel a = ch.
Proof.
  intros Hretry. revert res st.
  induction channels as [|c rest IH]; intros res st Hin; [by apply elem_of_nil in Hin|].
  simpl. destruct (send_to_channel E C c res st) as [res1 st1] eqn:H1.
  destruct (send_to_channel_frame _ _ _ _ _ _ _ H1)
    as (_ & _ & tr1 & Ht1 & Hall & _ & Hone).
  destruct (for_channels E C rest res1 st1) as [res2 st2] eqn:H2.
  destruct (for_channels_trace _ _ _ _ _ _ _ H2) as (tr2 & ks & Ht2 & _).
  simpl. unfold calls_since. rewrite Ht2, Ht1, <- app_assoc, drop_app_length.
  apply elem_of_cons in Hin as [->|Hin].
  - destruct tr1 as [|a tr1]; [specialize (Hone Hretry); simpl in Hone; lia|].
    exists a. split; [by left|]. by apply Forall_cons in Hall as [[? _] _].
  - destruct (IH res1 st1 Hin) as (a & Ha & Hch). exists a. split; [|done].
    apply elem_of_app. right.
    revert Ha. rewrite H2. simpl. unfold calls_since.
    by rewrite Ht2, drop_app_length.
Qed.

(** When every file opens, the direct sends call each channel once, in
    the order of the list. *)
Lemma file_sends_trace E e channels res st :
  (∀ fp, e_file_path e = Some fp → fp ≠ EmptyString → open_error E fp = None) →
  ∃ tr, trace (snd (file_sends E e channels res st)) = trace st ++ tr
    ∧ map a_channel tr = channels.
Proof.
  intros Hopen. revert res st.
  induction channels as [|ch rest IH]; intros res st.
  - exists []. by rewrite app_nil_r.
  - assert (∃ tr, trace (snd (
              match call_transport E ch st with
              | (Returns, st1) => file_sends E e rest (res ++ [Result ch "ok" None]) st1
              | (Raises _ msg, st1) =>
                  file_sends E e rest (res ++ [Result ch "error" (Some msg)])
                    (write_log (LogRecord "send" (Some "error") (Some ch)) st1)
              end)) = trace st ++ tr ∧ map a_channel tr = ch :: rest) as Hcall.
    { unfold call_transport, write_log.
      destruct (transport E (steps st) ch) as [|name msg];
        match goal with
        | |- context [file_sends E e rest ?r ?s] =>
            destruct (IH r s) as (tr & Ht & Hm)
        end;
        eexists (_ :: tr); rewrite Ht; simpl; rewrite <- app_assoc;
        (split; [reflexivity | by rewrite Hm]). }
    simpl.
    destruct (e_file_path e) as [fp|] eqn:Hfp; [|exact Hcall].
    case_decide as Hne; [exact Hcall|].
    rewrite (Hopen fp eq_refl Hne). exact Hcall.
Qed.

Lemma file_sends_calls E e channels res st :
  (∀ fp, e_file_path e = Some fp → fp ≠ EmptyString → open_error E fp = None) →
  map a_channel (calls_since st (snd (file_sends E e channels res st))) = channels.
Proof.
  intros Hopen.
  destruct (file_sends_trace E e channels res st Hopen) as (tr & Ht & Hm).
  unfold calls_since. by rewrite Ht, drop_app_length.
Qed.

(** A dispatched entry goes out. *)
Lemma dispatch_entry_delivered E C e sa :
  e_status e = Some "sending" →
  delivered E C e sa (snd (dispatch_entry E C e sa)).
Proof.
  intros Hs. unfold delivered, dispatch_entry.
  destruct (decide (e_status e = Some "sending")) as [_|?]; [|done].
  destruct (decide (e_type e = Some "copy")) as [Hty|Hty].
  - intros c m -> -> Hch. unfold write_log.
    pose proof (for_channels_calls_each E C (channels_file sa) [] sa) as Hcalls.
    unfold broadcast_copy.
    destruct (channels_file sa) as [|c0 rest] eqn:Hreg; [done|].
    destruct (for_channels E C (c0 :: rest) [] sa) as [res st1] eqn:Hfor.
    destruct (for_channels_frame _ _ _ _ _ _ _ Hfor) as (Hp & _).
    simpl. split.
    + exists res, (clock st1). by rewrite Hp.
    + intros Hretry ch Hin. by apply Hcalls.
  - destruct (decide (e_type e = Some "file")) as [Hty2|Hty2]; [|done].
    intros Hopen.
    pose proof (file_sends_calls E e (channels_file sa) [] sa Hopen) as Hc.
    by destruct (file_sends E e (channels_file sa) [] sa) as [res st1].
Qed.

(** The ledger entry a dispatch leaves: at most one, and one exactly for
    a [copy] entry with both keys when the registry is not empty. *)
Lemma dispatch_entry_ledger E C e sa :
  ∃ new, posts_file (snd (dispatch_entry E C e sa)) = posts_file sa ++ new
    ∧ map post_key new `sublist_of` option_list (copy_key e)
    ∧ (channels_file sa ≠ [] → map post_key new = option_list (copy_key e)).
Proof.
  unfold dispatch_entry, copy_key, write_log.
  case_decide as Hs; [|exists []; by rewrite app_nil_r].
  case_decide as Hty.
  - destruct (e_from_chat_id e) as [c|], (e_message_id e) as [m|];
      try (exists []; by rewrite app_nil_r).
    unfold broadcast_copy.
    destruct (channels_file sa) as [|c0 rest] eqn:Hreg.
    + exists []. rewrite app_nil_r. split; [done|]. split; [apply sublist_nil_l | done].
    + destruct (for_channels E C (c0 :: rest) [] sa) as [res st1] eqn:Hfor.
      destruct (for_channels_frame _ _ _ _ _ _ _ Hfor) as (Hp & _).
      eexists [_]. simpl. rewrite Hp. by repeat split.
  - exists []. rewrite app_nil_r. simpl. split; [|done].
    case_decide; [|done].
    destruct (file_sends_spec E e (channels_file sa) [] sa)
      as (_ & _ & _ & _ & _ & _ & _ & _ & Hp & _).
    by destruct (file_sends _ _ _ _ _).
Qed.

Lemma file_sends_channels E e channels res st :
  undisturbed E →
  channels_file (snd (file_sends E e channels res st)) = channels_file st.
Proof.
  intros Hq. revert res st.
  induction channels as [|ch rest IH]; intros res st; simpl; [done|].
  assert (∀ r1 r2,
            channels_file (snd (
              match call_transport E ch st with
              | (Returns, st1) => file_sends E e rest r1 st1
              | (Raises _ msg, st1) =>
                  file_sends E e rest (r2 msg)
                    (write_log (LogRecord "send" (Some "error") (Some ch)) st1)
              end)) = channels_file st) as Hcall.
  { intros r1 r2. unfold call_transport, write_log.
    destruct (transport E (steps st) ch) as [|name msg]; rewrite IH; simpl; apply Hq. }
  destruct (e_file_path e) as [fp|].
  - case_decide; [apply (Hcall _ (λ msg, _))|].
    destruct (open_error E fp) as [msg|]; [by rewrite IH | apply (Hcall _ (λ msg, _))].
  - apply (Hcall _ (λ msg, _)).
Qed.

(** With auto-removal off and nobody else writing the registry, a
    dispatch leaves the registry as it is. *)
Lemma dispatch_entry_channels E C e sa :
  undisturbed E → REMOVE_ON_FORBIDDEN C = false →
  channels_file (snd (dispatch_entry E C e sa)) = channels_file sa.
Proof.
  intros Hq Hoff. unfold dispatch_entry, write_log.
  case_decide; [|done]. case_decide.
  - destruct (e_from_chat_id e) as [c|], (e_message_id e) as [m|]; try done.
    unfold broadcast_copy.
    destruct (channels_file sa) as [|c0 rest] eqn:Hreg; [done|].
    destruct (for_channels E C (c0 :: rest) [] sa) as [res st1] eqn:Hfor.
    destruct (for_channels_registry E C Hq _ _ _ _ _ Hfor) as (_ & Heq & _).
    simpl. by rewrite (Heq Hoff).
  - case_decide; [|done].
    pose proof (file_sends_channels E e (channels_file sa) [] sa Hq) as Hc.
    by destruct (file_sends _ _ _ _ _).
Qed.

(** The ledger entries of the second loop: at most one for every entry
    of the list that is [sending], of type [copy], with both keys, in the
    order of the list; and exactly one for each of them as long as the
    registry is not empty. *)
Lemma dispatch_all_ledger E C ob st :
  ∃ new, posts_file (snd (dispatch_all E C ob st)) = posts_file st ++ new
    ∧ map post_key new `sublist_of` omap copy_key ob
    ∧ (undisturbed E → REMOVE_ON_FORBIDDEN C = false → channels_file st ≠ [] →
       map post_key new = omap copy_key ob).
Proof.
  revert st. induction ob as [|e ob IH]; intros st; simpl.
  - exists []. by rewrite app_nil_r.
  - destruct (dispatch_entry_ledger E C e st) as (new1 & Hp1 & Hs1 & He1).
    pose proof (dispatch_entry_channels E C e st) as Hc.
    destruct (dispatch_entry E C e st) as [e' st1]. simpl in *.
    destruct (IH st1) as (new2 & Hp2 & Hs2 & He2).
    destruct (dispatch_all E C ob st1) as [ob' st2]. simpl in *.
    exists (new1 ++ new2). rewrite Hp2, Hp1, app_assoc, map_app.
    assert (omap copy_key (e :: ob) = option_list (copy_key e) ++ omap copy_key ob)
      as Hcons by (simpl; by destruct (copy_key e)).
    simpl in Hcons. rewrite Hcons.
    split; [done|]. split; [by apply sublist_app|].
    intros Hq Hoff Hne. rewrite (He1 Hne), He2; [done|done|done|].
    by rewrite (Hc Hq Hoff).
Qed.

(** C5, as amended.  A sweep whose first loop raises no exception
    dispatches exactly the entries that are [sending] once that loop is
    over: those that were [sending] when the outbox was loaded, whichever
    process marked them so, and the [pending] ones that are due.  For
    each of them the sweep reaches a state [sa] from which it runs the
    dispatch: what the dispatch sends and records (a ledger entry and
    calls to the channels registered at [sa], see [delivered]) is part of
    what the sweep has sent and recorded once line 809 has saved, and in
    the saved file the entry has the final status the dispatch gave it.
    Every other entry is saved as it was loaded.  The sweep adds to the
    ledger at most one entry for each [copy] entry it dispatches, in
    their order, and exactly one while the registry is not empty. *)
Theorem outbox_iteration_dispatches_sending E C st :
  is_Some (sweep_promote E st) →
  let ob1 := map (mark_entry E (clock st)) (outbox_file st) in
  let st' := outbox_try E C st in
  (∀ i e, outbox_file st !! i = Some e →
     let e1 := mark_entry E (clock st) e in
     if decide (e_status e1 = Some "sending") then
       (e_status e = Some "sending" → e1 = e)
       ∧ ∃ sa sb e',
           dispatch_entry E C e1 sa = (e', sb)
           ∧ trace st `prefix_of` trace sa
           ∧ trace sb `prefix_of` trace st'
           ∧ posts_file st `prefix_of` posts_file sa
           ∧ posts_file sb `prefix_of` posts_file st'
           ∧ delivered E C e1 sa sb
           ∧ outbox_file st' !! i = Some e'
           ∧ is_terminal (e_status e')
     else
       e_status e ≠ Some "sending" ∧ outbox_file st' !! i = Some e)
  ∧ ∃ new, posts_file st' = posts_file st ++ new
      ∧ map post_key new `sublist_of` omap copy_key ob1
      ∧ (undisturbed E → REMOVE_ON_FORBIDDEN C = false → channels_file st ≠ [] →
         map post_key new = omap copy_key ob1).
Proof.
  intros [[ob1 st1] Hp].
  destruct (sweep_promote_Some _ _ _ _ Hp) as [Hob1 Hst1].
  destruct (outbox_try_file E C st ob1 st1 Hp) as (Hfile & Htr & Hpo & _).
  assert (trace st1 = trace st ∧ posts_file st1 = posts_file st
          ∧ channels_file st1 = channels_file st) as (Ht1 & Hp1 & Hc1)
    by (by destruct Hst1 as [->| ->]).
  cbv zeta. rewrite Hfile, Htr, Hpo, <- Hob1. split.
  - intros i e Hi.
    assert (ob1 !! i = Some (mark_entry E (clock st) e)) as He1
      by (by rewrite Hob1, list_lookup_fmap, Hi).
    destruct (dispatch_all_lookup E C ob1 st1 i _ He1)
      as (sa & Hl & Hta & Hpa & Htb & Hpb).
    rewrite Ht1 in Hta. rewrite Hp1 in Hpa.
    assert (e_status e = Some "sending" → mark_entry E (clock st) e = e) as Hsame.
    { intros Hs. unfold mark_entry. case_decide; [congruence | done]. }
    case_decide as Hs.
    + split; [done|].
      exists sa, (snd (dispatch_entry E C (mark_entry E (clock st) e) sa)),
             (fst (dispatch_entry E C (mark_entry E (clock st) e) sa)).
      split; [by destruct (dispatch_entry _ _ _ _)|].
      repeat split; try done.
      * by apply dispatch_entry_delivered.
      * destruct (dispatch_entry_status E C (mark_entry E (clock st) e) sa)
          as [[_ Hterm]|[Hn _]]; [done | congruence].
    + assert (e_status e ≠ Some "sending") as Hn.
      { intros Hse. apply Hs. by rewrite (Hsame Hse). }
      split; [done|].
      destruct (dispatch_entry_status E C (mark_entry E (clock st) e) sa)
        as [[Hy _]|[_ Heq]]; [done|].
      rewrite Hl, Heq. f_equal.
      unfold mark_entry in *. case_decide as Hpe; [|done].
      destruct (parse_send_at E e) as [t|]; [|done].
      destruct (t <=? clock st); [|done]. by destruct Hs.
  - destruct (dispatch_all_ledger E C ob1 st1) as (new & Hn & Hsub & Heq).
    exists new. rewrite Hn, Hp1. split; [done|]. split; [done|].
    intros Hq Hoff Hne. apply Heq; [done|done|]. by rewrite Hc1.
Qed.

(** An instance: the outbox holds an entry that is due and an entry left
    [sending] by a process that died; the sweep records a broadcast for
    each of them. *)
Lemma outbox_iteration_dispatches_sending_witness :
  ∃ new,
    posts_file (outbox_try (quiet_env always_ok) keep_config
                  (fresh_state ["A"] [due_entry; stale_entry]))
    = [] ++ new
    ∧ map post_key new = [(1, 2, Some 7); (1, 2, Some 7)].
Proof.
  destruct (outbox_iteration_dispatches_sending (quiet_env always_ok) keep_config
              (fresh_state ["A"] [due_entry; stale_entry]))
    as [_ (new & Hp & _ & Heq)]; [by eexists|].
  exists new. split; [exact Hp|].
  apply Heq; [by intros n l | reflexivity | discriminate].
Defined.

(** C5, counterexample: the outbox holds one entry, left [sending] by a
    process that died.  The first sweep of a new process promotes
    nothing, and yet it copies the message to channel ["A"] and marks the
    entry [sent]. *)
Lemma outbox_iteration_resumes_stale_entry :
  let st := fresh_state ["A"] [stale_entry] in
  let st' := outbox_iteration (quiet_env always_ok) default_config st in
  fst <$> sweep_promote (quiet_env always_ok) st = Some [stale_entry]
  ∧ map e_status (outbox_file st') = [Some "sent"]
  ∧ map a_channel (trace st') = ["A"]
  ∧ length (posts_file st') = 1%nat.
Proof. vm_compute. done. Qed.
